(** * Ceiling Pop 3D: scoring, entity life cycle, collisions, pooling, waves

    A shallow embedding of the simulation core of the game
    (js/utils.js, js/game-state.js, js/game-objects.js,
    js/scene-manager.js and the game controller) together with the
    properties of its specification.

    Conventions of the embedding.
    - JavaScript numbers that stay integral in the program (scores, hit
      points, counters, millisecond time stamps) are [Z]; numbers that can
      be fractional are rationals [Q].  The arithmetic whose rounding can
      reach an integer of the program (the depth and combo multipliers and
      the products that [addScore] floors, [random], [lerp], the wave
      progress) is carried out as the program does it, in binary64: every
      operation is the exact one followed by [Double.round], and a decimal
      literal is the Number nearest to it.  Coordinates, distances, spawn
      rates and frame times, which the statements only compare, are exact.
      Statements on [Q] use [==], [<=] and [<] of [Q].
    - Objects live in a store indexed by reference ([nat]); the arrays of
      the scene manager hold references, so two holders of the same
      reference see each other's writes.
    - The meshes, the materials and the DOM are presentation state and are
      left out; calls to the audio manager, the particle system and the
      game controller are recorded, in order, in a trace.
    - [Math.random] and [Date.now] are inputs: the draws that matter are
      taken from an oracle, the clock is a field of the world.
    - A method called on a reference that is not in its store, which the
      program cannot do, leaves the world as it is. *)

From Stdlib Require Import ZArith QArith Qpower Qround Qabs Qminmax Lqa Lia.
From Stdlib Require Import List Bool.
From stdpp Require Import base option list gmap.

Local Open Scope Z_scope.

(** ** Numbers: rounding to binary64

    A Number is a 53-bit integer times a power of two.  [round] takes a
    rational to the nearest Number, the one with an even significand of
    two that are equally near, as IEEE 754 prescribes for the result of
    every arithmetic operation.  Numbers below [2^-1022] thin out to the
    fixed spacing [2^-1074].  Beyond [2^53] in magnitude, where Numbers no
    longer tell consecutive integers apart, the model keeps the exact
    value: the integers of the program, which it holds in [Z], stay far
    below.  Infinities, NaN and the sign of zero are not modelled. *)

Module Double.

(** The exponent [e] of a positive number: [2^e <= x < 2^(e+1)]. *)
Definition binade (x : Q) : Z :=
  let e := Z.log2 (Qnum x) - Z.log2 (Z.pos (Qden x)) in
  if Qle_bool (2 ^ e) x then e else e - 1.

(** The spacing of the Numbers around a positive [x]. *)
Definition quantum (x : Q) : Q := (2 ^ Z.max (binade x - 52) (-1074))%Q.

(** The integer nearest to [m], the even one of two that are equally
    near. *)
Definition nearestEven (m : Q) : Z :=
  let f := Qfloor m in
  match (m - inject_Z f ?= 1 # 2)%Q with
  | Lt => f
  | Gt => f + 1
  | Eq => if Z.even f then f else f + 1
  end.

(** The Number nearest to a positive [x]. *)
Definition roundPos (x : Q) : Q :=
  (inject_Z (nearestEven (x / quantum x)) * quantum x)%Q.

Definition maxSafe : Q := inject_Z (2 ^ 53).

Definition round (x : Q) : Q :=
  if Qle_bool (Qabs x) maxSafe then
    match (x ?= 0)%Q with
    | Eq => 0%Q
    | Gt => roundPos x
    | Lt => (- roundPos (- x))%Q
    end
  else x.

(** [x + y], [x - y], [x * y] and [x / y] on Numbers. *)
Definition add (x y : Q) : Q := round (x + y).
Definition sub (x y : Q) : Q := round (x - y).
Definition mul (x y : Q) : Q := round (x * y).
Definition div (x y : Q) : Q := round (x / y).

End Double.

(** The Numbers within the safe range: an integer of at most 53 bits
    times a power of two that is at least [2^-1074]. *)
Definition representable (f : Q) : Prop :=
  ∃ k j : Z, Z.abs k ≤ 2 ^ 53 ∧ -1074 ≤ j ∧ (f == inject_Z k * 2 ^ j)%Q.

(** The largest Number below 1, the upper end of the draws of
    [Math.random()]. *)
Definition belowOne : Q := (9007199254740991 # 9007199254740992)%Q.

(** The least depth whose multiplier, computed by [getDepthBonus] for the
    default [maxDepth] of 200, exceeds 1.5. *)
Definition depthBonusThreshold : Q := (50 + (75 # 4503599627370496))%Q.

(** ** js/utils.js: MathUtils *)

Module MathUtils.

(** [clamp: (value, min, max) => Math.max(min, Math.min(max, value))] *)
Definition clamp (value lo hi : Q) : Q := Qmax lo (Qmin hi value).

(** The default of [maxDepth] in [getDepthBonus(z, maxDepth = 200)]. *)
Definition defaultMaxDepth : Q := 200%Q.

(** [getDepthBonus: (z, maxDepth = 200) => {
       const normalizedDepth = Math.abs(z) / maxDepth;
       return 1 + Math.min(normalizedDepth * 2, 3); }] *)
Definition getDepthBonus (z maxDepth : Q) : Q :=
  let normalizedDepth := Double.div (Qabs z) maxDepth in
  Double.add 1 (Qmin (Double.mul normalizedDepth 2) 3).

(** [random: (min, max) => Math.random() * (max - min) + min], with the
    value [r] that [Math.random()] returns. *)
Definition random (r min max : Q) : Q :=
  Double.add (Double.mul r (Double.sub max min)) min.

(** [randomInt: (min, max) =>
      Math.floor(Math.random() * (max - min + 1)) + min], on integer
    bounds. *)
Definition randomInt (r : Q) (min max : Z) : Z :=
  Qfloor (Double.mul r (inject_Z (max - min + 1))) + min.

(** [lerp: (start, end, factor) => start + (end - start) * factor] *)
Definition lerp (start end_ factor : Q) : Q :=
  Double.add start (Double.mul (Double.sub end_ start) factor).

End MathUtils.

(** ** Vectors (THREE.Vector3, the part the simulation uses) *)

Record Vector3 : Type := mkVector3 { vx : Q; vy : Q; vz : Q }.

Definition Vector3_zero : Vector3 := mkVector3 0 0 0.

(** [this.position.add(this.velocity.clone().multiplyScalar(deltaTime))] *)
Definition Vector3_addScaled (p v : Vector3) (k : Q) : Vector3 :=
  mkVector3 (vx p + vx v * k) (vy p + vy v * k) (vz p + vz v * k).

(** Squared Euclidean distance.  [distanceTo] is its square root; the
    comparisons of the program against a radius are taken on the squares. *)
Definition distanceSq (p q : Vector3) : Q :=
  let dx := (vx p - vx q)%Q in
  let dy := (vy p - vy q)%Q in
  let dz := (vz p - vz q)%Q in
  (dx * dx + dy * dy + dz * dz)%Q.

(** [p.distanceTo(q) <= r] *)
Definition distance_le (p q : Vector3) (r : Q) : bool :=
  Qle_bool 0 r && Qle_bool (distanceSq p q) (r * r).

(** [p.distanceTo(q) < r] *)
Definition distance_lt (p q : Vector3) (r : Q) : bool :=
  negb (Qle_bool r 0) && negb (Qle_bool (r * r) (distanceSq p q)).

(** ** js/game-state.js: PlayerState *)

Record Stats : Type := mkStats {
  balloonsPopped : Z;
  enemiesDestroyed : Z;
  powerUpsCollected : Z;
  totalShotsAccuracy : Z;
  maxCombo : Z;
  currentCombo : Z;
  depthBonusesEarned : Z;
  vortexChainsTriggered : Z
}.

Record PlayerState : Type := mkPlayerState {
  score : Z;
  level : Z;
  wave : Z;
  missed : Z;
  health : Z;
  maxHealth : Z;
  shields : Z;
  maxShields : Z;
  isShielded : bool;
  depthBonus : Q;
  totalDepthBonusEarned : Z;
  vortexChainCount : Z;
  perspectiveAccuracy : Q;
  stats : Stats;
  MAX_MISSED : Z
}.

(** The keys of [PowerUpManager.powerUps]. *)
Inductive PowerUpType : Type :=
  | ENERGY_BEAM | MINI_SHIPS | SHIELD | DEPTH_VISION | VORTEX_AMPLIFIER.

(** Calls that leave the simulation: the audio manager, the particle
    system, the camera, the game controller.  The trace keeps them in the
    order in which the program issues them; [EvMissed] marks the entry of
    [Balloon3D.onMissed]. *)
Inductive Cue : Type :=
  | CueDepthBonus | CuePop | CuePowerupActivate | CueVortexChain
  | CueEnemyHit | CueEnemyExplosion | CueBossAppear | CueLevelComplete.

Inductive Event : Type :=
  | EvPlay (c : Cue)            (* audioManager.play / play3D *)
  | EvParticles (n : nat)       (* n calls of sceneManager.createParticle *)
  | EvPowerUpEffect (t : PowerUpType) (on : bool)
                                (* scene side of (de)activatePowerUpEffect *)
  | EvCameraShake               (* sceneManager.addCameraShake *)
  | EvMissed                    (* Balloon3D.onMissed *)
  | EvBossWave                  (* GameFlow.triggerBossWave *)
  | EvGameOver.                 (* gameController.gameOver() *)

Module Player.

(** [constructor()] *)
Definition new : PlayerState :=
  {| score := 0; level := 1; wave := 1; missed := 0;
     health := 100; maxHealth := 100; shields := 100; maxShields := 100;
     isShielded := false;
     depthBonus := 1; totalDepthBonusEarned := 0; vortexChainCount := 0;
     perspectiveAccuracy := 1;
     stats := {| balloonsPopped := 0; enemiesDestroyed := 0;
                 powerUpsCollected := 0; totalShotsAccuracy := 0;
                 maxCombo := 0; currentCombo := 0;
                 depthBonusesEarned := 0; vortexChainsTriggered := 0 |};
     MAX_MISSED := 20 |}.

(** [reset()]: the fields [maxHealth], [maxShields] and [MAX_MISSED] are
    not assigned, and [stats.maxCombo] is carried over
    ("Reset stats but keep some persistent data"). *)
Definition reset (p : PlayerState) : PlayerState :=
  let maxCombo0 := maxCombo (stats p) in
  {| score := 0; level := 1; wave := 1; missed := 0;
     health := 100; maxHealth := maxHealth p;
     shields := 100; maxShields := maxShields p;
     isShielded := false;
     depthBonus := 1; totalDepthBonusEarned := 0; vortexChainCount := 0;
     perspectiveAccuracy := 1;
     stats := {| balloonsPopped := 0; enemiesDestroyed := 0;
                 powerUpsCollected := 0; totalShotsAccuracy := 0;
                 maxCombo := maxCombo0; currentCombo := 0;
                 depthBonusesEarned := 0; vortexChainsTriggered := 0 |};
     MAX_MISSED := MAX_MISSED p |}.

Definition set_stats (st : Stats) (p : PlayerState) : PlayerState :=
  {| score := score p; level := level p; wave := wave p; missed := missed p;
     health := health p; maxHealth := maxHealth p;
     shields := shields p; maxShields := maxShields p;
     isShielded := isShielded p;
     depthBonus := depthBonus p;
     totalDepthBonusEarned := totalDepthBonusEarned p;
     vortexChainCount := vortexChainCount p;
     perspectiveAccuracy := perspectiveAccuracy p;
     stats := st; MAX_MISSED := MAX_MISSED p |}.

Definition set_currentCombo (c : Z) (st : Stats) : Stats :=
  {| balloonsPopped := balloonsPopped st;
     enemiesDestroyed := enemiesDestroyed st;
     powerUpsCollected := powerUpsCollected st;
     totalShotsAccuracy := totalShotsAccuracy st;
     maxCombo := maxCombo st; currentCombo := c;
     depthBonusesEarned := depthBonusesEarned st;
     vortexChainsTriggered := vortexChainsTriggered st |}.

(** [const comboMultiplier = 1 + (this.stats.currentCombo * 0.1);] *)
Definition comboMultiplier (p : PlayerState) : Q :=
  Double.add 1
    (Double.mul (inject_Z (currentCombo (stats p))) (Double.round (1 # 10))).

(** The first half of [addScore(points, position = null)]: the branch
    [if (position && position.z)].  A missing position and a depth of 0
    are both falsy; [finalPoints] stays [points] then.  The result is the
    player after the branch, [finalPoints], and the sound it asked for. *)
Definition applyDepthBonus (points : Z) (position : option Vector3)
    (p : PlayerState) : PlayerState * Z * list Event :=
  match position with
  | Some pos =>
      if Qeq_bool (vz pos) 0 then (p, points, [])
      else
        let depthMultiplier :=
          MathUtils.getDepthBonus (vz pos) MathUtils.defaultMaxDepth in
        let finalPoints :=
          Qfloor (Double.mul (inject_Z points) depthMultiplier) in
        let p1 :=
          {| score := score p; level := level p; wave := wave p;
             missed := missed p;
             health := health p; maxHealth := maxHealth p;
             shields := shields p; maxShields := maxShields p;
             isShielded := isShielded p;
             depthBonus := depthMultiplier;
             totalDepthBonusEarned := totalDepthBonusEarned p;
             vortexChainCount := vortexChainCount p;
             perspectiveAccuracy := perspectiveAccuracy p;
             stats := stats p; MAX_MISSED := MAX_MISSED p |} in
        if negb (Qle_bool depthMultiplier (3 # 2)) then
          let st := stats p1 in
          ({| score := score p1; level := level p1; wave := wave p1;
              missed := missed p1;
              health := health p1; maxHealth := maxHealth p1;
              shields := shields p1; maxShields := maxShields p1;
              isShielded := isShielded p1;
              depthBonus := depthBonus p1;
              totalDepthBonusEarned :=
                totalDepthBonusEarned p1 + (finalPoints - points);
              vortexChainCount := vortexChainCount p1;
              perspectiveAccuracy := perspectiveAccuracy p1;
              stats :=
                {| balloonsPopped := balloonsPopped st;
                   enemiesDestroyed := enemiesDestroyed st;
                   powerUpsCollected := powerUpsCollected st;
                   totalShotsAccuracy := totalShotsAccuracy st;
                   maxCombo := maxCombo st; currentCombo := currentCombo st;
                   depthBonusesEarned := depthBonusesEarned st + 1;
                   vortexChainsTriggered := vortexChainsTriggered st |};
              MAX_MISSED := MAX_MISSED p1 |},
           finalPoints, [EvPlay CueDepthBonus])
        else (p1, finalPoints, [])
  | None => (p, points, [])
  end.

(** [addScore(points, position = null)]; returns the player, the value
    the method returns ([finalPoints]) and the sounds played. *)
Definition addScore (points : Z) (position : option Vector3)
    (p : PlayerState) : PlayerState * Z * list Event :=
  let '(p1, finalPoints0, evs) := applyDepthBonus points position p in
  let finalPoints :=
    Qfloor (Double.mul (inject_Z finalPoints0) (comboMultiplier p1)) in
  let st := stats p1 in
  let combo' := currentCombo st + 1 in
  ({| score := score p1 + finalPoints;
      level := level p1; wave := wave p1; missed := missed p1;
      health := health p1; maxHealth := maxHealth p1;
      shields := shields p1; maxShields := maxShields p1;
      isShielded := isShielded p1;
      depthBonus := depthBonus p1;
      totalDepthBonusEarned := totalDepthBonusEarned p1;
      vortexChainCount := vortexChainCount p1;
      perspectiveAccuracy := perspectiveAccuracy p1;
      stats :=
        {| balloonsPopped := balloonsPopped st;
           enemiesDestroyed := enemiesDestroyed st;
           powerUpsCollected := powerUpsCollected st;
           totalShotsAccuracy := totalShotsAccuracy st;
           maxCombo := Z.max (maxCombo st) combo'; currentCombo := combo';
           depthBonusesEarned := depthBonusesEarned st;
           vortexChainsTriggered := vortexChainsTriggered st |};
      MAX_MISSED := MAX_MISSED p1 |},
   finalPoints, evs).

(** [breakCombo() { this.stats.currentCombo = 0; }] *)
Definition breakCombo (p : PlayerState) : PlayerState :=
  set_stats (set_currentCombo 0 (stats p)) p.

(** [setWave(wave)] *)
Definition setWave (w : Z) (p : PlayerState) : PlayerState :=
  {| score := score p; level := level p; wave := w; missed := missed p;
     health := health p; maxHealth := maxHealth p;
     shields := shields p; maxShields := maxShields p;
     isShielded := isShielded p;
     depthBonus := depthBonus p;
     totalDepthBonusEarned := totalDepthBonusEarned p;
     vortexChainCount := vortexChainCount p;
     perspectiveAccuracy := perspectiveAccuracy p;
     stats := stats p; MAX_MISSED := MAX_MISSED p |}.

(** [setLevel(level)] *)
Definition setLevel (l : Z) (p : PlayerState) : PlayerState :=
  {| score := score p; level := l; wave := wave p; missed := missed p;
     health := health p; maxHealth := maxHealth p;
     shields := shields p; maxShields := maxShields p;
     isShielded := isShielded p;
     depthBonus := depthBonus p;
     totalDepthBonusEarned := totalDepthBonusEarned p;
     vortexChainCount := vortexChainCount p;
     perspectiveAccuracy := perspectiveAccuracy p;
     stats := stats p; MAX_MISSED := MAX_MISSED p |}.

(** [heal(amount)] *)
Definition heal (amount : Z) (p : PlayerState) : PlayerState :=
  {| score := score p; level := level p; wave := wave p; missed := missed p;
     health := Z.min (maxHealth p) (health p + amount);
     maxHealth := maxHealth p;
     shields := Z.min (maxShields p) (shields p + amount);
     maxShields := maxShields p;
     isShielded := isShielded p;
     depthBonus := depthBonus p;
     totalDepthBonusEarned := totalDepthBonusEarned p;
     vortexChainCount := vortexChainCount p;
     perspectiveAccuracy := perspectiveAccuracy p;
     stats := stats p; MAX_MISSED := MAX_MISSED p |}.

(** [updatePerspectiveAccuracy(accuracy)] *)
Definition updatePerspectiveAccuracy (accuracy : Q) (p : PlayerState)
    : PlayerState :=
  {| score := score p; level := level p; wave := wave p; missed := missed p;
     health := health p; maxHealth := maxHealth p;
     shields := shields p; maxShields := maxShields p;
     isShielded := isShielded p;
     depthBonus := depthBonus p;
     totalDepthBonusEarned := totalDepthBonusEarned p;
     vortexChainCount := vortexChainCount p;
     perspectiveAccuracy := accuracy;
     stats := stats p; MAX_MISSED := MAX_MISSED p |}.

(** [addMissed()]; the boolean is the game-over signal. *)
Definition addMissed (p : PlayerState) : PlayerState * bool :=
  if isShielded p then (p, false)
  else
    let p1 :=
      {| score := score p; level := level p; wave := wave p;
         missed := missed p + 1;
         health := health p; maxHealth := maxHealth p;
         shields := shields p; maxShields := maxShields p;
         isShielded := isShielded p;
         depthBonus := depthBonus p;
         totalDepthBonusEarned := totalDepthBonusEarned p;
         vortexChainCount := vortexChainCount p;
         perspectiveAccuracy := perspectiveAccuracy p;
         stats := stats p; MAX_MISSED := MAX_MISSED p |} in
    let p2 := breakCombo p1 in
    if MAX_MISSED p2 <=? missed p2 then (p2, true) else (p2, false).

(** [takeDamage(amount)]; the boolean is the game-over signal. *)
Definition takeDamage (amount : Z) (p : PlayerState) : PlayerState * bool :=
  if isShielded p then (p, false)
  else
    let p1 :=
      {| score := score p; level := level p; wave := wave p;
         missed := missed p;
         health := Z.max 0 (health p - amount); maxHealth := maxHealth p;
         shields := Z.max 0 (shields p - amount); maxShields := maxShields p;
         isShielded := isShielded p;
         depthBonus := depthBonus p;
         totalDepthBonusEarned := totalDepthBonusEarned p;
         vortexChainCount := vortexChainCount p;
         perspectiveAccuracy := perspectiveAccuracy p;
         stats := stats p; MAX_MISSED := MAX_MISSED p |} in
    let p2 := breakCombo p1 in
    if health p2 <=? 0 then (p2, true) else (p2, false).

(** [addVortexChain()]; returns the player, [chainBonus] and the sounds. *)
Definition addVortexChain (p : PlayerState)
    : PlayerState * Z * list Event :=
  let st := stats p in
  let p1 :=
    {| score := score p; level := level p; wave := wave p;
       missed := missed p;
       health := health p; maxHealth := maxHealth p;
       shields := shields p; maxShields := maxShields p;
       isShielded := isShielded p;
       depthBonus := depthBonus p;
       totalDepthBonusEarned := totalDepthBonusEarned p;
       vortexChainCount := vortexChainCount p + 1;
       perspectiveAccuracy := perspectiveAccuracy p;
       stats :=
         {| balloonsPopped := balloonsPopped st;
            enemiesDestroyed := enemiesDestroyed st;
            powerUpsCollected := powerUpsCollected st;
            totalShotsAccuracy := totalShotsAccuracy st;
            maxCombo := maxCombo st; currentCombo := currentCombo st;
            depthBonusesEarned := depthBonusesEarned st;
            vortexChainsTriggered := vortexChainsTriggered st + 1 |};
       MAX_MISSED := MAX_MISSED p |} in
  let chainBonus := vortexChainCount p1 * 25 in
  let '(p2, _, evs) := addScore chainBonus None p1 in
  (p2, chainBonus, evs).

End Player.

(** ** js/game-state.js: PowerUpManager *)

Definition PowerUpType_eqb (a b : PowerUpType) : bool :=
  match a, b with
  | ENERGY_BEAM, ENERGY_BEAM | MINI_SHIPS, MINI_SHIPS | SHIELD, SHIELD
  | DEPTH_VISION, DEPTH_VISION | VORTEX_AMPLIFIER, VORTEX_AMPLIFIER => true
  | _, _ => false
  end.

Record PowerUpManager : Type := mkPowerUpManager {
  activePowerUp : option PowerUpType;
  endTime : Z
}.

(** The [duration] column of [this.powerUps], in milliseconds. *)
Definition duration (t : PowerUpType) : Z :=
  match t with
  | ENERGY_BEAM => 12000
  | MINI_SHIPS => 18000
  | SHIELD => 10000
  | DEPTH_VISION => 15000
  | VORTEX_AMPLIFIER => 20000
  end.

(** ** js/game-objects.js: the entities *)

Inductive BalloonType : Type := normal | armored | powerup.

Module Balloon3D.
Record t : Type := mk {
  position : Vector3;
  velocity : Vector3;
  isAlive : bool;
  age : Q;
  maxAge : option Q;          (* [None] is [Infinity] *)
  radius : Q;
  points : Z;
  health : Z;
  type : BalloonType
}.

Definition set_health (h : Z) (b : t) : t :=
  mk (position b) (velocity b) (isAlive b) (age b) (maxAge b)
     (radius b) (points b) h (type b).

Definition set_isAlive (a : bool) (b : t) : t :=
  mk (position b) (velocity b) a (age b) (maxAge b)
     (radius b) (points b) (health b) (type b).

Definition set_kinematics (pos : Vector3) (a : Q) (b : t) : t :=
  mk pos (velocity b) (isAlive b) a (maxAge b)
     (radius b) (points b) (health b) (type b).
End Balloon3D.

Module EnemyDrone3D.
Record t : Type := mk {
  position : Vector3;
  velocity : Vector3;
  isAlive : bool;
  age : Q;
  maxAge : option Q;
  width : Q;
  height : Q;
  depth : Q;
  health : Z;
  points : Z
}.

Definition set_health (h : Z) (e : t) : t :=
  mk (position e) (velocity e) (isAlive e) (age e) (maxAge e)
     (width e) (height e) (depth e) h (points e).

Definition set_isAlive (a : bool) (e : t) : t :=
  mk (position e) (velocity e) a (age e) (maxAge e)
     (width e) (height e) (depth e) (health e) (points e).
End EnemyDrone3D.

Inductive Owner : Type := OwnerPlayer | OwnerEnemy.

Module Projectile3D.
Record t : Type := mk {
  position : Vector3;
  velocity : Vector3;
  isAlive : bool;
  age : Q;
  maxAge : option Q;
  owner : Owner;
  damage : Z
}.

Definition set_isAlive (a : bool) (p : t) : t :=
  mk (position p) (velocity p) a (age p) (maxAge p) (owner p) (damage p).
End Projectile3D.

(** A callback registered with [setTimeout] by [checkVortexChain]:
    [() => { if (balloon.isAlive) balloon.hit(); }], with its delay in
    milliseconds. *)
Record Timer : Type := mkTimer { timerDelay : Q; timerTarget : nat }.

(** ** The world: the globals of [window] and the scene manager's arrays *)

Record World : Type := mkWorld {
  player : option PlayerState;             (* window.player *)
  powerUpManager : option PowerUpManager;  (* window.powerUpManager *)
  balloonStore : gmap nat Balloon3D.t;
  enemyStore : gmap nat EnemyDrone3D.t;
  projectileStore : gmap nat Projectile3D.t;
  balloons : list nat;                     (* sceneManager.balloons *)
  enemies : list nat;                      (* sceneManager.enemies *)
  projectiles : list nat;                  (* sceneManager.projectiles *)
  timers : list Timer;                     (* pending setTimeout callbacks *)
  trace : list Event;
  now : Z;                                 (* Date.now() *)
  draws : nat                              (* oracle draws taken so far *)
}.

Definition set_player (p : option PlayerState) (w : World) : World :=
  mkWorld p (powerUpManager w) (balloonStore w) (enemyStore w)
    (projectileStore w) (balloons w) (enemies w) (projectiles w)
    (timers w) (trace w) (now w) (draws w).

Definition set_powerUpManager (m : option PowerUpManager) (w : World) : World :=
  mkWorld (player w) m (balloonStore w) (enemyStore w)
    (projectileStore w) (balloons w) (enemies w) (projectiles w)
    (timers w) (trace w) (now w) (draws w).

Definition set_balloonStore (s : gmap nat Balloon3D.t) (w : World) : World :=
  mkWorld (player w) (powerUpManager w) s (enemyStore w)
    (projectileStore w) (balloons w) (enemies w) (projectiles w)
    (timers w) (trace w) (now w) (draws w).

Definition set_enemyStore (s : gmap nat EnemyDrone3D.t) (w : World) : World :=
  mkWorld (player w) (powerUpManager w) (balloonStore w) s
    (projectileStore w) (balloons w) (enemies w) (projectiles w)
    (timers w) (trace w) (now w) (draws w).

Definition set_projectileStore (s : gmap nat Projectile3D.t) (w : World)
    : World :=
  mkWorld (player w) (powerUpManager w) (balloonStore w) (enemyStore w)
    s (balloons w) (enemies w) (projectiles w)
    (timers w) (trace w) (now w) (draws w).

Definition set_balloons (l : list nat) (w : World) : World :=
  mkWorld (player w) (powerUpManager w) (balloonStore w) (enemyStore w)
    (projectileStore w) l (enemies w) (projectiles w)
    (timers w) (trace w) (now w) (draws w).

Definition set_enemies (l : list nat) (w : World) : World :=
  mkWorld (player w) (powerUpManager w) (balloonStore w) (enemyStore w)
    (projectileStore w) (balloons w) l (projectiles w)
    (timers w) (trace w) (now w) (draws w).

Definition set_projectiles (l : list nat) (w : World) : World :=
  mkWorld (player w) (powerUpManager w) (balloonStore w) (enemyStore w)
    (projectileStore w) (balloons w) (enemies w) l
    (timers w) (trace w) (now w) (draws w).

Definition set_timers (l : list Timer) (w : World) : World :=
  mkWorld (player w) (powerUpManager w) (balloonStore w) (enemyStore w)
    (projectileStore w) (balloons w) (enemies w) (projectiles w)
    l (trace w) (now w) (draws w).

Definition set_draws (n : nat) (w : World) : World :=
  mkWorld (player w) (powerUpManager w) (balloonStore w) (enemyStore w)
    (projectileStore w) (balloons w) (enemies w) (projectiles w)
    (timers w) (trace w) (now w) n.

(** Append to the trace. *)
Definition emit (evs : list Event) (w : World) : World :=
  mkWorld (player w) (powerUpManager w) (balloonStore w) (enemyStore w)
    (projectileStore w) (balloons w) (enemies w) (projectiles w)
    (timers w) (trace w ++ evs) (now w) (draws w).

(** [if (window.player) window.player.m(...)] for a method [m] that
    returns nothing of interest to the caller. *)
Definition with_player (f : PlayerState → PlayerState) (w : World) : World :=
  match player w with
  | Some p => set_player (Some (f p)) w
  | None => w
  end.

(** [window.player.addScore(points, position)] on the world. *)
Definition World_addScore (points : Z) (position : option Vector3)
    (w : World) : World :=
  match player w with
  | Some p =>
      let '(p', _, evs) := Player.addScore points position p in
      emit evs (set_player (Some p') w)
  | None => w
  end.

(** [array.indexOf(object)]; [None] stands for [-1]. *)
Fixpoint indexOf (object : nat) (array : list nat) : option nat :=
  match array with
  | [] => None
  | x :: rest =>
      if Nat.eqb x object then Some O else S <$> indexOf object rest
  end.

(** [removeObject(array, object)]:
    [const index = array.indexOf(object);
     if (index !== -1) array.splice(index, 1);] *)
Definition removeObject (object : nat) (array : list nat) : list nat :=
  match indexOf object array with
  | Some index => delete index array
  | None => array
  end.

(** [Array.prototype.forEach] on an array that its callback may shorten:
    the length is read once, the index then runs up to it, and an index
    that is no longer in the array is skipped. *)
Fixpoint forEach_from {S : Type} (array : S → list nat)
    (callback : nat → S → S) (k count : nat) (s : S) : S :=
  match count with
  | O => s
  | Datatypes.S count' =>
      let s' :=
        match array s !! k with
        | Some x => callback x s
        | None => s
        end in
      forEach_from array callback (Datatypes.S k) count' s'
  end.

Definition forEach {S : Type} (array : S → list nat)
    (callback : nat → S → S) (s : S) : S :=
  forEach_from array callback 0 (length (array s)) s.

Definition balloonAlive (w : World) (id : nat) : bool :=
  match balloonStore w !! id with
  | Some b => Balloon3D.isAlive b
  | None => false
  end.

Definition enemyAlive (w : World) (id : nat) : bool :=
  match enemyStore w !! id with
  | Some e => EnemyDrone3D.isAlive e
  | None => false
  end.

Definition projectileAlive (w : World) (id : nat) : bool :=
  match projectileStore w !! id with
  | Some p => Projectile3D.isAlive p
  | None => false
  end.

Definition set_isShielded (v : bool) (p : PlayerState) : PlayerState :=
  {| score := score p; level := level p; wave := wave p; missed := missed p;
     health := health p; maxHealth := maxHealth p;
     shields := shields p; maxShields := maxShields p;
     isShielded := v;
     depthBonus := depthBonus p;
     totalDepthBonusEarned := totalDepthBonusEarned p;
     vortexChainCount := vortexChainCount p;
     perspectiveAccuracy := perspectiveAccuracy p;
     stats := stats p; MAX_MISSED := MAX_MISSED p |}.

(** [window.player.stats.powerUpsCollected++] *)
Definition incr_powerUpsCollected (p : PlayerState) : PlayerState :=
  let st := stats p in
  Player.set_stats
    {| balloonsPopped := balloonsPopped st;
       enemiesDestroyed := enemiesDestroyed st;
       powerUpsCollected := powerUpsCollected st + 1;
       totalShotsAccuracy := totalShotsAccuracy st;
       maxCombo := maxCombo st; currentCombo := currentCombo st;
       depthBonusesEarned := depthBonusesEarned st;
       vortexChainsTriggered := vortexChainsTriggered st |} p.

(** [window.player.stats.balloonsPopped++] *)
Definition incr_balloonsPopped (p : PlayerState) : PlayerState :=
  let st := stats p in
  Player.set_stats
    {| balloonsPopped := balloonsPopped st + 1;
       enemiesDestroyed := enemiesDestroyed st;
       powerUpsCollected := powerUpsCollected st;
       totalShotsAccuracy := totalShotsAccuracy st;
       maxCombo := maxCombo st; currentCombo := currentCombo st;
       depthBonusesEarned := depthBonusesEarned st;
       vortexChainsTriggered := vortexChainsTriggered st |} p.

(** [window.player.stats.enemiesDestroyed++] *)
Definition incr_enemiesDestroyed (p : PlayerState) : PlayerState :=
  let st := stats p in
  Player.set_stats
    {| balloonsPopped := balloonsPopped st;
       enemiesDestroyed := enemiesDestroyed st + 1;
       powerUpsCollected := powerUpsCollected st;
       totalShotsAccuracy := totalShotsAccuracy st;
       maxCombo := maxCombo st; currentCombo := currentCombo st;
       depthBonusesEarned := depthBonusesEarned st;
       vortexChainsTriggered := vortexChainsTriggered st |} p.

(** [activatePowerUpEffect(type)] and [deactivatePowerUpEffect(type)]:
    the shield flag of the player is the only simulation state they touch;
    the calls into the scene manager go to the trace.  [ENERGY_BEAM] has no
    case in either switch. *)
Definition powerUpEffect (on : bool) (t : PowerUpType) (w : World) : World :=
  match t with
  | ENERGY_BEAM => w
  | SHIELD =>
      match player w with
      | Some p =>
          emit [EvPowerUpEffect SHIELD on]
            (set_player (Some (set_isShielded on p)) w)
      | None => w
      end
  | _ => emit [EvPowerUpEffect t on] w
  end.

(** [PowerUpManager.deactivate()] *)
Definition PowerUpManager_deactivate (w : World) : World :=
  match powerUpManager w with
  | Some m =>
      match activePowerUp m with
      | None => w
      | Some t =>
          let w1 := powerUpEffect false t w in
          set_powerUpManager (Some (mkPowerUpManager None (endTime m))) w1
      end
  | None => w
  end.

(** [PowerUpManager.activate(type)] *)
Definition PowerUpManager_activate (t : PowerUpType) (w : World) : World :=
  match powerUpManager w with
  | Some m =>
      let w1 :=
        match activePowerUp m with
        | Some _ => PowerUpManager_deactivate w
        | None => w
        end in
      let w2 :=
        set_powerUpManager
          (Some (mkPowerUpManager (Some t) (now w1 + duration t))) w1 in
      let w3 := powerUpEffect true t w2 in
      let w4 := emit [EvPlay CuePowerupActivate] w3 in
      with_player incr_powerUpsCollected w4
  | None => w
  end.

(** [PowerUpManager.isActive(type)] with a type given. *)
Definition PowerUpManager_isActive (t : PowerUpType) (m : PowerUpManager)
    : bool :=
  match activePowerUp m with
  | Some a => PowerUpType_eqb a t
  | None => false
  end.

(** [GameObject3D.destroy()]: [this.isAlive = false] (the rest disposes of
    the mesh), for each of the three stores. *)
Definition GameObject3D_destroy_balloon (id : nat) (w : World) : World :=
  set_balloonStore (alter (Balloon3D.set_isAlive false) id (balloonStore w)) w.

Definition GameObject3D_destroy_enemy (id : nat) (w : World) : World :=
  set_enemyStore (alter (EnemyDrone3D.set_isAlive false) id (enemyStore w)) w.

(** [Projectile3D] does not override [destroy]. *)
Definition Projectile3D_destroy (id : nat) (w : World) : World :=
  set_projectileStore
    (alter (Projectile3D.set_isAlive false) id (projectileStore w)) w.

(** [sceneManager.createVortexEffect(position, radius)]: thirty particles
    and the vortex sound. *)
Definition createVortexEffect (w : World) : World :=
  emit [EvParticles 30; EvPlay CueVortexChain] w.

Section Simulation.

(** The outcomes of [Math.random]: the [n]-th power-up type returned by
    [getRandomPowerUpType()] and the [n]-th delay
    [MathUtils.random(100, 300)] of a chain reaction. *)
Variable randomPowerUpType : nat → PowerUpType.
Variable randomDelay : nat → Q.

(** [PowerUpManager.getRandomPowerUpType()] *)
Definition getRandomPowerUpType (w : World) : PowerUpType * World :=
  (randomPowerUpType (draws w), set_draws (S (draws w)) w).

(** [setTimeout(() => { if (balloon.isAlive) balloon.hit(); },
                MathUtils.random(100, 300))] *)
Definition scheduleChainHit (target : nat) (w : World) : World :=
  set_draws (S (draws w))
    (set_timers (timers w ++ [mkTimer (randomDelay (draws w)) target]) w).

(** The filter of [checkVortexChain]:
    [balloon !== this && balloon.isAlive &&
     this.getDistance(balloon) < chainRadius]. *)
Definition nearbyBalloons (id : nat) (b : Balloon3D.t) (w : World)
    : list nat :=
  List.filter
    (fun id' =>
       negb (Nat.eqb id' id) &&
       match balloonStore w !! id' with
       | Some b' =>
           Balloon3D.isAlive b' &&
           distance_lt (Balloon3D.position b) (Balloon3D.position b') 8
       | None => false
       end)
    (balloons w).

(** [Balloon3D.checkVortexChain()] *)
Definition checkVortexChain (id : nat) (w : World) : World :=
  match balloonStore w !! id, powerUpManager w with
  | Some b, Some m =>
      if PowerUpManager_isActive VORTEX_AMPLIFIER m then
        let nearby := nearbyBalloons id b w in
        match nearby with
        | [] => w
        | _ :: _ =>
            let w1 :=
              match player w with
              | Some p =>
                  let '(p', _, evs) := Player.addVortexChain p in
                  emit evs (set_player (Some p') w)
              | None => w
              end in
            let w2 := createVortexEffect w1 in
            let w3 := emit [EvPlay CueVortexChain] w2 in
            fold_left (fun acc id' => scheduleChainHit id' acc) nearby w3
        end
      else w
  | _, _ => w
  end.

(** The first block of [Balloon3D.destroy()]:
    [if (window.player) { window.player.addScore(this.points,
     this.position); if (this.type === 'normal')
     window.player.stats.balloonsPopped++; }] *)
Definition awardBalloon (b : Balloon3D.t) (w : World) : World :=
  match player w with
  | Some _ =>
      let w' :=
        World_addScore (Balloon3D.points b) (Some (Balloon3D.position b)) w in
      match Balloon3D.type b with
      | normal => with_player incr_balloonsPopped w'
      | _ => w'
      end
  | None => w
  end.

(** [Balloon3D.createDestructionParticles()] *)
Definition createDestructionParticles (b : Balloon3D.t) (w : World) : World :=
  emit [EvParticles (match Balloon3D.type b with
                     | powerup => 20 | _ => 15 end)] w.

(** The block "Trigger power-up" of [Balloon3D.destroy()]:
    [if (this.type === 'powerup' && window.powerUpManager) {
       const powerUpType = window.powerUpManager.getRandomPowerUpType();
       window.powerUpManager.activate(powerUpType); }] *)
Definition triggerPowerUp (b : Balloon3D.t) (w : World) : World :=
  match Balloon3D.type b, powerUpManager w with
  | powerup, Some _ =>
      let '(t, w') := getRandomPowerUpType w in
      PowerUpManager_activate t w'
  | _, _ => w
  end.

(** [Balloon3D.destroy()] *)
Definition Balloon3D_destroy (id : nat) (w : World) : World :=
  match balloonStore w !! id with
  | Some b =>
      if negb (Balloon3D.isAlive b) then w
      else
        let w1 := awardBalloon b w in
        let w2 := createDestructionParticles b w1 in
        let w3 := triggerPowerUp b w2 in
        let w4 := emit [EvPlay CuePop] w3 in
        let w5 := checkVortexChain id w4 in
        GameObject3D_destroy_balloon id w5
  | None => w
  end.

(** [Balloon3D.hit()]; the boolean is the method's result.  The code
    after the early return only touches the mesh. *)
Definition Balloon3D_hit (id : nat) (w : World) : World * bool :=
  match balloonStore w !! id with
  | Some b =>
      let b' := Balloon3D.set_health (Balloon3D.health b - 1) b in
      let w1 := set_balloonStore (<[id := b']> (balloonStore w)) w in
      if Balloon3D.health b' <=? 0 then (Balloon3D_destroy id w1, true)
      else (w1, false)
  | None => (w, false)
  end.

(** [Balloon3D.onMissed()] *)
Definition Balloon3D_onMissed (w : World) : World :=
  let w0 := emit [EvMissed] w in
  match player w0 with
  | Some p =>
      let '(p', gameOver) := Player.addMissed p in
      let w1 := set_player (Some p') w0 in
      if gameOver then emit [EvGameOver] w1 else w1
  | None => w0
  end.

(** [age >= maxAge], with [None] for [Infinity]. *)
Definition expired (a : Q) (m : option Q) : bool :=
  match m with
  | Some m' => Qle_bool m' a
  | None => false
  end.

(** [Balloon3D.update(deltaTime)]: [super.update] advances the age and
    the position and destroys on expiry; then the near-boundary test. *)
Definition Balloon3D_update (deltaTime : Q) (id : nat) (w : World) : World :=
  match balloonStore w !! id with
  | Some b =>
      let age' := (Balloon3D.age b + deltaTime)%Q in
      let pos' :=
        Vector3_addScaled (Balloon3D.position b) (Balloon3D.velocity b)
          deltaTime in
      let b' := Balloon3D.set_kinematics pos' age' b in
      let w1 := set_balloonStore (<[id := b']> (balloonStore w)) w in
      let w2 :=
        if expired age' (Balloon3D.maxAge b') then Balloon3D_destroy id w1
        else w1 in
      if negb (Qle_bool (vz pos') 20) then
        Balloon3D_destroy id (Balloon3D_onMissed w2)
      else w2
  | None => w
  end.

(** The body of a chain-reaction timer. *)
Definition runTimer (t : Timer) (w : World) : World :=
  if balloonAlive w (timerTarget t) then
    fst (Balloon3D_hit (timerTarget t) w)
  else w.

(** [EnemyDrone3D.destroy()] *)
Definition EnemyDrone3D_destroy (id : nat) (w : World) : World :=
  match enemyStore w !! id with
  | Some e =>
      if negb (EnemyDrone3D.isAlive e) then w
      else
        let w1 :=
          match player w with
          | Some _ =>
              with_player incr_enemiesDestroyed
                (World_addScore (EnemyDrone3D.points e)
                   (Some (EnemyDrone3D.position e)) w)
          | None => w
          end in
        let w2 := emit [EvParticles 25; EvPlay CueEnemyExplosion] w1 in
        GameObject3D_destroy_enemy id w2
  | None => w
  end.

(** [EnemyDrone3D.hit()] *)
Definition EnemyDrone3D_hit (id : nat) (w : World) : World * bool :=
  match enemyStore w !! id with
  | Some e =>
      let e' := EnemyDrone3D.set_health (EnemyDrone3D.health e - 1) e in
      let w1 := set_enemyStore (<[id := e']> (enemyStore w)) w in
      if EnemyDrone3D.health e' <=? 0 then (EnemyDrone3D_destroy id w1, true)
      else (emit [EvPlay CueEnemyHit] w1, false)
  | None => (w, false)
  end.

(** ** js/scene-manager.js: handleCollisions *)

Definition isOwnedBy (o : Owner) (w : World) (id : nat) : bool :=
  match projectileStore w !! id, o with
  | Some p, OwnerPlayer =>
      match Projectile3D.owner p with OwnerPlayer => true | _ => false end
  | Some p, OwnerEnemy =>
      match Projectile3D.owner p with OwnerEnemy => true | _ => false end
  | None, _ => false
  end.

(** The callback of [this.enemies.forEach] for one projectile. *)
Definition collideEnemy (pid eid : nat) (w : World) : World :=
  match projectileStore w !! pid, enemyStore w !! eid with
  | Some p, Some e =>
      if negb (EnemyDrone3D.isAlive e) then w
      else
        let hitRadius :=
          (Qmax (EnemyDrone3D.width e) (EnemyDrone3D.height e) / 2 + 1)%Q in
        if distance_le (Projectile3D.position p) (EnemyDrone3D.position e)
             hitRadius
        then
          let '(w1, killed) := EnemyDrone3D_hit eid w in
          let w2 :=
            if killed then set_enemies (removeObject eid (enemies w1)) w1
            else w1 in
          let w3 := set_projectiles (removeObject pid (projectiles w2)) w2 in
          Projectile3D_destroy pid w3
        else w
  | _, _ => w
  end.

(** The callback of [this.balloons.forEach] for one projectile. *)
Definition collideBalloon (pid bid : nat) (w : World) : World :=
  match projectileStore w !! pid, balloonStore w !! bid with
  | Some p, Some b =>
      if negb (Balloon3D.isAlive b) then w
      else
        let hitRadius := (Balloon3D.radius b + (1 # 2))%Q in
        if distance_le (Projectile3D.position p) (Balloon3D.position b)
             hitRadius
        then
          let '(w1, popped) := Balloon3D_hit bid w in
          let w2 :=
            if popped then set_balloons (removeObject bid (balloons w1)) w1
            else w1 in
          let w3 := set_projectiles (removeObject pid (projectiles w2)) w2 in
          Projectile3D_destroy pid w3
        else w
  | _, _ => w
  end.

(** The callback of the first [forEach] of [handleCollisions]: one
    player projectile against the enemies, then against the balloons. *)
Definition collidePlayerProjectile (w : World) (pid : nat) : World :=
  if negb (projectileAlive w pid) then w
  else
    let w1 := forEach enemies (collideEnemy pid) w in
    if projectileAlive w1 pid then forEach balloons (collideBalloon pid) w1
    else w1.

(** The callback of the second [forEach]: an enemy projectile that has
    reached the player area. *)
Definition collideEnemyProjectile (w : World) (pid : nat) : World :=
  match projectileStore w !! pid with
  | Some p =>
      if negb (Qle_bool (vz (Projectile3D.position p)) 15) then
        let w1 :=
          match player w with
          | Some pl =>
              let '(pl', gameOver) :=
                Player.takeDamage (Projectile3D.damage p) pl in
              let w' := set_player (Some pl') w in
              if gameOver then emit [EvGameOver] w' else w'
          | None => w
          end in
        let w2 := set_projectiles (removeObject pid (projectiles w1)) w1 in
        emit [EvCameraShake] (Projectile3D_destroy pid w2)
      else w
  | None => w
  end.

(** [SceneManager.handleCollisions()].  [filter] copies the matching
    references into a new array, which the removals do not reach. *)
Definition handleCollisions (w : World) : World :=
  let playerShots := List.filter (isOwnedBy OwnerPlayer w) (projectiles w) in
  let w1 := fold_left collidePlayerProjectile playerShots w in
  let enemyShots := List.filter (isOwnedBy OwnerEnemy w1) (projectiles w1) in
  fold_left collideEnemyProjectile enemyShots w1.

End Simulation.

(** ** js/utils.js: ObjectPool *)

Module ObjectPool.
Section Pool.

(** The pooled objects are of type [T].  [createFn n] is the object the
    [n]-th call of [this.createFn()] builds (a new reference each time);
    [resetFn] is applied in place. *)
Variable T : Type.
Variable createFn : nat → T.
Variable resetFn : T → T.

Record t : Type := mk {
  pool : list nat;          (* this.pool, the free list *)
  active : list nat;        (* this.active *)
  objects : gmap nat T;     (* the objects behind the references *)
  created : nat             (* number of objects created so far *)
}.

(** [this.pool.push(this.createFn())] *)
Definition populate1 (p : t) : t :=
  mk (pool p ++ [created p]) (active p)
     (<[created p := createFn (created p)]> (objects p))
     (S (created p)).

(** [constructor(createFn, resetFn, initialSize = 50)] *)
Definition new (initialSize : nat) : t :=
  Nat.iter initialSize populate1 (mk [] [] ∅ O).

(** [acquire()]: [pop] takes the last element of the free list. *)
Definition acquire (p : t) : nat * t :=
  match last (pool p) with
  | Some obj =>
      (obj, mk (removelast (pool p)) (active p ++ [obj]) (objects p)
               (created p))
  | None =>
      let obj := created p in
      (obj, mk (pool p) (active p ++ [obj])
               (<[obj := createFn obj]> (objects p)) (S (created p)))
  end.

(** [release(obj)] *)
Definition release (obj : nat) (p : t) : t :=
  match indexOf obj (active p) with
  | Some index =>
      mk (pool p ++ [obj]) (delete index (active p))
         (alter resetFn obj (objects p)) (created p)
  | None => p
  end.

(** [releaseAll()]: [while (this.active.length > 0)
    this.release(this.active[0]);] with the loop unrolled [n] times. *)
Fixpoint releaseAll_loop (n : nat) (p : t) : t :=
  match n with
  | O => p
  | S n' =>
      match active p with
      | [] => p
      | first :: _ => releaseAll_loop n' (release first p)
      end
  end.

Definition releaseAll (p : t) : t :=
  releaseAll_loop (length (active p)) p.

Definition getActiveCount (p : t) : nat := length (active p).
Definition getPoolCount (p : t) : nat := length (pool p).

(** The calls a client can make on a pool. *)
Inductive Call : Type :=
  | CallAcquire
  | CallRelease (obj : nat)
  | CallReleaseAll.

Definition call (p : t) (c : Call) : t :=
  match c with
  | CallAcquire => snd (acquire p)
  | CallRelease obj => release obj p
  | CallReleaseAll => releaseAll p
  end.

(** The pool after a history of calls on a newly constructed pool. *)
Definition after (initialSize : nat) (history : list Call) : t :=
  fold_left call history (new initialSize).

End Pool.
End ObjectPool.

(** ** js/game-state.js: GameFlow *)

Module GameFlow.

Record t : Type := mk {
  gameRunning : bool;
  isPaused : bool;
  frameCount : Z;
  waveStartTime : Z;
  waveEnemiesSpawned : Z;
  waveEnemiesRequired : Z;
  waveDuration : Z;          (* waveConfig.waveDuration, milliseconds *)
  bossWaveInterval : Z       (* waveConfig.bossWaveInterval *)
}.

(** [constructor()] *)
Definition new : t := mk false false 0 0 0 10 30000 5.

(** [start()], with the reading of [Date.now()]. *)
Definition start (dateNow : Z) (g : t) : t :=
  mk true false 0 dateNow 0 (waveEnemiesRequired g)
     (waveDuration g) (bossWaveInterval g).

(** [shouldAdvanceWave()] *)
Definition shouldAdvanceWave (g : t) (pl : option PlayerState) : bool :=
  match pl with
  | Some p => waveEnemiesRequired g <=? enemiesDestroyed (stats p)
  | None => false
  end.

(** [advanceWave()] *)
Definition advanceWave (dateNow : Z) (g : t) (pl : option PlayerState)
    : t * option PlayerState :=
  (mk (gameRunning g) (isPaused g) (frameCount g) dateNow 0
      (waveEnemiesRequired g + 2) (waveDuration g) (bossWaveInterval g),
   match pl with
   | Some p => Some (Player.setWave (wave p + 1) p)
   | None => None
   end).

(** [checkWaveProgression()] *)
Definition checkWaveProgression (dateNow : Z) (g : t)
    (pl : option PlayerState) : t * option PlayerState :=
  let waveTime := dateNow - waveStartTime g in
  if (waveDuration g <? waveTime) || shouldAdvanceWave g pl
  then advanceWave dateNow g pl
  else (g, pl).

(** [checkLevelProgression()]: the boss wave is a call into the scene
    and the audio manager. *)
Definition checkLevelProgression (g : t) (pl : option PlayerState)
    : list Event :=
  match pl with
  | Some p =>
      if (0 <? wave p) && (Z.rem (wave p) (bossWaveInterval g) =? 0)
      then [EvBossWave] else []
  | None => []
  end.

(** [update()]: one reading of the clock serves the whole call. *)
Definition update (dateNow : Z) (g : t) (pl : option PlayerState)
    : t * option PlayerState * list Event :=
  if negb (gameRunning g) || isPaused g then (g, pl, [])
  else
    let g1 :=
      mk (gameRunning g) (isPaused g) (frameCount g + 1) (waveStartTime g)
         (waveEnemiesSpawned g) (waveEnemiesRequired g)
         (waveDuration g) (bossWaveInterval g) in
    let '(g2, pl2) := checkWaveProgression dateNow g1 pl in
    (g2, pl2, checkLevelProgression g2 pl2).

(** [stop()] *)
Definition stop (g : t) : t :=
  mk false false (frameCount g) (waveStartTime g) (waveEnemiesSpawned g)
     (waveEnemiesRequired g) (waveDuration g) (bossWaveInterval g).

(** [getWaveProgress()], with the reading of [Date.now()], for a wave
    duration other than 0: [Math.min(1, waveTime / waveDuration)], the
    quotient rounded to binary64. *)
Definition getWaveProgress (dateNow : Z) (g : t) : Q :=
  let waveTime := dateNow - waveStartTime g in
  Qmin 1 (Double.div (inject_Z waveTime) (inject_Z (waveDuration g))).

(** [getWaveProgress() >= 1], the test of [checkGameConditions].  With a
    wave duration of 0 the quotient is [Infinity], [NaN] or [-Infinity],
    and the test holds for a positive wave time only. *)
Definition waveProgressFull (dateNow : Z) (g : t) : bool :=
  if waveDuration g =? 0 then 0 <? dateNow - waveStartTime g
  else Qle_bool 1 (getWaveProgress dateNow g).

(** [isBossWave()]: [window.player && window.player.wave %
    bossWaveInterval === 0].  The remainder by 0 is [NaN], which is not
    0. *)
Definition isBossWave (g : t) (pl : option PlayerState) : bool :=
  match pl with
  | Some p =>
      negb (bossWaveInterval g =? 0)
      && (Z.rem (wave p) (bossWaveInterval g) =? 0)
  | None => false
  end.

End GameFlow.

(** ** The game controller: the frame clock of [gameLoop] *)

(** What [gameLoop] and [GameFlow.update] share: the flow, the player, the
    time of the last frame, and the simulated time, which is the sum of
    the [deltaTime] values handed to the simulation so far (kept reduced). *)
Record Loop : Type := mkLoop {
  flow : GameFlow.t;
  loopPlayer : option PlayerState;
  lastFrameTime : Z;            (* milliseconds *)
  simulatedTime : Q             (* seconds *)
}.

(** [deltaTime] of a frame at [currentTime]:
    [(currentTime - this.lastFrameTime) / 1000], then
    [Math.min(this.deltaTime, 1/30)]. *)
Definition frameDeltaTime (currentTime lastFrame : Z) : Q :=
  Qmin (inject_Z (currentTime - lastFrame) / 1000) (1 # 30).

(** The frame clock of [gameLoop] and the wave clock of
    [GameFlow.update]: of one frame of a running, unpaused game, the
    computation of [deltaTime] and the first call of [updateGame],
    [gameFlow.update()], on the player alone.  The whole frame, with the
    boss that [gameFlow.update()] spawns, the scene and
    [checkGameConditions], is [GameController.gameLoop] below.  One clock,
    in milliseconds, stands for [performance.now()] and [Date.now()]. *)
Definition gameLoop (s : Loop) (currentTime : Z) : Loop :=
  let deltaTime := frameDeltaTime currentTime (lastFrameTime s) in
  let '(g, pl, _) := GameFlow.update currentTime (flow s) (loopPlayer s) in
  mkLoop g pl currentTime (Qred (simulatedTime s + deltaTime)).

(** [startGame()]: [resetGame()] resets the player, then
    [this.gameFlow.start()], [this.lastFrameTime = performance.now()] and
    the first call of [gameLoop()], at the same reading of the clock. *)
Definition startGame (currentTime : Z) (g : GameFlow.t) (p : PlayerState)
    : Loop :=
  gameLoop
    (mkLoop (GameFlow.start currentTime g) (Some (Player.reset p))
       currentTime 0)
    currentTime.

(** The first game after [init]. *)
Definition firstGame : Loop := startGame 0 GameFlow.new Player.new.


(** ** Definitions used by the statements, and sample inputs *)

(** The depth multiplier a score event takes: [getDepthBonus(position.z)]
    when a position is passed, 1 otherwise. *)
Definition depthMultiplierAt (position : option Vector3) : Q :=
  match position with
  | Some pos => MathUtils.getDepthBonus (vz pos) MathUtils.defaultMaxDepth
  | None => 1
  end.

(** The combo multiplier at combo length [c]: [1 + c * 0.1], as the
    program computes it. *)
Definition comboMultiplierAt (c : Z) : Q :=
  Double.add 1 (Double.mul (inject_Z c) (Double.round (1 # 10))).

(** Everything the program does to the player state: its methods, and
    the writes other classes make to [isShielded] and to the counters of
    [stats]. *)
Inductive PlayerCall : Type :=
  | PReset
  | PAddScore (points : Z) (position : option Vector3)
  | PBreakCombo
  | PSetWave (w : Z)
  | PSetLevel (l : Z)
  | PAddMissed
  | PTakeDamage (amount : Z)
  | PHeal (amount : Z)
  | PAddVortexChain
  | PUpdatePerspectiveAccuracy (accuracy : Q)
  | PSetShielded (v : bool)
  | PIncrBalloonsPopped
  | PIncrEnemiesDestroyed
  | PIncrPowerUpsCollected.

Definition playerCall (p : PlayerState) (c : PlayerCall) : PlayerState :=
  match c with
  | PReset => Player.reset p
  | PAddScore points position => (Player.addScore points position p).1.1
  | PBreakCombo => Player.breakCombo p
  | PSetWave w => Player.setWave w p
  | PSetLevel l => Player.setLevel l p
  | PAddMissed => (Player.addMissed p).1
  | PTakeDamage amount => (Player.takeDamage amount p).1
  | PHeal amount => Player.heal amount p
  | PAddVortexChain => (Player.addVortexChain p).1.1
  | PUpdatePerspectiveAccuracy accuracy =>
      Player.updatePerspectiveAccuracy accuracy p
  | PSetShielded v => set_isShielded v p
  | PIncrBalloonsPopped => incr_balloonsPopped p
  | PIncrEnemiesDestroyed => incr_enemiesDestroyed p
  | PIncrPowerUpsCollected => incr_powerUpsCollected p
  end.

(** A newly constructed player state with [stats.maxCombo] set to [m]. *)
Definition newWithMaxCombo (m : Z) : PlayerState :=
  let st := stats Player.new in
  Player.set_stats
    {| balloonsPopped := balloonsPopped st;
       enemiesDestroyed := enemiesDestroyed st;
       powerUpsCollected := powerUpsCollected st;
       totalShotsAccuracy := totalShotsAccuracy st;
       maxCombo := m; currentCombo := currentCombo st;
       depthBonusesEarned := depthBonusesEarned st;
       vortexChainsTriggered := vortexChainsTriggered st |} Player.new.

(** The three constants of the constructor. *)
Definition constantsIntact (p : PlayerState) : Prop :=
  maxHealth p = 100 ∧ maxShields p = 100 ∧ MAX_MISSED p = 20.

(** A new player state in the middle of a combo of length [c]. *)
Definition playerWithCombo (c : Z) : PlayerState :=
  Player.set_stats (Player.set_currentCombo c (stats Player.new)) Player.new.

(** The calls the rest of the program makes on one balloon. *)
Inductive BalloonCall : Type := CallHit | CallDestroy.

Definition balloonCall (randomPowerUpType : nat → PowerUpType)
    (randomDelay : nat → Q) (id : nat) (w : World) (c : BalloonCall)
    : World :=
  match c with
  | CallHit => (Balloon3D_hit randomPowerUpType randomDelay id w).1
  | CallDestroy => Balloon3D_destroy randomPowerUpType randomDelay id w
  end.

(** Events other than a missed target and the pop of a balloon. *)
Definition quiet (e : Event) : bool :=
  match e with
  | EvMissed | EvPlay CuePop => false
  | _ => true
  end.

(** [w] with the hit points of balloon [id] set to [h]. *)
Definition withHealth (id : nat) (h : Z) (w : World) : World :=
  set_balloonStore (alter (Balloon3D.set_health h) id (balloonStore w)) w.

(** A world as [init] leaves it: a new player, an idle power-up manager,
    an empty scene. *)
Definition initialWorld : World :=
  mkWorld (Some Player.new) (Some (mkPowerUpManager None 0))
    ∅ ∅ ∅ [] [] [] [] [] 0 0.

(** A balloon on the depth axis at depth [z], moving towards the camera at
    10 units a second, of radius 3. *)
Definition balloonAt (z : Q) (alive : bool) (h points : Z) (ty : BalloonType)
    : Balloon3D.t :=
  Balloon3D.mk (mkVector3 0 0 z) (mkVector3 0 0 10) alive 0 None 3 points h ty.

(** [w] with balloon [b] stored under reference [id] and pushed on
    [sceneManager.balloons]. *)
Definition addBalloon (id : nat) (b : Balloon3D.t) (w : World) : World :=
  set_balloons (balloons w ++ [id])
    (set_balloonStore (<[id := b]> (balloonStore w)) w).

(** Sample outcomes of [Math.random]. *)
Definition alwaysShield : nat → PowerUpType := fun _ => SHIELD.
Definition delay100 : nat → Q := fun _ => 100%Q.

(** A live balloon one unit short of the near boundary, and the same
    scene with a shielded player in a combo of three. *)
Definition nearBoundaryWorld : World :=
  addBalloon 7 (balloonAt 19 true 1 50 normal) initialWorld.



(** An enemy drone as its constructor builds it (3 wide, 2 high, 4 deep,
    2 hit points, 75 points), at rest at [pos]. *)
Definition droneAt (pos : Vector3) : EnemyDrone3D.t :=
  EnemyDrone3D.mk pos Vector3_zero true 0 None 3 2 4 2 75.

(** A player projectile as [createPlayerProjectile] hands it out, at
    [pos]. *)
Definition playerShotAt (pos : Vector3) : Projectile3D.t :=
  Projectile3D.mk pos Vector3_zero true 0 (Some 3%Q) OwnerPlayer 1.

(** One player projectile at the origin with two drones one unit away
    from it, both inside the hit radius of 3/2 + 1. *)
Definition twoDronesWorld : World :=
  mkWorld (Some Player.new) (Some (mkPowerUpManager None 0))
    ∅
    (<[10%nat := droneAt (mkVector3 1 0 0)]>
       (<[11%nat := droneAt (mkVector3 0 1 0)]> ∅))
    (<[1%nat := playerShotAt Vector3_zero]> ∅)
    [] [10%nat; 11%nat] [1%nat] [] [] 0 0.

(** One player projectile at the origin with one drone and one balloon
    (one hit point), both inside their hit radius. *)
Definition droneAndBalloonWorld : World :=
  mkWorld (Some Player.new) (Some (mkPowerUpManager None 0))
    (<[20%nat := Balloon3D.mk (mkVector3 1 0 0) Vector3_zero true 0 None
                   3 50 1 normal]> ∅)
    (<[10%nat := droneAt (mkVector3 0 1 0)]> ∅)
    (<[1%nat := playerShotAt Vector3_zero]> ∅)
    [20%nat] [10%nat] [1%nat] [] [] 0 0.

(** One player projectile at the origin with two armored balloons (three
    hit points each) one unit away from it, inside the hit radius of
    3 + 1/2. *)
Definition twoArmoredWorld : World :=
  mkWorld (Some Player.new) (Some (mkPowerUpManager None 0))
    (<[20%nat := Balloon3D.mk (mkVector3 1 0 0) Vector3_zero true 0 None
                   3 150 3 armored]>
       (<[21%nat := Balloon3D.mk (mkVector3 0 1 0) Vector3_zero true 0 None
                      3 150 3 armored]> ∅))
    ∅
    (<[1%nat := playerShotAt Vector3_zero]> ∅)
    [20%nat; 21%nat] [] [1%nat] [] [] 0 0.

(** [w'] differs from [w] at most in the player, the power-up manager, the
    timers, the draws, and a trace that grew by quiet events. *)
Definition sameScene (w w' : World) : Prop :=
  balloonStore w' = balloonStore w ∧ balloons w' = balloons w ∧
  enemyStore w' = enemyStore w ∧ enemies w' = enemies w ∧
  projectileStore w' = projectileStore w ∧ projectiles w' = projectiles w ∧
  now w' = now w ∧
  (is_Some (player w') ↔ is_Some (player w)) ∧
  (is_Some (powerUpManager w') ↔ is_Some (powerUpManager w)) ∧
  ∃ evs, trace w' = trace w ++ evs ∧ forallb quiet evs = true.

(** [w'] shows the same score, missed count, combo and number of vortex
    chains as [w]. *)
Definition sameTally (w w' : World) : Prop :=
  ∀ p : PlayerState,
    player w = Some p →
    ∃ p' : PlayerState,
      player w' = Some p' ∧ score p' = score p ∧ missed p' = missed p ∧
      currentCombo (stats p') = currentCombo (stats p) ∧
      vortexChainCount p' = vortexChainCount p.

(** The references a pool holds are pairwise distinct and were all handed
    out by [createFn]. *)
Definition pool_wf {T : Type} (p : ObjectPool.t T) : Prop :=
  NoDup (ObjectPool.pool T p ++ ObjectPool.active T p) ∧
  Forall (fun x => (x < ObjectPool.created T p)%nat)
    (ObjectPool.pool T p ++ ObjectPool.active T p).

(** The world in which [Balloon3D.destroy()] plays the pop: after the
    award, the particles and the power-up. *)
Definition beforePop (randomPowerUpType : nat → PowerUpType)
    (b : Balloon3D.t) (w : World) : World :=
  triggerPowerUp randomPowerUpType b
    (createDestructionParticles b (awardBalloon b w)).

(** ** The game controller: spawn rates *)

(** [calculateBalloonSpawnRate()], in milliseconds between two balloons:
    [baseRate * Math.max(0.5, 1 - (level - 1) * 0.1)
              * Math.max(0.3, 1 - (wave - 1) * 0.05)]. *)
Definition calculateBalloonSpawnRate (baseRate : Q) (level wave : Z) : Q :=
  let levelMultiplier :=
    Qmax (1 # 2) (1 - inject_Z (level - 1) * (1 # 10)) in
  let waveMultiplier :=
    Qmax (3 # 10) (1 - inject_Z (wave - 1) * (1 # 20)) in
  (baseRate * levelMultiplier * waveMultiplier)%Q.

(** [calculateEnemySpawnRate()]:
    [baseRate * Math.max(0.4, 1 - (level - 1) * 0.15)
              * Math.max(0.5, 1 - (wave - 1) * 0.1)]. *)
Definition calculateEnemySpawnRate (baseRate : Q) (level wave : Z) : Q :=
  let levelMultiplier :=
    Qmax (2 # 5) (1 - inject_Z (level - 1) * (3 # 20)) in
  let waveMultiplier :=
    Qmax (1 # 2) (1 - inject_Z (wave - 1) * (1 # 10)) in
  (baseRate * levelMultiplier * waveMultiplier)%Q.

(** Frame times that do not run backwards, from the time [from] on. *)
Fixpoint ascending (from : Z) (times : list Z) : Prop :=
  match times with
  | [] => True
  | t :: rest => from ≤ t ∧ ascending t rest
  end.

(** The pool holds exactly the objects it has created, and each of its
    references denotes an object. *)
Definition pool_accounted {T : Type} (initialSize : nat)
    (p : ObjectPool.t T) : Prop :=
  (length (ObjectPool.pool T p) + length (ObjectPool.active T p)
   = ObjectPool.created T p)%nat ∧
  (initialSize ≤ ObjectPool.created T p)%nat ∧
  ∀ x : nat,
    (x < ObjectPool.created T p)%nat → is_Some (ObjectPool.objects T p !! x).

(** Calls of [takeDamage] and [heal] with an amount that is not
    negative (the program passes the damage of a projectile, 1 or 10). *)
Definition nonnegAmount (c : PlayerCall) : Prop :=
  match c with
  | PTakeDamage amount | PHeal amount => 0 ≤ amount
  | _ => True
  end.

(** [n] calls of [addMissed()] in a row, and [n] calls of
    [takeDamage(amount)] in a row. *)
Definition missedTimes (n : nat) (p : PlayerState) : PlayerState :=
  Nat.iter n (fun q => (Player.addMissed q).1) p.

Definition damagedTimes (amount : Z) (n : nat) (p : PlayerState)
    : PlayerState :=
  Nat.iter n (fun q => (Player.takeDamage amount q).1) p.

(** ** js/game-state.js: PowerUpManager, continued *)

(** The clock moves on: [Date.now()] returns [t] from now on. *)
Definition set_now (t : Z) (w : World) : World :=
  mkWorld (player w) (powerUpManager w) (balloonStore w) (enemyStore w)
    (projectileStore w) (balloons w) (enemies w) (projectiles w)
    (timers w) (trace w) t (draws w).

(** [PowerUpManager.update()]: the early return without a power-up, the
    expiry test [timeLeft <= 0]; the rest draws the progress bar. *)
Definition PowerUpManager_update (w : World) : World :=
  match powerUpManager w with
  | Some m =>
      match activePowerUp m with
      | None => w
      | Some _ =>
          let timeLeft := endTime m - now w in
          if timeLeft <=? 0 then PowerUpManager_deactivate w else w
      end
  | None => w
  end.

(** [PowerUpManager.getRemainingTime()], with the reading of
    [Date.now()]. *)
Definition getRemainingTime (dateNow : Z) (m : PowerUpManager) : Z :=
  match activePowerUp m with
  | None => 0
  | Some _ => Z.max 0 (endTime m - dateNow)
  end.

(** The shield flag of the player says whether the shield power-up is the
    active one. *)
Definition shieldConsistent (w : World) : Prop :=
  ∀ (p : PlayerState) (m : PowerUpManager),
    player w = Some p → powerUpManager w = Some m →
    (isShielded p = true ↔ activePowerUp m = Some SHIELD).

(** What the shield invariant looks at: the flag of the player, if there
    is a player, and the active type, if there is a manager. *)
Definition shieldOf (w : World) : option bool := isShielded <$> player w.

Definition activeOf (w : World) : option (option PowerUpType) :=
  activePowerUp <$> powerUpManager w.

(** ** js/game-objects.js: Projectile3D.update *)





(** A destroyed balloon one unit beyond the near boundary, still in the
    scene's array. *)
Definition pastBoundaryWorld : World :=
  addBalloon 7 (balloonAt 21 false 1 50 normal) initialWorld.


(** ** js/scene-manager.js: spawnBoss *)

(** [SceneManager.spawnBoss()].  [id] is the reference of the new object;
    [speed], [x1], [y1] are the outcomes of [MathUtils.random] in the
    constructor of [EnemyDrone3D] (its speed, then [setupMovement]) and
    [x2], [y2] those of the second [setupMovement].  In between come the
    writes to the size, the health, the points and the speed, and
    [boss.destroy()]; the two [createMesh] calls build the mesh. *)
Definition spawnBoss (id : nat) (speed x1 y1 x2 y2 : Q) (w : World)
    : World :=
  let boss :=
    EnemyDrone3D.mk (mkVector3 x1 y1 (-80)) (mkVector3 0 0 speed) true 0 None
      (3 * 2) (2 * 2) (4 * 2) 10 500 in
  let w1 := set_enemyStore (<[id := boss]> (enemyStore w)) w in
  let w2 := EnemyDrone3D_destroy id w1 in
  let setupMovement (e : EnemyDrone3D.t) :=
    EnemyDrone3D.mk (mkVector3 x2 y2 (-80))
      (mkVector3 0 0 (speed * (7 # 10)))
      (EnemyDrone3D.isAlive e) (EnemyDrone3D.age e) (EnemyDrone3D.maxAge e)
      (EnemyDrone3D.width e) (EnemyDrone3D.height e) (EnemyDrone3D.depth e)
      (EnemyDrone3D.health e) (EnemyDrone3D.points e) in
  let w3 := set_enemyStore (alter setupMovement id (enemyStore w2)) w2 in
  set_enemies (enemies w3 ++ [id]) w3.




(** ** js/scene-manager.js: handleTap *)






Section Tap.

Variable randomPowerUpType : nat → PowerUpType.
Variable randomDelay : nat → Q.


End Tap.





(** ** The game controller: resetGame *)

(** [GameController.resetGame()]: the player, the power-up manager and
    the arrays of the scene.  The particles, the mini ships and the two
    spawn times, which it also clears, are not part of the world; nothing
    in it reaches the pending timers or the objects themselves. *)
Definition resetGame (w : World) : World :=
  let w1 := with_player Player.reset w in
  let w2 := PowerUpManager_deactivate w1 in
  set_projectiles [] (set_enemies [] (set_balloons [] w2)).

(** The number of vortex chains in a history of calls since its last
    [reset]. *)
Definition countChain (n : Z) (c : PlayerCall) : Z :=
  match c with
  | PReset => 0
  | PAddVortexChain => n + 1
  | _ => n
  end.

Definition chainsSinceReset (history : list PlayerCall) : Z :=
  fold_left countChain history 0.

(** A scene with one live balloon and a chain timer aimed at it. *)
Definition pendingTimerWorld : World :=
  set_timers [mkTimer 100 7] nearBoundaryWorld.

(** ** js/game-state.js: GameFlow with the scene *)

(** What a call of [spawnBoss] takes from outside: the reference of the
    new object and the outcomes of [MathUtils.random]. *)
Record BossDraws : Type := mkBossDraws {
  bossId : nat;
  bossSpeed : Q;
  bossX1 : Q;
  bossY1 : Q;
  bossX2 : Q;
  bossY2 : Q
}.

(** [GameFlow.triggerBossWave()]: [window.sceneManager.spawnBoss()], then
    [window.audioManager.play('bossAppear')]. *)
Definition GameFlow_triggerBossWave (b : BossDraws) (w : World) : World :=
  emit [EvPlay CueBossAppear]
    (spawnBoss (bossId b) (bossSpeed b) (bossX1 b) (bossY1 b)
       (bossX2 b) (bossY2 b) w).

(** [GameFlow.checkLevelProgression()] *)
Definition GameFlow_checkLevelProgression (b : BossDraws) (g : GameFlow.t)
    (w : World) : World :=
  match player w with
  | Some p =>
      if (0 <? wave p) && (Z.rem (wave p) (GameFlow.bossWaveInterval g) =? 0)
      then GameFlow_triggerBossWave b w
      else w
  | None => w
  end.

(** [GameFlow.update()] on the world: the frame count, the wave
    progression on [window.player], the level progression with the boss
    it spawns. *)
Definition GameFlow_update (b : BossDraws) (dateNow : Z) (g : GameFlow.t)
    (w : World) : GameFlow.t * World :=
  if negb (GameFlow.gameRunning g) || GameFlow.isPaused g then (g, w)
  else
    let g1 :=
      GameFlow.mk (GameFlow.gameRunning g) (GameFlow.isPaused g)
        (GameFlow.frameCount g + 1) (GameFlow.waveStartTime g)
        (GameFlow.waveEnemiesSpawned g) (GameFlow.waveEnemiesRequired g)
        (GameFlow.waveDuration g) (GameFlow.bossWaveInterval g) in
    let '(g2, pl2) :=
      GameFlow.checkWaveProgression dateNow g1 (player w) in
    (g2, GameFlow_checkLevelProgression b g2 (set_player pl2 w)).

(** [gameFlow.update()] called once for each element of a list, which
    gives the draws of the boss the call may spawn and the reading of the
    clock. *)
Definition flowRun (calls : list (BossDraws * Z)) (g : GameFlow.t)
    (w : World) : GameFlow.t * World :=
  fold_left (fun s call => GameFlow_update call.1 call.2 s.1 s.2) calls (g, w).

(** ** The game controller: gameLoop, updateGame, checkGameConditions *)

Module GameController.

(** What a frame takes from outside the program text embedded here: the
    reading of the clock (one reading, in milliseconds, stands for
    [performance.now()] and for every [Date.now()] of the frame), the
    draws of a boss, should one be spawned, and [sceneWork], the effect on
    the world of the four calls of [updateGame] between
    [gameFlow.update()] and [checkGameConditions()]:
    [powerUpManager.update()], [inputHandler.update(deltaTime)],
    [sceneManager.update(deltaTime)] and [handleSpawning()]. *)
Record Frame : Type := mkFrame {
  currentTime : Z;
  bossDraws : BossDraws;
  sceneWork : Q → World → World
}.

(** The controller: its own two flags, which are not those of the game
    flow, the flow, the world, the frame clock, and the simulated time,
    the sum of the [deltaTime] values handed to [updateGame] so far (kept
    reduced), which the program does not store. *)
Record t : Type := mk {
  gameRunning : bool;
  isPaused : bool;
  gameFlow : GameFlow.t;
  world : World;
  lastFrameTime : Z;            (* milliseconds *)
  deltaTime : Q;                (* seconds *)
  simulatedTime : Q             (* seconds *)
}.

(** The controller after the constructor and [init], on a world. *)
Definition new (w : World) : t := mk false false GameFlow.new w 0 0 0.

(** The number of calls of [gameController.gameOver()] in a trace. *)
Definition gameOverCalls (w : World) : nat :=
  length
    (List.filter
       (fun ev => match ev with EvGameOver => true | _ => false end)
       (trace w)).

(** [gameOver()]: the two flags and [gameFlow.stop()]; the ambient sound,
    the mini ships and the modal are presentation. *)
Definition gameOver (c : t) : t :=
  mk false false (GameFlow.stop (gameFlow c)) (world c)
     (lastFrameTime c) (deltaTime c) (simulatedTime c).

(** [levelComplete()]: the game pauses behind a modal and the sound
    plays.  The handler of the modal's button runs on a click, not in a
    frame. *)
Definition levelComplete (c : t) : t :=
  mk (gameRunning c) true (gameFlow c)
     (emit [EvPlay CueLevelComplete] (world c))
     (lastFrameTime c) (deltaTime c) (simulatedTime c).

(** [checkGameConditions()] *)
Definition checkGameConditions (dateNow : Z) (c : t) : t :=
  let c1 :=
    if GameFlow.isBossWave (gameFlow c) (player (world c))
       && (length (enemies (world c)) =? 0)%nat
    then levelComplete c
    else c in
  if negb (GameFlow.isBossWave (gameFlow c1) (player (world c1)))
     && GameFlow.waveProgressFull dateNow (gameFlow c1)
  then
    let '(g, pl) :=
      GameFlow.advanceWave dateNow (gameFlow c1) (player (world c1)) in
    mk (gameRunning c1) (isPaused c1) g (set_player pl (world c1))
       (lastFrameTime c1) (deltaTime c1) (simulatedTime c1)
  else c1.

(** [updateGame()].  A call of [gameController.gameOver()] from the scene
    shows in the trace; its writes to the controller and to the flow are
    made here, after the work that issued it: nothing in between reads
    them. *)
Definition updateGame (f : Frame) (c : t) : t :=
  let w0 := set_now (currentTime f) (world c) in
  let '(g, w1) :=
    GameFlow_update (bossDraws f) (currentTime f) (gameFlow c) w0 in
  let w2 := sceneWork f (deltaTime c) w1 in
  let c1 :=
    mk (gameRunning c) (isPaused c) g w2
       (lastFrameTime c) (deltaTime c) (simulatedTime c) in
  let c2 :=
    if (gameOverCalls w1 <? gameOverCalls w2)%nat then gameOver c1 else c1 in
  checkGameConditions (currentTime f) c2.

(** [gameLoop()]: one frame.  The performance monitor, the rendering and
    the quality check are presentation; [requestAnimationFrame] makes the
    next frame the next call. *)
Definition gameLoop (f : Frame) (c : t) : t :=
  if negb (gameRunning c) then c
  else
    let dt := frameDeltaTime (currentTime f) (lastFrameTime c) in
    if isPaused c then
      mk (gameRunning c) (isPaused c) (gameFlow c) (world c)
         (currentTime f) dt (simulatedTime c)
    else
      updateGame f
        (mk (gameRunning c) (isPaused c) (gameFlow c) (world c)
            (currentTime f) dt (Qred (simulatedTime c + dt))).

(** The frames of a list, in order. *)
Definition run (frames : list Frame) (c : t) : t :=
  fold_left (fun c f => gameLoop f c) frames c.

(** [startGame()]: [resetGame()], the flags, [gameFlow.start()], the
    frame clock, and the first call of [gameLoop()]. *)
Definition startGame (f : Frame) (c : t) : t :=
  gameLoop f
    (mk true false (GameFlow.start (currentTime f) (gameFlow c))
        (resetGame (world c)) (currentTime f) (deltaTime c) 0).

(** The wave number the controller shows (0 without a player). *)
Definition playerWave (c : t) : Z :=
  match player (world c) with
  | Some p => wave p
  | None => 0
  end.

(** A frame whose scene work leaves the wave number and the count of
    destroyed enemies as they are and does not end the game. *)
Definition calm (f : Frame) : Prop :=
  ∀ (dt : Q) (w : World),
    (wave <$> player (sceneWork f dt w)) = (wave <$> player w) ∧
    ((fun p => enemiesDestroyed (stats p)) <$> player (sceneWork f dt w))
      = ((fun p => enemiesDestroyed (stats p)) <$> player w) ∧
    gameOverCalls (sceneWork f dt w) = gameOverCalls w.

(** A running, unpaused game in wave [n], with a wave duration of 30 s
    and a boss every 5 waves, whose player has not destroyed the enemies
    the wave requires. *)
Definition ticking (c : t) (n : Z) : Prop :=
  gameRunning c = true ∧ isPaused c = false ∧
  GameFlow.gameRunning (gameFlow c) = true ∧
  GameFlow.isPaused (gameFlow c) = false ∧
  GameFlow.waveDuration (gameFlow c) = 30000 ∧
  GameFlow.bossWaveInterval (gameFlow c) = 5 ∧
  ∃ p : PlayerState,
    player (world c) = Some p ∧ wave p = n ∧
    enemiesDestroyed (stats p) < GameFlow.waveEnemiesRequired (gameFlow c).

(** A frame at time [t] in which the scene has nothing to do. *)
Definition idleFrame (t : Z) : Frame :=
  mkFrame t (mkBossDraws 0 0 0 0 0 0) (fun _ w => w).

(** A frame at time [t] with an idle scene and the draws of a boss whose
    reference is [id]. *)
Definition bossFrame (t : Z) (id : nat) : Frame :=
  mkFrame t (mkBossDraws id 8 5 5 (-5) 3) (fun _ w => w).

(** A device that renders a frame every 70 ms: [n] idle frames, the game
    having started at time 0. *)
Definition slowIdleFrames (n : nat) : list Frame :=
  map (fun k => idleFrame (70 * Z.of_nat k)) (seq 1 n).

End GameController.

(** * Properties *)

(** ** Rounding to binary64 *)

Lemma two_neq_0 : ¬ (2 == 0)%Q.
Proof. discriminate. Qed.

Lemma pow2_pos (e : Z) : (0 < 2 ^ e)%Q.
Proof. apply Qpower_0_lt. reflexivity. Qed.

Lemma pow2_le (a b : Z) : a ≤ b → (2 ^ a <= 2 ^ b)%Q.
Proof. intros H. apply Qpower_le_compat_l; [exact H | discriminate]. Qed.

Lemma pow2_lt (a b : Z) : a < b → (2 ^ a < 2 ^ b)%Q.
Proof. intros H. apply Qpower_lt_compat_l; [exact H | reflexivity]. Qed.

Lemma pow2_Z (n : Z) : 0 ≤ n → (2 ^ n == inject_Z (2 ^ n))%Q.
Proof. intros H. symmetry. apply (Zpower_Qpower 2 n H). Qed.

Lemma inject_Z_pos (z : Z) : 0 < z → (0 < inject_Z z)%Q.
Proof. intros H. change 0%Q with (inject_Z 0). rewrite <- Zlt_Qlt. exact H. Qed.

Lemma Qdiv_le_cross (p q r s : Q) :
  (0 < q)%Q → (0 < s)%Q → (p * s <= r * q)%Q → (p / q <= r / s)%Q.
Proof.
  intros Hq Hs H. apply Qle_shift_div_r; [exact Hq |].
  assert (r / s * q == r * q / s)%Q as E by (field; lra).
  rewrite E. apply Qle_shift_div_l; [exact Hs | exact H].
Qed.

Lemma Qdiv_lt_cross (p q r s : Q) :
  (0 < q)%Q → (0 < s)%Q → (p * s < r * q)%Q → (p / q < r / s)%Q.
Proof.
  intros Hq Hs H. apply Qlt_shift_div_r; [exact Hq |].
  assert (r / s * q == r * q / s)%Q as E by (field; lra).
  rewrite E. apply Qlt_shift_div_l; [exact Hs | exact H].
Qed.

Lemma binade_spec (x : Q) :
  (0 < x)%Q →
  (2 ^ Double.binade x <= x)%Q ∧ (x < 2 ^ (Double.binade x + 1))%Q.
Proof.
  intros Hx. unfold Double.binade.
  destruct x as [a b]. cbn [Qnum Qden].
  assert (0 < a) as Ha.
  { unfold Qlt in Hx. cbn in Hx. lia. }
  set (la := Z.log2 a). set (lb := Z.log2 (Z.pos b)).
  pose proof (Z.log2_spec a Ha) as [Ha1 Ha2]. fold la in Ha1, Ha2.
  pose proof (Z.log2_spec (Z.pos b) ltac:(lia)) as [Hb1 Hb2].
  fold lb in Hb1, Hb2.
  assert (0 ≤ la) as Hla by apply Z.log2_nonneg.
  assert (0 ≤ lb) as Hlb by apply Z.log2_nonneg.
  assert (a # b == inject_Z a / inject_Z (Z.pos b))%Q as Hab.
  { unfold Qeq, Qdiv, Qmult, Qinv, inject_Z. cbn. lia. }
  assert (0 < inject_Z (Z.pos b))%Q as Hbpos by reflexivity.
  assert (a # b < 2 ^ (la - lb + 1))%Q as Hup.
  { rewrite Hab.
    replace (la - lb + 1) with (Z.succ la - lb) by lia.
    rewrite Qpower_minus by apply two_neq_0.
    rewrite (pow2_Z (Z.succ la)) by lia. rewrite (pow2_Z lb) by lia.
    apply Qdiv_lt_cross; [exact Hbpos | apply inject_Z_pos; lia |].
    rewrite <- !inject_Z_mult. rewrite <- Zlt_Qlt. nia. }
  assert (2 ^ (la - lb - 1) <= a # b)%Q as Hlow.
  { rewrite Hab.
    replace (la - lb - 1) with (la - Z.succ lb) by lia.
    rewrite Qpower_minus by apply two_neq_0.
    rewrite (pow2_Z la) by lia. rewrite (pow2_Z (Z.succ lb)) by lia.
    apply Qdiv_le_cross; [apply inject_Z_pos; lia | exact Hbpos |].
    rewrite <- !inject_Z_mult. rewrite <- Zle_Qle. nia. }
  destruct (Qle_bool (2 ^ (la - lb)) (a # b)) eqn:Hc.
  - apply Qle_bool_iff in Hc. split; [exact Hc | exact Hup].
  - split; [exact Hlow |].
    replace (la - lb - 1 + 1) with (la - lb) by lia.
    apply Qnot_le_lt. intros H. apply Qle_bool_iff in H. congruence.
Qed.

Lemma binade_unique (x : Q) (e : Z) :
  (2 ^ e <= x)%Q → (x < 2 ^ (e + 1))%Q → Double.binade x = e.
Proof.
  intros H1 H2.
  assert (0 < x)%Q as Hx by (pose proof (pow2_pos e); lra).
  destruct (binade_spec x Hx) as [H3 H4].
  assert (2 ^ e < 2 ^ (Double.binade x + 1))%Q as H5 by lra.
  assert (2 ^ Double.binade x < 2 ^ (e + 1))%Q as H6 by lra.
  apply Qpower_lt_compat_l_inv in H5; [| reflexivity].
  apply Qpower_lt_compat_l_inv in H6; [| reflexivity].
  lia.
Qed.

Lemma binade_comp (x y : Q) :
  (0 < x)%Q → (x == y)%Q → Double.binade x = Double.binade y.
Proof.
  intros Hx Hxy. destruct (binade_spec x Hx) as [H1 H2].
  symmetry. apply binade_unique; rewrite <- Hxy; assumption.
Qed.

Lemma nearestEven_cases (m : Q) :
  let f := Qfloor m in
  let r := (m - inject_Z f)%Q in
  (0 <= r)%Q ∧ (r < 1)%Q ∧
  ((Double.nearestEven m = f ∧ (r <= 1 # 2)%Q) ∨
   (Double.nearestEven m = f + 1 ∧ (1 # 2 <= r)%Q)).
Proof.
  intros f r.
  pose proof (Qfloor_le m) as H1. pose proof (Qlt_floor m) as H2.
  fold f in H1, H2. rewrite inject_Z_plus in H2.
  change (inject_Z 1) with 1%Q in H2.
  split; [subst r; lra |]. split; [subst r; lra |].
  unfold Double.nearestEven. fold f. fold r.
  destruct (Qcompare_spec r (1 # 2)) as [He | Hl | Hg].
  - destruct (Z.even f); [left | right]; split; try done; lra.
  - left. split; [done | lra].
  - right. split; [done | lra].
Qed.

Lemma nearestEven_nearest (m : Q) (k : Z) :
  (Qabs (inject_Z (Double.nearestEven m) - m) <= Qabs (inject_Z k - m))%Q.
Proof.
  destruct (nearestEven_cases m) as (Hr0 & Hr1 & Hn).
  set (f := Qfloor m) in *.
  destruct (Z_le_gt_dec k f) as [Hk | Hk].
  - assert (inject_Z k <= inject_Z f)%Q as Hk' by (by rewrite <- Zle_Qle).
    rewrite (Qabs_neg (inject_Z k - m)) by lra.
    destruct Hn as [[-> Hh] | [-> Hh]].
    + rewrite Qabs_neg by lra. lra.
    + rewrite inject_Z_plus. change (inject_Z 1) with 1%Q.
      rewrite Qabs_pos by lra. lra.
  - assert (inject_Z (f + 1) <= inject_Z k)%Q as Hk'
      by (rewrite <- Zle_Qle; lia).
    rewrite inject_Z_plus in Hk'. change (inject_Z 1) with 1%Q in Hk'.
    rewrite (Qabs_pos (inject_Z k - m)) by lra.
    destruct Hn as [[-> Hh] | [-> Hh]].
    + rewrite Qabs_neg by lra. lra.
    + rewrite inject_Z_plus. change (inject_Z 1) with 1%Q.
      rewrite Qabs_pos by lra. lra.
Qed.

Lemma nearestEven_comp (m m' : Q) :
  (m == m')%Q → Double.nearestEven m = Double.nearestEven m'.
Proof.
  intros H. unfold Double.nearestEven.
  rewrite (Qfloor_comp _ _ H).
  assert (m - inject_Z (Qfloor m') == m' - inject_Z (Qfloor m'))%Q as E
    by (rewrite H; reflexivity).
  by rewrite (Qcompare_comp _ _ E (1 # 2) (1 # 2) (Qeq_refl _)).
Qed.

Lemma nearestEven_bounds (m : Q) (a b : Z) :
  (inject_Z a <= m)%Q → (m <= inject_Z b)%Q →
  a ≤ Double.nearestEven m ≤ b.
Proof.
  intros Ha Hb.
  pose proof (nearestEven_nearest m a) as H1.
  pose proof (nearestEven_nearest m b) as H2.
  set (n := Double.nearestEven m) in *.
  rewrite (Qabs_neg (inject_Z a - m)) in H1 by lra.
  rewrite (Qabs_pos (inject_Z b - m)) in H2 by lra.
  apply Qabs_Qle_condition in H1 as [H1 _].
  apply Qabs_Qle_condition in H2 as [_ H2].
  split; rewrite Zle_Qle; lra.
Qed.

Lemma representable_opp (f : Q) : representable f → representable (- f).
Proof.
  intros (k & j & Hk & Hj & E). exists (- k), j.
  split; [lia |]. split; [exact Hj |].
  rewrite E, inject_Z_opp. ring.
Qed.

Lemma representable_comp (f g : Q) :
  (f == g)%Q → representable f → representable g.
Proof.
  intros H (k & j & Hk & Hj & E). exists k, j.
  split; [exact Hk |]. split; [exact Hj |]. by rewrite <- H.
Qed.

Lemma representable_Z (n : Z) : Z.abs n ≤ 2 ^ 53 → representable (inject_Z n).
Proof.
  intros H. exists n, 0. split; [exact H |]. split; [lia |].
  rewrite Qpower_0_r. ring.
Qed.

Lemma quantum_pos (x : Q) : (0 < Double.quantum x)%Q.
Proof. apply pow2_pos. Qed.

Lemma roundPos_scaled_bounds (x : Q) :
  (0 < x)%Q →
  (0 <= x / Double.quantum x)%Q ∧
  (x / Double.quantum x < inject_Z (2 ^ 53))%Q.
Proof.
  intros Hx. pose proof (quantum_pos x) as Hu.
  destruct (binade_spec x Hx) as [_ Hup].
  split.
  - apply Qle_shift_div_l; [exact Hu | lra].
  - apply Qlt_shift_div_r; [exact Hu |].
    rewrite <- (pow2_Z 53) by lia. unfold Double.quantum.
    rewrite <- Qpower_plus by apply two_neq_0.
    eapply Qlt_le_trans; [exact Hup |]. apply pow2_le. lia.
Qed.

Lemma roundPos_representable (x : Q) :
  (0 < x)%Q → representable (Double.roundPos x).
Proof.
  intros Hx. destruct (roundPos_scaled_bounds x Hx) as [H0 H1].
  exists (Double.nearestEven (x / Double.quantum x)),
         (Z.max (Double.binade x - 52) (-1074)).
  split; [| split; [lia | reflexivity]].
  pose proof (nearestEven_bounds (x / Double.quantum x) 0 (2 ^ 53) H0
                (Qlt_le_weak _ _ H1)).
  lia.
Qed.

Lemma roundPos_nonneg (x : Q) : (0 < x)%Q → (0 <= Double.roundPos x)%Q.
Proof.
  intros Hx. destruct (roundPos_scaled_bounds x Hx) as [H0 H1].
  pose proof (nearestEven_bounds (x / Double.quantum x) 0 (2 ^ 53) H0
                (Qlt_le_weak _ _ H1)) as [Hn _].
  unfold Double.roundPos. apply Qmult_le_0_compat.
  - change 0%Q with (inject_Z 0). by rewrite <- Zle_Qle.
  - apply Qlt_le_weak, quantum_pos.
Qed.

(** On the grid of its quantum no point is nearer to [x] than
    [roundPos x]. *)
Lemma roundPos_nearest_grid (x : Q) (k : Z) :
  (0 < x)%Q →
  (Qabs (Double.roundPos x - x)
     <= Qabs (inject_Z k * Double.quantum x - x))%Q.
Proof.
  intros Hx. pose proof (quantum_pos x) as Hu.
  set (u := Double.quantum x) in *.
  pose proof (nearestEven_nearest (x / u) k) as H.
  unfold Double.roundPos. fold u.
  set (n := Double.nearestEven (x / u)) in *.
  assert (∀ z : Z, inject_Z z * u - x == (inject_Z z - x / u) * u)%Q as E
    by (intros z; field; lra).
  rewrite (E n), (E k), !Qabs_Qmult, (Qabs_pos u) by lra.
  apply Qmult_le_compat_r; [exact H | lra].
Qed.

Lemma roundPos_nearest (x f : Q) :
  (0 < x)%Q → representable f →
  (Qabs (Double.roundPos x - x) <= Qabs (f - x))%Q.
Proof.
  intros Hx (k & j & Hk & Hj & E).
  set (q := Z.max (Double.binade x - 52) (-1074)).
  destruct (Z_le_gt_dec q j) as [Hqj | Hqj].
  - (* [f] lies on the grid *)
    assert (f == inject_Z (k * 2 ^ (j - q)) * Double.quantum x)%Q as Ef.
    { rewrite E, inject_Z_mult, <- (pow2_Z (j - q)) by lia.
      unfold Double.quantum. fold q.
      rewrite <- Qmult_assoc, <- Qpower_plus by apply two_neq_0.
      replace (j - q + q) with j by lia. reflexivity. }
    rewrite Ef. by apply roundPos_nearest_grid.
  - (* [f] is too fine for the grid, so it is below the binade of [x] *)
    assert (q = Double.binade x - 52) as Hq by lia.
    destruct (binade_spec x Hx) as [Hlow _].
    assert (f <= 2 ^ Double.binade x)%Q as Hf.
    { rewrite E.
      assert (inject_Z k <= inject_Z (2 ^ 53))%Q as Hk'
        by (rewrite <- Zle_Qle; lia).
      rewrite <- (pow2_Z 53) in Hk' by lia.
      pose proof (pow2_pos j) as Hj'.
      eapply Qle_trans.
      { apply Qmult_le_compat_r; [exact Hk' | lra]. }
      rewrite <- Qpower_plus by apply two_neq_0.
      apply pow2_le. lia. }
    assert (2 ^ Double.binade x
            == inject_Z (2 ^ 52) * Double.quantum x)%Q as Eg.
    { rewrite <- (pow2_Z 52) by lia. unfold Double.quantum. fold q.
      rewrite <- Qpower_plus by apply two_neq_0.
      replace (52 + q) with (Double.binade x) by lia. reflexivity. }
    pose proof (roundPos_nearest_grid x (2 ^ 52) Hx) as H.
    rewrite <- Eg in H.
    rewrite (Qabs_neg (2 ^ Double.binade x - x)) in H by lra.
    rewrite (Qabs_neg (f - x)) by lra. lra.
Qed.

Lemma Qle_bool_comp (a b c d : Q) :
  (a == b)%Q → (c == d)%Q → Qle_bool a c = Qle_bool b d.
Proof.
  intros H1 H2. apply eq_true_iff_eq. rewrite !Qle_bool_iff.
  by rewrite H1, H2.
Qed.

Lemma roundPos_comp (x y : Q) :
  (0 < x)%Q → (x == y)%Q → Double.roundPos x = Double.roundPos y.
Proof.
  intros Hx H. unfold Double.roundPos, Double.quantum.
  rewrite <- (binade_comp x y Hx H).
  f_equal. f_equal. apply nearestEven_comp.
  apply Qdiv_comp; [exact H | reflexivity].
Qed.

Lemma round_comp (x y : Q) : (x == y)%Q → (Double.round x == Double.round y)%Q.
Proof.
  intros H. unfold Double.round.
  rewrite (Qle_bool_comp (Qabs x) (Qabs y) Double.maxSafe Double.maxSafe
             (Qabs_wd x y H) (Qeq_refl _)).
  destruct (Qle_bool (Qabs y) Double.maxSafe); [| exact H].
  rewrite (Qcompare_comp x y H 0 0 (Qeq_refl 0))%Q.
  destruct (Qcompare_spec y 0) as [E | Hl | Hg].
  - reflexivity.
  - rewrite (roundPos_comp (- x) (- y)); [reflexivity | lra | by rewrite H].
  - rewrite (roundPos_comp x y); [reflexivity | lra | exact H].
Qed.

#[global] Instance round_Proper : Proper (Qeq ==> Qeq) Double.round.
Proof. intros x y. apply round_comp. Qed.

Lemma round_large (x : Q) :
  ¬ (Qabs x <= Double.maxSafe)%Q → Double.round x = x.
Proof.
  intros H. unfold Double.round.
  destruct (Qle_bool (Qabs x) Double.maxSafe) eqn:E; [| done].
  apply Qle_bool_iff in E. done.
Qed.

Lemma round_safe (x : Q) :
  (Qabs x <= Double.maxSafe)%Q →
  representable (Double.round x) ∧
  ∀ f, representable f →
       (Qabs (Double.round x - x) <= Qabs (f - x))%Q.
Proof.
  intros H. unfold Double.round.
  apply Qle_bool_iff in H. rewrite H.
  destruct (Qcompare_spec x 0) as [E | Hl | Hg].
  - split; [apply (representable_Z 0); lia |].
    intros f _. rewrite E.
    assert (0 - 0 == 0)%Q as -> by ring. apply Qabs_nonneg.
  - assert (0 < - x)%Q as Hx by lra.
    split; [apply representable_opp, roundPos_representable, Hx |].
    intros f Hf.
    pose proof (roundPos_nearest (- x) (- f) Hx (representable_opp f Hf))
      as Hn.
    assert (- Double.roundPos (- x) - x
            == - (Double.roundPos (- x) - - x))%Q as -> by ring.
    assert (f - x == - (- f - - x))%Q as -> by ring.
    by rewrite !Qabs_opp.
  - split; [by apply roundPos_representable |].
    intros f Hf. by apply roundPos_nearest.
Qed.

(** A Number is its own rounding. *)
Lemma round_exact (f : Q) : representable f → (Double.round f == f)%Q.
Proof.
  intros Hf.
  destruct (Qlt_le_dec Double.maxSafe (Qabs f)) as [Hbig | Hsafe].
  - rewrite round_large; [reflexivity | lra].
  - destruct (round_safe f Hsafe) as [_ Hn].
    specialize (Hn f Hf).
    assert (f - f == 0)%Q as E by ring. rewrite E in Hn.
    change (Qabs 0) with 0%Q in Hn.
    pose proof (Qabs_nonneg (Double.round f - f)) as H0.
    assert (Qabs (Double.round f - f) == 0)%Q as Hz by lra.
    destruct (Qlt_le_dec (Double.round f - f) 0) as [Hneg | Hpos].
    + rewrite Qabs_neg in Hz by lra. lra.
    + rewrite Qabs_pos in Hz by lra. lra.
Qed.

(** Every integer is its own rounding: up to [2^53] it is a Number, and
    beyond the model does not round. *)
Lemma round_Z (n : Z) : (Double.round (inject_Z n) == inject_Z n)%Q.
Proof.
  destruct (Z_le_gt_dec (Z.abs n) (2 ^ 53)) as [H | H].
  - by apply round_exact, representable_Z.
  - rewrite round_large; [reflexivity |].
    intros Hle. unfold Double.maxSafe in Hle.
    assert (Qabs (inject_Z n) == inject_Z (Z.abs n))%Q as E.
    { unfold inject_Z. symmetry. apply Zabs_Qabs. }
    rewrite E, <- Zle_Qle in Hle. lia.
Qed.

Lemma nearer_right (a b x : Q) :
  (a < b)%Q → (Qabs (b - x) <= Qabs (a - x))%Q → (a + b <= 2 * x)%Q.
Proof.
  intros Hab H. apply Qnot_lt_le. intros Hx.
  pose proof (Qabs_pos (b - x) ltac:(lra)) as E1.
  destruct (Qlt_le_dec x a) as [Hxa | Hxa].
  - pose proof (Qabs_pos (a - x) ltac:(lra)) as E2. lra.
  - pose proof (Qabs_neg (a - x) ltac:(lra)) as E2. lra.
Qed.

Lemma nearer_left (a b y : Q) :
  (a < b)%Q → (Qabs (a - y) <= Qabs (b - y))%Q → (2 * y <= a + b)%Q.
Proof.
  intros Hab H. apply Qnot_lt_le. intros Hy.
  pose proof (Qabs_neg (a - y) ltac:(lra)) as E1.
  destruct (Qlt_le_dec y b) as [Hyb | Hyb].
  - pose proof (Qabs_pos (b - y) ltac:(lra)) as E2. lra.
  - pose proof (Qabs_neg (b - y) ltac:(lra)) as E2. lra.
Qed.

Lemma round_monotone_safe (x y : Q) :
  (Qabs x <= Double.maxSafe)%Q → (Qabs y <= Double.maxSafe)%Q →
  (x <= y)%Q → (Double.round x <= Double.round y)%Q.
Proof.
  intros Hx Hy Hxy. apply Qnot_lt_le. intros Hlt.
  destruct (round_safe x Hx) as [Rx Nx].
  destruct (round_safe y Hy) as [Ry Ny].
  pose proof (nearer_right _ _ x Hlt (Nx _ Ry)) as H1.
  pose proof (nearer_left _ _ y Hlt (Ny _ Rx)) as H2.
  assert (x == y)%Q as E by lra.
  rewrite (round_comp x y E) in Hlt. lra.
Qed.

Lemma maxSafe_round : (Double.round Double.maxSafe == Double.maxSafe)%Q.
Proof. apply round_Z. Qed.

Lemma round_safe_bounds (x : Q) :
  (Qabs x <= Double.maxSafe)%Q →
  (- Double.maxSafe <= Double.round x)%Q ∧
  (Double.round x <= Double.maxSafe)%Q.
Proof.
  intros Hx. pose proof Hx as Hx'.
  apply Qabs_Qle_condition in Hx' as [Hl Hu].
  assert (Qabs Double.maxSafe <= Double.maxSafe)%Q as Hm
    by (apply Qle_bool_iff; reflexivity).
  assert (Qabs (- Double.maxSafe) <= Double.maxSafe)%Q as Hm'
    by (apply Qle_bool_iff; reflexivity).
  split.
  - pose proof (round_monotone_safe _ _ Hm' Hx Hl) as H.
    assert (Double.round (- Double.maxSafe) == - Double.maxSafe)%Q as E
      by apply (round_Z (- 2 ^ 53)).
    lra.
  - pose proof (round_monotone_safe _ _ Hx Hm Hu) as H.
    rewrite maxSafe_round in H. exact H.
Qed.

(** Rounding keeps the order. *)
Lemma round_monotone (x y : Q) :
  (x <= y)%Q → (Double.round x <= Double.round y)%Q.
Proof.
  intros Hxy.
  destruct (Qlt_le_dec Double.maxSafe (Qabs x)) as [Hbx | Hsx];
    destruct (Qlt_le_dec Double.maxSafe (Qabs y)) as [Hby | Hsy].
  - rewrite !round_large by lra. exact Hxy.
  - rewrite (round_large x) by lra.
    destruct (round_safe_bounds y Hsy) as [Hl _].
    apply Qabs_Qle_condition in Hsy as [Hyl Hyu].
    destruct (Qlt_le_dec x 0) as [Hneg | Hpos].
    + rewrite Qabs_neg in Hbx by lra. lra.
    + rewrite Qabs_pos in Hbx by lra. lra.
  - rewrite (round_large y) by lra.
    destruct (round_safe_bounds x Hsx) as [_ Hu].
    apply Qabs_Qle_condition in Hsx as [Hxl Hxu].
    destruct (Qlt_le_dec y 0) as [Hneg | Hpos].
    + rewrite Qabs_neg in Hby by lra. lra.
    + rewrite Qabs_pos in Hby by lra. lra.
  - by apply round_monotone_safe.
Qed.

Lemma round_ge_Z (n : Z) (x : Q) :
  (inject_Z n <= x)%Q → (inject_Z n <= Double.round x)%Q.
Proof.
  intros H. rewrite <- (round_Z n). by apply round_monotone.
Qed.

Lemma round_le_Z (n : Z) (x : Q) :
  (x <= inject_Z n)%Q → (Double.round x <= inject_Z n)%Q.
Proof.
  intros H. rewrite <- (round_Z n). by apply round_monotone.
Qed.

(** ** The depth bonus *)

Lemma round_nonneg (x : Q) : (0 <= x)%Q → (0 <= Double.round x)%Q.
Proof. apply (round_ge_Z 0). Qed.

Lemma round_0 : (Double.round 0 == 0)%Q.
Proof. apply (round_Z 0). Qed.

Lemma round_1 : (Double.round 1 == 1)%Q.
Proof. apply (round_Z 1). Qed.

Section DepthBonus.

Variable maxDepth : Q.
Hypothesis maxDepth_pos : (0 < maxDepth)%Q.

Lemma normalizedDepth_nonneg (z : Q) :
  (0 <= Double.mul (Double.div (Qabs z) maxDepth) 2)%Q.
Proof.
  unfold Double.mul, Double.div. apply round_nonneg.
  apply Qmult_le_0_compat; [| discriminate].
  apply round_nonneg.
  apply Qle_shift_div_l; [exact maxDepth_pos |].
  rewrite Qmult_0_l. apply Qabs_nonneg.
Qed.

Lemma getDepthBonus_lower (z : Q) :
  (1 <= MathUtils.getDepthBonus z maxDepth)%Q.
Proof.
  unfold MathUtils.getDepthBonus, Double.add.
  apply (round_ge_Z 1).
  assert (0 <= Qmin (Double.mul (Double.div (Qabs z) maxDepth) 2) 3)%Q as H.
  { apply Q.min_glb; [apply normalizedDepth_nonneg | discriminate]. }
  change (inject_Z 1) with 1%Q. lra.
Qed.

Lemma getDepthBonus_upper (z : Q) :
  (MathUtils.getDepthBonus z maxDepth <= 4)%Q.
Proof.
  unfold MathUtils.getDepthBonus, Double.add.
  apply (round_le_Z 4).
  pose proof (Q.le_min_r (Double.mul (Double.div (Qabs z) maxDepth) 2) 3).
  change (inject_Z 4) with 4%Q. lra.
Qed.

Lemma getDepthBonus_monotone (z1 z2 : Q) :
  (Qabs z1 <= Qabs z2)%Q →
  (MathUtils.getDepthBonus z1 maxDepth
     <= MathUtils.getDepthBonus z2 maxDepth)%Q.
Proof.
  intros Habs. unfold MathUtils.getDepthBonus, Double.add.
  apply round_monotone.
  assert (Double.mul (Double.div (Qabs z1) maxDepth) 2
          <= Double.mul (Double.div (Qabs z2) maxDepth) 2)%Q as Hn.
  { unfold Double.mul, Double.div. apply round_monotone.
    apply Qmult_le_compat_r; [| discriminate].
    apply round_monotone.
    unfold Qdiv. apply Qmult_le_compat_r; [exact Habs |].
    apply Qlt_le_weak, Qinv_lt_0_compat, maxDepth_pos. }
  pose proof (Q.min_le_compat_r _ _ 3%Q Hn). lra.
Qed.

Lemma getDepthBonus_at_zero : MathUtils.getDepthBonus 0 maxDepth == 1.
Proof.
  unfold MathUtils.getDepthBonus, Double.add, Double.mul, Double.div.
  change (Qabs 0) with 0%Q.
  assert (0 / maxDepth == 0)%Q as -> by (unfold Qdiv; ring).
  rewrite round_0.
  assert (0 * 2 == 0)%Q as -> by ring.
  rewrite round_0.
  assert (1 + Qmin 0 3 == 1)%Q as -> by reflexivity.
  apply round_1.
Qed.

End DepthBonus.

Lemma getDepthBonus_default_eq_1 (z : Q) :
  z == 0 → MathUtils.getDepthBonus z MathUtils.defaultMaxDepth == 1.
Proof.
  intros Hz.
  eapply Qeq_trans;
    [| apply (getDepthBonus_at_zero MathUtils.defaultMaxDepth)].
  unfold MathUtils.getDepthBonus, Double.add, Double.mul, Double.div.
  rewrite Hz. reflexivity.
Qed.

(** C4.  For a positive [maxDepth], [getDepthBonus] lies in [1, 4] at
    every depth, is monotonically non-decreasing in the absolute depth, is
    exactly 1 at depth 0, and is exactly 3 at depth 200 for [maxDepth] 200. *)
Theorem getDepthBonus_monotone_clamped (maxDepth : Q) :
  (0 < maxDepth)%Q →
  (∀ z : Q, (1 <= MathUtils.getDepthBonus z maxDepth)%Q ∧
            (MathUtils.getDepthBonus z maxDepth <= 4)%Q) ∧
  (∀ z1 z2 : Q, (Qabs z1 <= Qabs z2)%Q →
     (MathUtils.getDepthBonus z1 maxDepth
        <= MathUtils.getDepthBonus z2 maxDepth)%Q) ∧
  MathUtils.getDepthBonus 0 maxDepth == 1 ∧
  MathUtils.getDepthBonus 200 200 == 3.
Proof.
  intros Hpos. split; [| split; [| split]].
  - intros z. split; [apply getDepthBonus_lower, Hpos |].
    apply getDepthBonus_upper.
  - intros z1 z2. apply getDepthBonus_monotone, Hpos.
  - apply getDepthBonus_at_zero.
  - vm_compute. reflexivity.
Qed.

Lemma getDepthBonus_monotone_clamped_witness :
  (0 < MathUtils.defaultMaxDepth)%Q ∧
  (∀ z : Q,
     (1 <= MathUtils.getDepthBonus z MathUtils.defaultMaxDepth)%Q ∧
     (MathUtils.getDepthBonus z MathUtils.defaultMaxDepth <= 4)%Q).
Proof.
  split; [reflexivity |].
  apply (getDepthBonus_monotone_clamped MathUtils.defaultMaxDepth).
  reflexivity.
Defined.

(** ** Scoring *)

(** Reduce the projections of pairs and of the player records only. *)
Ltac player_simpl :=
  cbn [fst snd score level wave missed health maxHealth shields maxShields
       isShielded depthBonus totalDepthBonusEarned vortexChainCount
       perspectiveAccuracy stats MAX_MISSED
       balloonsPopped enemiesDestroyed powerUpsCollected totalShotsAccuracy
       maxCombo currentCombo depthBonusesEarned vortexChainsTriggered
       Player.set_stats Player.set_currentCombo Player.breakCombo] in *.

Lemma Qfloor_mult_1 (n : Z) (d : Q) :
  d == 1 → Qfloor (Double.mul (inject_Z n) d) = n.
Proof.
  intros Hd. rewrite <- (Qfloor_Z n) at 2.
  apply Qfloor_comp. unfold Double.mul. rewrite Hd.
  assert (inject_Z n * 1 == inject_Z n)%Q as -> by ring.
  apply round_Z.
Qed.

Lemma applyDepthBonus_spec (points : Z) (position : option Vector3)
    (p : PlayerState) :
  let r := Player.applyDepthBonus points position p in
  r.1.2
    = Qfloor (Double.mul (inject_Z points) (depthMultiplierAt position)) ∧
  score r.1.1 = score p ∧
  currentCombo (stats r.1.1) = currentCombo (stats p) ∧
  maxCombo (stats r.1.1) = maxCombo (stats p) ∧
  missed r.1.1 = missed p ∧
  isShielded r.1.1 = isShielded p.
Proof.
  unfold Player.applyDepthBonus, depthMultiplierAt.
  destruct position as [pos |]; player_simpl.
  - destruct (Qeq_bool (vz pos) 0) eqn:Hz; player_simpl.
    + apply Qeq_bool_eq in Hz. split; [| done].
      symmetry. apply Qfloor_mult_1, getDepthBonus_default_eq_1, Hz.
    + destruct (negb _); player_simpl; done.
  - split; [| done]. symmetry. apply Qfloor_mult_1. reflexivity.
Qed.

Lemma comboMultiplierAt_0 : comboMultiplierAt 0 == 1.
Proof. vm_compute. reflexivity. Qed.

Lemma comboMultiplier_after_break (p : PlayerState) :
  Player.comboMultiplier (Player.breakCombo p) == 1.
Proof. apply comboMultiplierAt_0. Qed.

Lemma addScore_spec (points : Z) (position : option Vector3)
    (p : PlayerState) :
  let r := Player.addScore points position p in
  r.1.2 =
    Qfloor
      (Double.mul
         (inject_Z
            (Qfloor
               (Double.mul (inject_Z points) (depthMultiplierAt position))))
         (comboMultiplierAt (currentCombo (stats p)))) ∧
  score r.1.1 = score p + r.1.2 ∧
  currentCombo (stats r.1.1) = currentCombo (stats p) + 1 ∧
  missed r.1.1 = missed p ∧
  isShielded r.1.1 = isShielded p.
Proof.
  pose proof (applyDepthBonus_spec points position p) as H.
  unfold Player.addScore.
  destruct (Player.applyDepthBonus points position p) as [[p1 fp] evs].
  player_simpl. destruct H as (-> & Hs & Hc & _ & Hm & Hsh).
  unfold Player.comboMultiplier, comboMultiplierAt. rewrite Hc, Hs. done.
Qed.

(** A score event on a player whose combo is 0 adds the floored depth
    product. *)
Lemma addScore_combo_0 (points : Z) (position : option Vector3)
    (p : PlayerState) :
  currentCombo (stats p) = 0 →
  (Player.addScore points position p).1.2
    = Qfloor (Double.mul (inject_Z points) (depthMultiplierAt position)).
Proof.
  intros Hc.
  destruct (addScore_spec points position p) as (-> & _).
  rewrite Hc. apply Qfloor_mult_1, comboMultiplierAt_0.
Qed.

(** C3 (as amended).  The points a score event adds are
    [floor(floor(p * d) * (1 + c * 0.1))], every product and the sum as
    the program computes them, in binary64: the depth product is floored
    first and the combo product second.  After a combo break, by
    [breakCombo] or by a miss of an unshielded player, the combo
    multiplier is exactly 1 and the points added are [floor(p * d)]. *)
Theorem addScore_floors_depth_then_combo (points : Z)
    (position : option Vector3) (p : PlayerState) :
  let d := depthMultiplierAt position in
  let c := currentCombo (stats p) in
  let r := Player.addScore points position p in
  let r0 := Player.addScore points position (Player.breakCombo p) in
  let r1 := Player.addScore points position (Player.addMissed p).1 in
  score r.1.1 - score p =
    Qfloor (Double.mul (inject_Z (Qfloor (Double.mul (inject_Z points) d)))
              (comboMultiplierAt c)) ∧
  currentCombo (stats (Player.breakCombo p)) = 0 ∧
  Player.comboMultiplier (Player.breakCombo p) == 1 ∧
  score r0.1.1 - score p = Qfloor (Double.mul (inject_Z points) d) ∧
  (isShielded p = false →
     currentCombo (stats (Player.addMissed p).1) = 0 ∧
     Player.comboMultiplier (Player.addMissed p).1 == 1 ∧
     score r1.1.1 - score p = Qfloor (Double.mul (inject_Z points) d)).
Proof.
  intros d c r r0 r1.
  destruct (addScore_spec points position p) as (Hret & Hscore & _).
  destruct (addScore_spec points position (Player.breakCombo p))
    as (_ & Hscore0 & _).
  fold r in Hret, Hscore. fold r0 in Hscore0. fold d in Hret.
  split; [| split; [| split; [| split]]].
  - rewrite Hscore, Hret. fold c. lia.
  - reflexivity.
  - apply comboMultiplier_after_break.
  - rewrite Hscore0. subst r0 d.
    rewrite addScore_combo_0 by reflexivity. player_simpl. lia.
  - intros Hsh.
    assert (currentCombo (stats (Player.addMissed p).1) = 0 ∧
            score (Player.addMissed p).1 = score p) as [Hc1 Hs1].
    { unfold Player.addMissed. rewrite Hsh.
      destruct (_ <=? _); player_simpl; done. }
    split; [exact Hc1 |]. split.
    + unfold Player.comboMultiplier. rewrite Hc1. apply comboMultiplierAt_0.
    + destruct (addScore_spec points position (Player.addMissed p).1)
        as (_ & Hscore1 & _).
      fold r1 in Hscore1. rewrite Hscore1, Hs1. subst r1 d.
      rewrite addScore_combo_0 by exact Hc1. lia.
Qed.

(** Two score events of a new player brought to a combo of 4, resp. 13:
    50 points at depth -80 add 125 (the depth product is
    [50 * 1.8 = 90], the combo product [90 * 1.4] is just below 126),
    and 50 points without a position add 114; after a miss the same
    event at depth -80 adds 90. *)
Lemma addScore_floors_depth_then_combo_witness :
  (Player.addScore 50 (Some (mkVector3 0 0 (-80))) (playerWithCombo 4)).1.2
    = 125 ∧
  (Player.addScore 50 None (playerWithCombo 13)).1.2 = 114 ∧
  score (Player.addScore 50 (Some (mkVector3 0 0 (-80)))
           (Player.addMissed (playerWithCombo 4)).1).1.1 = 90.
Proof.
  destruct (addScore_floors_depth_then_combo 50
              (Some (mkVector3 0 0 (-80))) (playerWithCombo 4))
    as (_ & _ & _ & _ & H).
  destruct (H eq_refl) as (_ & _ & H1).
  split; [vm_compute; reflexivity |]. split; [vm_compute; reflexivity |].
  cbn zeta in H1.
  change (score (playerWithCombo 4)) with 0 in H1.
  rewrite Z.sub_0_r in H1. rewrite H1. vm_compute. reflexivity.
Defined.

(** C3, as stated, fails: with 50 base points at depth -1 (multiplier
    1.01) and a combo of 15 the program adds [floor(floor(50.5) * 2.5)],
    which is 125, and the single floor of the full product is 126. *)
Lemma addScore_single_floor_counterexample :
  let p := playerWithCombo 15 in
  let position := Some (mkVector3 0 0 (-1)) in
  let d := MathUtils.getDepthBonus (-1) MathUtils.defaultMaxDepth in
  score (Player.addScore 50 position p).1.1 - score p = 125 ∧
  Qfloor (Double.mul (Double.mul 50 (comboMultiplierAt 15)) d) = 126 ∧
  Qfloor (50 * (1 + 15 * (1 # 10)) * (1 + 1 / 200 * 2)) = 126.
Proof. vm_compute. repeat split. Qed.

(** ** Reset *)

Lemma applyDepthBonus_constants (points : Z) (position : option Vector3)
    (p : PlayerState) :
  constantsIntact p →
  constantsIntact (Player.applyDepthBonus points position p).1.1.
Proof.
  intros H. unfold Player.applyDepthBonus.
  destruct position as [pos |]; [| exact H].
  destruct (Qeq_bool _ _); [exact H |].
  destruct (negb _); exact H.
Qed.

Lemma addScore_constants (points : Z) (position : option Vector3)
    (p : PlayerState) :
  constantsIntact p →
  constantsIntact (Player.addScore points position p).1.1.
Proof.
  intros H. apply (applyDepthBonus_constants points position) in H.
  unfold Player.addScore.
  destruct (Player.applyDepthBonus points position p) as [[p1 fp] evs].
  exact H.
Qed.

Lemma playerCall_constants (p : PlayerState) (c : PlayerCall) :
  constantsIntact p → constantsIntact (playerCall p c).
Proof.
  intros H. destruct c; cbn [playerCall]; try exact H.
  - by apply addScore_constants.
  - unfold Player.addMissed. destruct (isShielded p); [exact H |].
    by destruct (_ <=? _).
  - unfold Player.takeDamage. destruct (isShielded p); [exact H |].
    by destruct (_ <=? _).
Qed.

Lemma reachable_constants (cs : list PlayerCall) :
  ∀ p : PlayerState,
    constantsIntact p → constantsIntact (fold_left playerCall cs p).
Proof.
  induction cs as [| c cs IH]; intros p H; simpl; [exact H |].
  by apply IH, playerCall_constants.
Qed.

(** C8 (as amended).  [reset] gives every field the value of a newly
    constructed player state, except [stats.maxCombo], which it carries
    over; the three constants it does not assign keep their values, and
    in every state the program can reach from the constructor they have
    the constructed values, so that [reset] returns a new state up to
    [stats.maxCombo]. *)
Theorem reset_restores_all_but_maxCombo :
  (∀ p : PlayerState,
     let r := Player.reset p in
     let n := Player.new in
     score r = score n ∧ level r = level n ∧ wave r = wave n ∧
     missed r = missed n ∧ health r = health n ∧ shields r = shields n ∧
     isShielded r = isShielded n ∧ depthBonus r = depthBonus n ∧
     totalDepthBonusEarned r = totalDepthBonusEarned n ∧
     vortexChainCount r = vortexChainCount n ∧
     perspectiveAccuracy r = perspectiveAccuracy n ∧
     balloonsPopped (stats r) = balloonsPopped (stats n) ∧
     enemiesDestroyed (stats r) = enemiesDestroyed (stats n) ∧
     powerUpsCollected (stats r) = powerUpsCollected (stats n) ∧
     totalShotsAccuracy (stats r) = totalShotsAccuracy (stats n) ∧
     currentCombo (stats r) = currentCombo (stats n) ∧
     depthBonusesEarned (stats r) = depthBonusesEarned (stats n) ∧
     vortexChainsTriggered (stats r) = vortexChainsTriggered (stats n) ∧
     maxCombo (stats r) = maxCombo (stats p) ∧
     maxHealth r = maxHealth p ∧ maxShields r = maxShields p ∧
     MAX_MISSED r = MAX_MISSED p) ∧
  (∀ history : list PlayerCall,
     let p := fold_left playerCall history Player.new in
     Player.reset p = newWithMaxCombo (maxCombo (stats p))).
Proof.
  split.
  - intros p. repeat split.
  - intros history p.
    destruct (reachable_constants history Player.new) as (Hh & Hs & Hm);
      [by repeat split |].
    fold p in Hh, Hs, Hm.
    unfold Player.reset, newWithMaxCombo. rewrite Hh, Hs, Hm. reflexivity.
Qed.

(** C8, as stated, fails: after one score event on a new player state the
    maximal combo is 1, [reset] keeps it, and a new state has 0. *)
Lemma reset_keeps_maxCombo_counterexample :
  let p := (Player.addScore 50 None Player.new).1.1 in
  maxCombo (stats (Player.reset p)) = 1 ∧
  maxCombo (stats Player.new) = 0 ∧
  Player.reset p ≠ Player.new.
Proof.
  repeat split. intros H.
  apply (f_equal (fun q => maxCombo (stats q))) in H.
  vm_compute in H. discriminate.
Qed.

(** ** The shield *)

(** C9.  Under an active shield [addMissed] and [takeDamage] return
    [false] and leave the whole player state as it was: missed count,
    health, shields and combo included. *)
Theorem shield_blocks_missed_and_damage (p : PlayerState) (amount : Z) :
  isShielded p = true →
  Player.addMissed p = (p, false) ∧ Player.takeDamage amount p = (p, false).
Proof.
  intros H. unfold Player.addMissed, Player.takeDamage. rewrite H. done.
Qed.

Lemma shield_blocks_missed_and_damage_witness :
  let p := set_isShielded true Player.new in
  isShielded p = true ∧
  Player.addMissed p = (p, false) ∧ Player.takeDamage 10 p = (p, false).
Proof.
  split; [reflexivity |].
  apply (shield_blocks_missed_and_damage (set_isShielded true Player.new) 10).
  reflexivity.
Defined.

(** ** The object pool *)

Section PoolFacts.

Context {T : Type}.
Variable createFn : nat → T.
Variable resetFn : T → T.

Abbreviation Pool := (ObjectPool.t T).
Abbreviation release := (ObjectPool.release T resetFn).
Abbreviation acquire := (ObjectPool.acquire T createFn).
Abbreviation releaseAll := (ObjectPool.releaseAll T resetFn).

Lemma indexOf_None (x : nat) (l : list nat) :
  indexOf x l = None ↔ x ∉ l.
Proof.
  induction l as [| y l IH]; simpl.
  - split; [intros _; apply not_elem_of_nil | done].
  - destruct (Nat.eqb_spec y x) as [-> | Hne].
    + split; [done | intros H; destruct H; apply elem_of_cons; by left].
    + rewrite not_elem_of_cons, <- IH.
      destruct (indexOf x l); simpl.
      * split; [done | by intros [_ ?]].
      * split; [intros _; split; [congruence | done] | done].
Qed.

Lemma indexOf_Some (x : nat) (l : list nat) (i : nat) :
  indexOf x l = Some i → l !! i = Some x.
Proof.
  revert i. induction l as [| y l IH]; simpl; intros i H; [done |].
  destruct (Nat.eqb_spec y x) as [-> | Hne].
  - by inversion H.
  - destruct (indexOf x l) as [j |] eqn:Hj; simpl in H; [| done].
    inversion H; subst. simpl. by apply IH.
Qed.

Lemma populate1_wf (p : Pool) :
  pool_wf p → pool_wf (ObjectPool.populate1 T createFn p).
Proof.
  intros [Hnd Hlt]. unfold pool_wf, ObjectPool.populate1; simpl.
  set (n := ObjectPool.created T p) in *.
  assert ((ObjectPool.pool T p ++ [n]) ++ ObjectPool.active T p
            ≡ₚ n :: (ObjectPool.pool T p ++ ObjectPool.active T p)) as Hp.
  { rewrite <- (assoc_L (++)), Permutation_middle. done. }
  rewrite Hp. split.
  - apply NoDup_cons. split; [| done].
    intros Hin. rewrite Forall_forall in Hlt. apply Hlt in Hin. lia.
  - apply Forall_cons. split; [lia |].
    eapply Forall_impl; [exact Hlt |]. simpl. lia.
Qed.

Lemma new_wf (initialSize : nat) :
  pool_wf (ObjectPool.new T createFn initialSize).
Proof.
  unfold ObjectPool.new. induction initialSize as [| n IH]; simpl.
  - split; simpl; [apply NoDup_nil_2 | apply Forall_nil_2].
  - by apply populate1_wf.
Qed.

Lemma acquire_wf (p : Pool) : pool_wf p → pool_wf (acquire p).2.
Proof.
  intros [Hnd Hlt]. unfold pool_wf, ObjectPool.acquire.
  destruct (last (ObjectPool.pool T p)) as [obj |] eqn:Hlast; simpl.
  - apply last_Some in Hlast as [l' Hl'].
    rewrite Hl' in *. rewrite removelast_last.
    rewrite <- (assoc_L (++)) in Hnd, Hlt.
    assert (l' ++ ObjectPool.active T p ++ [obj]
              ≡ₚ l' ++ [obj] ++ ObjectPool.active T p) as Hp.
    { f_equiv. apply Permutation_app_comm. }
    rewrite Hp. done.
  - set (n := ObjectPool.created T p) in *.
    assert (ObjectPool.pool T p ++ ObjectPool.active T p ++ [n]
              ≡ₚ n :: (ObjectPool.pool T p ++ ObjectPool.active T p)) as Hp.
    { rewrite (assoc_L (++)), <- Permutation_cons_append. done. }
    rewrite Hp. split.
    + apply NoDup_cons. split; [| done].
      intros Hin. rewrite Forall_forall in Hlt. apply Hlt in Hin. lia.
    + apply Forall_cons. split; [lia |].
      eapply Forall_impl; [exact Hlt |]. simpl. lia.
Qed.

Lemma release_wf (obj : nat) (p : Pool) : pool_wf p → pool_wf (release obj p).
Proof.
  intros [Hnd Hlt]. unfold pool_wf, ObjectPool.release.
  destruct (indexOf obj (ObjectPool.active T p)) as [i |] eqn:Hi; [| done].
  simpl. apply indexOf_Some in Hi.
  assert ((ObjectPool.pool T p ++ [obj]) ++ delete i (ObjectPool.active T p)
            ≡ₚ ObjectPool.pool T p ++ ObjectPool.active T p) as Hp.
  { rewrite <- (assoc_L (++)). f_equiv. simpl.
    symmetry. by apply delete_Permutation. }
  rewrite Hp. done.
Qed.

Lemma releaseAll_loop_wf (n : nat) (p : Pool) :
  pool_wf p → pool_wf (ObjectPool.releaseAll_loop T resetFn n p).
Proof.
  revert p. induction n as [| n IH]; intros p Hwf; simpl; [done |].
  destruct (ObjectPool.active T p); [done |].
  by apply IH, release_wf.
Qed.

(** The loop of [releaseAll] ends with an empty active list: the bound
    taken from the length at entry suffices. *)
Lemma releaseAll_empties (p : Pool) :
  ObjectPool.active T (releaseAll p) = [].
Proof.
  unfold ObjectPool.releaseAll.
  remember (length (ObjectPool.active T p)) as n eqn:Hn.
  revert p Hn. induction n as [| n IH]; intros p Hn; simpl.
  - by destruct (ObjectPool.active T p).
  - destruct (ObjectPool.active T p) as [| x rest] eqn:Hact; [done |].
    apply IH. unfold ObjectPool.release. rewrite Hact. simpl.
    rewrite Nat.eqb_refl. simpl. simpl in Hn. lia.
Qed.

Lemma call_wf (p : Pool) (c : ObjectPool.Call) :
  pool_wf p → pool_wf (ObjectPool.call T createFn resetFn p c).
Proof.
  intros Hwf. destruct c; simpl.
  - by apply acquire_wf.
  - by apply release_wf.
  - by apply releaseAll_loop_wf.
Qed.

Lemma after_wf (initialSize : nat) (history : list ObjectPool.Call) :
  pool_wf (ObjectPool.after T createFn resetFn initialSize history).
Proof.
  unfold ObjectPool.after.
  generalize (new_wf initialSize).
  generalize (ObjectPool.new T createFn initialSize).
  induction history as [| c history IH]; intros p Hwf; simpl; [done |].
  by apply IH, call_wf.
Qed.

(** C5.  Releasing an object that is not in the active list returns the
    pool as it was (free list, active list and objects), and in every
    pool reached from the constructor by [acquire], [release] and
    [releaseAll] no object is twice in the free list. *)
Theorem release_inactive_is_noop :
  (∀ (p : Pool) (obj : nat),
     obj ∉ ObjectPool.active T p → release obj p = p) ∧
  (∀ (initialSize : nat) (history : list ObjectPool.Call),
     NoDup (ObjectPool.pool T
              (ObjectPool.after T createFn resetFn initialSize history))).
Proof.
  split.
  - intros p obj Hout. unfold ObjectPool.release.
    apply indexOf_None in Hout. by rewrite Hout.
  - intros initialSize history.
    destruct (after_wf initialSize history) as [Hnd _].
    by apply NoDup_app in Hnd as [? _].
Qed.

End PoolFacts.

Lemma release_inactive_is_noop_witness :
  let p := ObjectPool.after bool (fun _ => true) negb 2
             [ObjectPool.CallAcquire; ObjectPool.CallRelease 1] in
  (1%nat ∉ ObjectPool.active bool p) ∧
  ObjectPool.release bool negb 1 p = p ∧
  NoDup (ObjectPool.pool bool p).
Proof.
  pose proof (release_inactive_is_noop (fun _ => true) negb) as [Hnoop Hnd].
  split; [| split].
  - vm_compute. apply not_elem_of_nil.
  - apply Hnoop. vm_compute. apply not_elem_of_nil.
  - apply Hnd.
Defined.

(** ** Wave progression *)

(** With a wave duration of 30 s the wave progress, a quotient rounded to
    binary64, is full exactly from a wave time of 30000 ms on. *)
Lemma waveProgressFull_30000 (t : Z) (g : GameFlow.t) :
  GameFlow.waveDuration g = 30000 →
  GameFlow.waveProgressFull t g = (30000 <=? t - GameFlow.waveStartTime g).
Proof.
  intros Hdur. unfold GameFlow.waveProgressFull, GameFlow.getWaveProgress.
  rewrite Hdur. cbn [Z.eqb]. set (wt := t - GameFlow.waveStartTime g).
  change (inject_Z 30000) with 30000%Q. unfold Double.div.
  destruct (Z.leb_spec 30000 wt) as [Hle | Hlt].
  - apply Qle_bool_iff. apply Q.min_glb; [apply Qle_refl |].
    apply (round_ge_Z 1). change (inject_Z 1) with 1%Q.
    apply Qle_shift_div_l; [reflexivity |].
    assert (inject_Z 30000 <= inject_Z wt)%Q as H by (by rewrite <- Zle_Qle).
    change (inject_Z 30000) with 30000%Q in H. lra.
  - destruct (Qle_bool 1 _) eqn:E; [| done]. exfalso.
    apply Qle_bool_iff in E.
    pose proof (Q.le_min_r 1 (Double.round (inject_Z wt / 30000))) as Hm.
    assert (inject_Z wt <= inject_Z 29999)%Q as H
      by (rewrite <- Zle_Qle; lia).
    change (inject_Z 29999) with 29999%Q in H.
    assert (inject_Z wt / 30000 <= 29999 / 30000)%Q as Hq.
    { unfold Qdiv. apply Qmult_le_compat_r; [exact H | discriminate]. }
    apply round_monotone in Hq.
    assert (Double.round (29999 / 30000) < 1)%Q as Hc
      by (vm_compute; reflexivity).
    lra.
Qed.

Lemma isBossWave_false (g : GameFlow.t) (p : PlayerState) :
  Z.rem (wave p) (GameFlow.bossWaveInterval g) ≠ 0 →
  GameFlow.isBossWave g (Some p) = false.
Proof.
  intros H. unfold GameFlow.isBossWave.
  destruct (Z.eqb_spec (Z.rem (wave p) (GameFlow.bossWaveInterval g)) 0);
    [done | apply andb_false_r].
Qed.

(** [gameFlow.update()] in a wave that is not a boss wave and has not
    its kills: the wave advances when more than the duration has passed,
    and no boss is spawned. *)
Lemma GameFlow_update_plain (b : BossDraws) (t : Z) (g : GameFlow.t)
    (w : World) (p : PlayerState) :
  GameFlow.gameRunning g = true → GameFlow.isPaused g = false →
  player w = Some p →
  enemiesDestroyed (stats p) < GameFlow.waveEnemiesRequired g →
  let late := GameFlow.waveDuration g <? t - GameFlow.waveStartTime g in
  let p' := if late then Player.setWave (wave p + 1) p else p in
  Z.rem (wave p') (GameFlow.bossWaveInterval g) ≠ 0 →
  GameFlow_update b t g w
  = (GameFlow.mk true false (GameFlow.frameCount g + 1)
       (if late then t else GameFlow.waveStartTime g)
       (if late then 0 else GameFlow.waveEnemiesSpawned g)
       (if late then GameFlow.waveEnemiesRequired g + 2
        else GameFlow.waveEnemiesRequired g)
       (GameFlow.waveDuration g) (GameFlow.bossWaveInterval g),
     set_player (Some p') w).
Proof.
  intros Hrun Hpause Hp Hk late p' Hrem.
  unfold GameFlow_update, GameFlow.checkWaveProgression,
    GameFlow.shouldAdvanceWave, GameFlow.advanceWave.
  rewrite Hrun, Hpause, Hp.
  cbn [negb orb GameFlow.waveDuration GameFlow.waveStartTime
       GameFlow.waveEnemiesRequired GameFlow.gameRunning GameFlow.isPaused
       GameFlow.frameCount GameFlow.waveEnemiesSpawned
       GameFlow.bossWaveInterval].
  destruct (Z.leb_spec (GameFlow.waveEnemiesRequired g)
              (enemiesDestroyed (stats p))) as [Hle | _]; [lia |].
  rewrite orb_false_r. fold late.
  assert (∀ g' : GameFlow.t,
            GameFlow.bossWaveInterval g' = GameFlow.bossWaveInterval g →
            GameFlow_checkLevelProgression b g' (set_player (Some p') w)
            = set_player (Some p') w) as Hlevel.
  { intros g' Hg'. unfold GameFlow_checkLevelProgression.
    cbn [player set_player]. rewrite Hg'.
    destruct (Z.eqb_spec (Z.rem (wave p') (GameFlow.bossWaveInterval g)) 0);
      [done | by rewrite andb_false_r]. }
  subst p'. destruct late; rewrite Hlevel by done; done.
Qed.

Section FrameFacts.

Import GameController.

(** [checkGameConditions] outside a boss wave: the wave advances when
    the wave progress is full. *)
Lemma checkGameConditions_plain (t : Z) (c : GameController.t)
    (p : PlayerState) :
  player (world c) = Some p →
  GameFlow.waveDuration (gameFlow c) = 30000 →
  Z.rem (wave p) (GameFlow.bossWaveInterval (gameFlow c)) ≠ 0 →
  checkGameConditions t c
  = if 30000 <=? t - GameFlow.waveStartTime (gameFlow c) then
      mk (gameRunning c) (isPaused c)
         (GameFlow.advanceWave t (gameFlow c) (Some p)).1
         (set_player (Some (Player.setWave (wave p + 1) p)) (world c))
         (lastFrameTime c) (deltaTime c) (simulatedTime c)
    else c.
Proof.
  intros Hp Hdur Hrem. unfold checkGameConditions.
  rewrite Hp, (isBossWave_false _ _ Hrem). cbn [andb negb].
  rewrite Hp, (isBossWave_false _ _ Hrem). cbn [andb negb].
  rewrite (waveProgressFull_30000 _ _ Hdur).
  destruct (30000 <=? t - GameFlow.waveStartTime (gameFlow c)); done.
Qed.

Lemma calm_player (f : Frame) (dt : Q) (w : World) (p : PlayerState) :
  calm f → player w = Some p →
  ∃ p' : PlayerState,
    player (sceneWork f dt w) = Some p' ∧ wave p' = wave p ∧
    enemiesDestroyed (stats p') = enemiesDestroyed (stats p) ∧
    (gameOverCalls w <? gameOverCalls (sceneWork f dt w))%nat = false.
Proof.
  intros Hcalm Hp. destruct (Hcalm dt w) as (Hw & Hk & Hg).
  rewrite Hp in Hw, Hk. rewrite Hg, Nat.ltb_irrefl.
  destruct (player (sceneWork f dt w)) as [p' |]; [| done].
  cbn in Hw, Hk. exists p'. by simplify_eq.
Qed.

(** A frame before the wave time reaches 30 s. *)
Lemma gameLoop_early (f : Frame) (c : GameController.t) (n : Z) :
  ticking c n → Z.rem n 5 ≠ 0 → calm f →
  currentTime f < GameFlow.waveStartTime (gameFlow c) + 30000 →
  let c' := gameLoop f c in
  ticking c' n ∧
  GameFlow.waveStartTime (gameFlow c') = GameFlow.waveStartTime (gameFlow c).
Proof.
  intros (Hrun & Hpause & Hfr & Hfp & Hdur & Hint & p & Hp & Hw & Hk)
    Hrem Hcalm Ht.
  cbn zeta. unfold gameLoop. rewrite Hrun, Hpause. cbn [negb].
  unfold updateGame. cbn [world gameFlow gameRunning isPaused deltaTime
    lastFrameTime simulatedTime].
  assert (player (set_now (currentTime f) (world c)) = Some p) as Hp0
    by exact Hp.
  rewrite (GameFlow_update_plain _ _ _ _ p Hfr Hfp Hp0 Hk); rewrite Hdur;
    destruct (Z.ltb_spec 30000
                (currentTime f - GameFlow.waveStartTime (gameFlow c)))
      as [Hlt | _]; try lia; [| by rewrite Hint, Hw].
  set (w1 := set_player (Some p) (set_now (currentTime f) (world c))).
  destruct (calm_player f (frameDeltaTime (currentTime f) (lastFrameTime c))
              w1 p Hcalm eq_refl) as (p' & Hp' & Hw' & Hk' & ->).
  rewrite (checkGameConditions_plain _ _ p');
    cbn [world gameFlow GameFlow.waveDuration GameFlow.bossWaveInterval
         GameFlow.waveStartTime]; try done; [| by rewrite Hint, Hw', Hw].
  destruct (Z.leb_spec 30000
              (currentTime f - GameFlow.waveStartTime (gameFlow c)));
    [lia |].
  split; [| done].
  unfold ticking. cbn. repeat split; try done.
  exists p'. repeat split; try done; lia.
Qed.

(** A frame from a wave time of 30 s on: the wave advances once, in
    [gameFlow.update()] when more than 30 s have passed and in
    [checkGameConditions()] at 30 s exactly, and the wave clock restarts
    at the time of the frame. *)
Lemma gameLoop_late (f : Frame) (c : GameController.t) (n : Z) :
  ticking c n → Z.rem n 5 ≠ 0 → Z.rem (n + 1) 5 ≠ 0 → calm f →
  GameFlow.waveStartTime (gameFlow c) + 30000 ≤ currentTime f →
  let c' := gameLoop f c in
  ticking c' (n + 1) ∧
  GameFlow.waveStartTime (gameFlow c') = currentTime f.
Proof.
  intros (Hrun & Hpause & Hfr & Hfp & Hdur & Hint & p & Hp & Hw & Hk)
    Hrem Hrem' Hcalm Ht.
  cbn zeta. unfold gameLoop. rewrite Hrun, Hpause. cbn [negb].
  unfold updateGame. cbn [world gameFlow gameRunning isPaused deltaTime
    lastFrameTime simulatedTime].
  assert (player (set_now (currentTime f) (world c)) = Some p) as Hp0
    by exact Hp.
  rewrite (GameFlow_update_plain _ _ _ _ p Hfr Hfp Hp0 Hk); rewrite Hdur;
    destruct (Z.ltb_spec 30000
                (currentTime f - GameFlow.waveStartTime (gameFlow c)))
      as [Hlt | Hle]; try (by rewrite Hint; cbn [wave Player.setWave];
                           rewrite ?Hw).
  - (* more than 30 s: [gameFlow.update()] advances *)
    set (p1 := Player.setWave (wave p + 1) p).
    set (w1 := set_player (Some p1) (set_now (currentTime f) (world c))).
    destruct (calm_player f (frameDeltaTime (currentTime f) (lastFrameTime c))
                w1 p1 Hcalm eq_refl) as (p' & Hp' & Hw' & Hk' & ->).
    rewrite (checkGameConditions_plain _ _ p');
      cbn [world gameFlow GameFlow.waveDuration GameFlow.bossWaveInterval
           GameFlow.waveStartTime]; try done;
      [| by rewrite Hint, Hw'; cbn [wave p1 Player.setWave]; rewrite Hw].
    rewrite Z.sub_diag. cbn [Z.leb Z.compare].
    split; [| done].
    unfold ticking. cbn. repeat split; try done.
    exists p'. repeat split; try done.
    + rewrite Hw'. cbn. by rewrite Hw.
    + rewrite Hk'. cbn. lia.
  - (* 30 s exactly: [checkGameConditions()] advances *)
    set (w1 := set_player (Some p) (set_now (currentTime f) (world c))).
    destruct (calm_player f (frameDeltaTime (currentTime f) (lastFrameTime c))
                w1 p Hcalm eq_refl) as (p' & Hp' & Hw' & Hk' & ->).
    rewrite (checkGameConditions_plain _ _ p');
      cbn [world gameFlow GameFlow.waveDuration GameFlow.bossWaveInterval
           GameFlow.waveStartTime]; try done;
      [| by rewrite Hint, Hw', Hw].
    destruct (Z.leb_spec 30000
                (currentTime f - GameFlow.waveStartTime (gameFlow c)));
      [| lia].
    split; [| done].
    unfold ticking. cbn. repeat split; try done.
    exists (Player.setWave (wave p' + 1) p'). repeat split; try done.
    + cbn. by rewrite Hw', Hw.
    + cbn. lia.
Qed.

(** No frame before the wave time reaches 30 s changes the wave. *)
Lemma wave_unchanged_within_duration (frames : list Frame) :
  ∀ (c : GameController.t) (n : Z),
    ticking c n → Z.rem n 5 ≠ 0 →
    Forall calm frames →
    Forall (fun f => currentTime f
                     < GameFlow.waveStartTime (gameFlow c) + 30000) frames →
    playerWave (run frames c) = n.
Proof.
  induction frames as [| f frames IH]; intros c n Hs Hrem Hcalm Hall.
  - destruct Hs as (_ & _ & _ & _ & _ & _ & p & Hp & Hw & _).
    unfold run, playerWave. cbn [fold_left]. by rewrite Hp.
  - apply Forall_cons in Hall as [Ht Hall].
    apply Forall_cons in Hcalm as [Hc Hcalm].
    destruct (gameLoop_early f c n Hs Hrem Hc Ht) as [Hs' Hstart].
    unfold run. cbn [fold_left].
    apply (IH _ _ Hs' Hrem Hcalm). by rewrite Hstart.
Qed.

(** C7 (as amended).  In a running, unpaused game with a wave duration of
    30 s and a boss every fifth wave, in a wave [n] such that neither [n]
    nor [n + 1] is a boss wave, with fewer kills than the wave requires:
    over frames that all run less than 60 s of wall-clock time after the
    wave start, and whose scene work neither touches the wave number or
    the kills nor ends the game, the wave number goes up exactly once if
    some frame runs 30 s or more after the wave start, and not at all
    otherwise.  The [deltaTime] values of the frames play no part. *)
Theorem wave_advances_on_wall_clock (frames : list GameController.Frame) :
  ∀ (c : GameController.t) (n : Z),
    GameController.ticking c n →
    Z.rem n 5 ≠ 0 → Z.rem (n + 1) 5 ≠ 0 →
    Forall GameController.calm frames →
    Forall (fun f => GameController.currentTime f
                     < GameFlow.waveStartTime (GameController.gameFlow c)
                       + 60000) frames →
    GameController.playerWave (GameController.run frames c) =
      n +
      (if existsb
            (fun f => GameFlow.waveStartTime (GameController.gameFlow c)
                      + 30000 <=? GameController.currentTime f)
            frames
       then 1 else 0).
Proof.
  induction frames as [| f frames IH];
    intros c n Hs Hrem Hrem' Hcalm Hall.
  - destruct Hs as (_ & _ & _ & _ & _ & _ & p & Hp & Hw & _).
    unfold run, playerWave. cbn [fold_left existsb]. rewrite Hp. lia.
  - apply Forall_cons in Hall as [Ht Hall].
    apply Forall_cons in Hcalm as [Hc Hcalm].
    cbn [existsb].
    destruct (Z.leb_spec (GameFlow.waveStartTime (gameFlow c) + 30000)
                (currentTime f)) as [Hlate | Hearly]; cbn [orb].
    + destruct (gameLoop_late f c n Hs Hrem Hrem' Hc Hlate)
        as [Hs' Hstart].
      change (run (f :: frames) c) with (run frames (gameLoop f c)).
      apply (wave_unchanged_within_duration frames _ _ Hs' Hrem' Hcalm).
      rewrite Hstart. eapply Forall_impl; [exact Hall |].
      cbn beta. intros f' Hf'. lia.
    + destruct (gameLoop_early f c n Hs Hrem Hc Hearly) as [Hs' Hstart].
      change (run (f :: frames) c) with (run frames (gameLoop f c)).
      rewrite (IH _ _ Hs' Hrem Hrem' Hcalm); rewrite Hstart; done.
Qed.

End FrameFacts.

Lemma idleFrame_calm (t : Z) : GameController.calm (GameController.idleFrame t).
Proof. intros dt w. done. Qed.

Lemma wave_advances_on_wall_clock_witness :
  let c :=
    GameController.startGame (GameController.idleFrame 0)
      (GameController.new initialWorld) in
  GameController.playerWave c = 1 ∧
  GameController.playerWave
    (GameController.run
       (map GameController.idleFrame [16; 29999; 30000; 45000; 59999]) c)
  = 2.
Proof.
  split; [reflexivity |].
  refine (wave_advances_on_wall_clock
            (map GameController.idleFrame [16; 29999; 30000; 45000; 59999])
            _ 1 _ _ _ _ _).
  - unfold GameController.ticking. vm_compute.
    repeat split; try done. eexists. repeat split.
  - vm_compute. discriminate.
  - vm_compute. discriminate.
  - repeat constructor; apply idleFrame_calm.
  - repeat constructor; vm_compute; reflexivity.
Defined.

(** C7, as stated, fails: at a frame every 70 ms each frame hands the
    clamped [deltaTime] of 1/30 s to the simulation, so 900 frames add up
    to 30 simulated seconds while 63 s pass on the wall clock, and the
    wave number has gone from 1 to 3 (at 30.03 s and at 60.06 s), with no
    kill. *)
Lemma wave_simulated_time_counterexample :
  let c0 :=
    GameController.startGame (GameController.idleFrame 0)
      (GameController.new initialWorld) in
  let c := GameController.run (GameController.slowIdleFrames 900) c0 in
  GameController.simulatedTime c == 30 ∧
  ((fun p => enemiesDestroyed (stats p))
     <$> player (GameController.world c)) = Some 0 ∧
  GameController.gameRunning c = true ∧
  GameController.playerWave c0 = 1 ∧ GameController.playerWave c = 3 ∧
  GameController.playerWave c ≠ GameController.playerWave c0 + 1.
Proof.
  vm_compute. repeat split; discriminate.
Qed.

(** ** Balloons: hits and destruction *)

(** Reduce the projections and the setters of the world only. *)
Ltac world_simpl :=
  cbn [player powerUpManager balloonStore enemyStore projectileStore
       balloons enemies projectiles timers trace now draws
       set_player set_powerUpManager set_balloonStore set_enemyStore
       set_projectileStore set_balloons set_enemies set_projectiles
       set_timers set_draws emit fst snd] in *.

Lemma sameScene_refl (w : World) : sameScene w w.
Proof.
  repeat split; try done. exists []. by rewrite app_nil_r.
Qed.

Lemma sameScene_trans (w1 w2 w3 : World) :
  sameScene w1 w2 → sameScene w2 w3 → sameScene w1 w3.
Proof.
  intros (H1 & H2 & H3 & H4 & H5 & H6 & H7 & H8 & H9 & evs & Ht & Hq)
         (G1 & G2 & G3 & G4 & G5 & G6 & G7 & G8 & G9 & evs' & Gt & Gq).
  repeat split; try congruence; try tauto.
  exists (evs ++ evs'). split.
  - by rewrite Gt, Ht, (assoc_L (++)).
  - rewrite forallb_app, Hq, Gq. done.
Qed.

Lemma sameScene_emit (evs : list Event) (w : World) :
  forallb quiet evs = true → sameScene w (emit evs w).
Proof. intros Hq. repeat split; try done. by exists evs. Qed.

Lemma sameScene_set_player (p : PlayerState) (w : World) :
  is_Some (player w) → sameScene w (set_player (Some p) w).
Proof.
  intros Hp. repeat split; world_simpl; try done.
  exists []. by rewrite app_nil_r.
Qed.

Lemma sameScene_with_player (f : PlayerState → PlayerState) (w : World) :
  sameScene w (with_player f w).
Proof.
  unfold with_player. destruct (player w) eqn:Hp; [| apply sameScene_refl].
  apply sameScene_set_player. by rewrite Hp.
Qed.

Lemma applyDepthBonus_quiet (points : Z) (position : option Vector3)
    (p : PlayerState) :
  forallb quiet (Player.applyDepthBonus points position p).2 = true.
Proof.
  unfold Player.applyDepthBonus.
  destruct position as [pos |]; [| done].
  destruct (Qeq_bool _ _); [done |]. by destruct (negb _).
Qed.

Lemma addScore_quiet (points : Z) (position : option Vector3)
    (p : PlayerState) :
  forallb quiet (Player.addScore points position p).2 = true.
Proof.
  pose proof (applyDepthBonus_quiet points position p) as H.
  unfold Player.addScore.
  by destruct (Player.applyDepthBonus points position p) as [[p1 fp] evs].
Qed.

Lemma sameScene_addScore (points : Z) (position : option Vector3)
    (w : World) :
  sameScene w (World_addScore points position w).
Proof.
  unfold World_addScore. destruct (player w) as [p |] eqn:Hp;
    [| apply sameScene_refl].
  pose proof (addScore_quiet points position p) as Hq.
  destruct (Player.addScore points position p) as [[p' fp] evs].
  eapply sameScene_trans; [apply (sameScene_set_player p'); by rewrite Hp |].
  by apply sameScene_emit.
Qed.

Lemma sameScene_set_powerUpManager (m : PowerUpManager) (w : World) :
  is_Some (powerUpManager w) → sameScene w (set_powerUpManager (Some m) w).
Proof.
  intros Hm. repeat split; world_simpl; try done.
  exists []. by rewrite app_nil_r.
Qed.

Lemma sameScene_powerUpEffect (on : bool) (t : PowerUpType) (w : World) :
  sameScene w (powerUpEffect on t w).
Proof.
  destruct t; simpl; try apply sameScene_refl; try by apply sameScene_emit.
  destruct (player w) as [p |] eqn:Hp; [| apply sameScene_refl].
  eapply sameScene_trans;
    [apply (sameScene_set_player (set_isShielded on p)); by rewrite Hp |].
  by apply sameScene_emit.
Qed.

Lemma sameScene_deactivate (w : World) :
  sameScene w (PowerUpManager_deactivate w).
Proof.
  unfold PowerUpManager_deactivate.
  destruct (powerUpManager w) as [m |] eqn:Hm; [| apply sameScene_refl].
  destruct (activePowerUp m) as [t |]; [| apply sameScene_refl].
  pose proof (sameScene_powerUpEffect false t w) as H.
  eapply sameScene_trans; [exact H |].
  apply sameScene_set_powerUpManager.
  destruct H as (_ & _ & _ & _ & _ & _ & _ & _ & -> & _). by rewrite Hm.
Qed.

Lemma sameScene_activate (t : PowerUpType) (w : World) :
  sameScene w (PowerUpManager_activate t w).
Proof.
  unfold PowerUpManager_activate.
  destruct (powerUpManager w) as [m |] eqn:Hm; [| apply sameScene_refl].
  set (w1 := match activePowerUp m with
             | Some _ => PowerUpManager_deactivate w
             | None => w
             end).
  assert (sameScene w w1) as H1.
  { subst w1. destruct (activePowerUp m);
      [apply sameScene_deactivate | apply sameScene_refl]. }
  eapply sameScene_trans; [exact H1 |].
  eapply sameScene_trans.
  { apply sameScene_set_powerUpManager.
    destruct H1 as (_ & _ & _ & _ & _ & _ & _ & _ & -> & _). by rewrite Hm. }
  eapply sameScene_trans; [apply (sameScene_powerUpEffect true t) |].
  eapply sameScene_trans;
    [by apply (sameScene_emit [EvPlay CuePowerupActivate]) |].
  apply sameScene_with_player.
Qed.

Lemma addVortexChain_quiet (p : PlayerState) :
  forallb quiet (Player.addVortexChain p).2 = true.
Proof.
  unfold Player.addVortexChain.
  match goal with
  | |- context [Player.addScore ?n ?pos ?q] =>
      pose proof (addScore_quiet n pos q) as H;
      destruct (Player.addScore n pos q) as [[p2 fp] evs]
  end.
  exact H.
Qed.

Lemma sameTally_refl (w : World) : sameTally w w.
Proof. intros p Hp. by exists p. Qed.

Lemma sameTally_trans (w1 w2 w3 : World) :
  sameTally w1 w2 → sameTally w2 w3 → sameTally w1 w3.
Proof.
  intros H12 H23 p Hp.
  destruct (H12 p Hp) as (p2 & Hp2 & ? & ? & ? & ?).
  destruct (H23 p2 Hp2) as (p3 & Hp3 & ? & ? & ? & ?).
  exists p3. repeat split; congruence.
Qed.

Lemma sameTally_same_player (w w' : World) :
  player w' = player w → sameTally w w'.
Proof. intros H p Hp. exists p. by rewrite H. Qed.

Lemma sameTally_with_player (f : PlayerState → PlayerState) (w : World) :
  (∀ p, score (f p) = score p ∧ missed (f p) = missed p ∧
        currentCombo (stats (f p)) = currentCombo (stats p) ∧
        vortexChainCount (f p) = vortexChainCount p) →
  sameTally w (with_player f w).
Proof.
  intros Hf p Hp. unfold with_player. rewrite Hp. world_simpl.
  exists (f p). split; [done | apply Hf].
Qed.

Lemma sameTally_powerUpEffect (on : bool) (t : PowerUpType) (w : World) :
  sameTally w (powerUpEffect on t w).
Proof.
  destruct t; simpl; try by apply sameTally_same_player.
  intros p Hp. rewrite Hp. world_simpl. by eexists.
Qed.

Lemma sameTally_deactivate (w : World) :
  sameTally w (PowerUpManager_deactivate w).
Proof.
  unfold PowerUpManager_deactivate.
  destruct (powerUpManager w) as [m |]; [| apply sameTally_refl].
  destruct (activePowerUp m) as [t |]; [| apply sameTally_refl].
  eapply sameTally_trans; [apply (sameTally_powerUpEffect false t) |].
  by apply sameTally_same_player.
Qed.

Lemma sameTally_activate (t : PowerUpType) (w : World) :
  sameTally w (PowerUpManager_activate t w).
Proof.
  unfold PowerUpManager_activate.
  destruct (powerUpManager w) as [m |]; [| apply sameTally_refl].
  set (w1 := match activePowerUp m with
             | Some _ => PowerUpManager_deactivate w
             | None => w
             end).
  assert (sameTally w w1) as H1.
  { subst w1. destruct (activePowerUp m);
      [apply sameTally_deactivate | apply sameTally_refl]. }
  eapply sameTally_trans; [exact H1 |].
  eapply sameTally_trans;
    [apply (sameTally_same_player w1
              (set_powerUpManager
                 (Some (mkPowerUpManager (Some t) (now w1 + duration t))) w1));
     done |].
  eapply sameTally_trans; [apply (sameTally_powerUpEffect true t) |].
  eapply sameTally_trans;
    [| apply sameTally_with_player; intros q; done].
  by apply sameTally_same_player.
Qed.

Section BalloonFacts.

Variable randomPowerUpType : nat → PowerUpType.
Variable randomDelay : nat → Q.

Abbreviation destroy := (Balloon3D_destroy randomPowerUpType randomDelay).
Abbreviation hit := (Balloon3D_hit randomPowerUpType randomDelay).
Abbreviation chain := (checkVortexChain randomDelay).
Abbreviation calls := (balloonCall randomPowerUpType randomDelay).

Lemma sameScene_getRandomPowerUpType (w : World) :
  sameScene w (getRandomPowerUpType randomPowerUpType w).2.
Proof.
  repeat split; world_simpl; try done. exists []. by rewrite app_nil_r.
Qed.

Lemma sameScene_scheduleChainHits (targets : list nat) :
  ∀ w : World,
    sameScene w
      (fold_left (fun acc id' => scheduleChainHit randomDelay id' acc)
         targets w).
Proof.
  induction targets as [| x targets IH]; intros w; simpl.
  - apply sameScene_refl.
  - eapply sameScene_trans; [| apply IH].
    repeat split; world_simpl; try done. exists []. by rewrite app_nil_r.
Qed.

Lemma sameScene_checkVortexChain (id : nat) (w : World) :
  sameScene w (chain id w).
Proof.
  unfold checkVortexChain.
  destruct (balloonStore w !! id) as [b |]; [| apply sameScene_refl].
  destruct (powerUpManager w) as [m |]; [| apply sameScene_refl].
  destruct (PowerUpManager_isActive _ _); [| apply sameScene_refl].
  destruct (nearbyBalloons id b w) as [| x rest]; [apply sameScene_refl |].
  eapply sameScene_trans; [| apply sameScene_scheduleChainHits].
  eapply sameScene_trans;
    [| by apply (sameScene_emit [EvPlay CueVortexChain])].
  eapply sameScene_trans;
    [| by apply (sameScene_emit [EvParticles 30; EvPlay CueVortexChain])].
  destruct (player w) as [p |] eqn:Hp; [| apply sameScene_refl].
  pose proof (addVortexChain_quiet p) as Hq.
  destruct (Player.addVortexChain p) as [[p' bonus] evs].
  eapply sameScene_trans;
    [apply (sameScene_set_player p'); by rewrite Hp |].
  by apply sameScene_emit.
Qed.

(** Without a live neighbour within the chain radius the check does
    nothing. *)
Lemma checkVortexChain_alone (id : nat) (b : Balloon3D.t) (w : World) :
  balloonStore w !! id = Some b →
  nearbyBalloons id b w = [] →
  chain id w = w.
Proof.
  intros Hb Hnear. unfold checkVortexChain. rewrite Hb.
  destruct (powerUpManager w); [| done].
  destruct (PowerUpManager_isActive _ _); [| done].
  by rewrite Hnear.
Qed.

(** [destroy] on a destroyed balloon returns at once. *)
Lemma destroy_dead (id : nat) (b : Balloon3D.t) (w : World) :
  balloonStore w !! id = Some b →
  Balloon3D.isAlive b = false →
  destroy id w = w.
Proof.
  intros Hb Hdead. unfold Balloon3D_destroy. by rewrite Hb, Hdead.
Qed.

Lemma sameScene_awardBalloon (b : Balloon3D.t) (w : World) :
  sameScene w (awardBalloon b w).
Proof.
  unfold awardBalloon. destruct (player w); [| apply sameScene_refl].
  eapply sameScene_trans; [apply sameScene_addScore |].
  destruct (Balloon3D.type b);
    [apply sameScene_with_player | apply sameScene_refl ..].
Qed.

Lemma sameScene_createDestructionParticles (b : Balloon3D.t) (w : World) :
  sameScene w (createDestructionParticles b w).
Proof. by apply sameScene_emit. Qed.

Lemma sameScene_triggerPowerUp (b : Balloon3D.t) (w : World) :
  sameScene w (triggerPowerUp randomPowerUpType b w).
Proof.
  unfold triggerPowerUp.
  destruct (Balloon3D.type b); try apply sameScene_refl.
  destruct (powerUpManager w); [| apply sameScene_refl].
  eapply sameScene_trans;
    [apply sameScene_getRandomPowerUpType | apply sameScene_activate].
Qed.

Lemma sameScene_beforePop (b : Balloon3D.t) (w : World) :
  sameScene w (beforePop randomPowerUpType b w).
Proof.
  unfold beforePop.
  eapply sameScene_trans; [apply sameScene_awardBalloon |].
  eapply sameScene_trans; [apply sameScene_createDestructionParticles |].
  apply sameScene_triggerPowerUp.
Qed.

Lemma destroy_live_eq (id : nat) (b : Balloon3D.t) (w : World) :
  balloonStore w !! id = Some b →
  Balloon3D.isAlive b = true →
  destroy id w =
    GameObject3D_destroy_balloon id
      (chain id (emit [EvPlay CuePop] (beforePop randomPowerUpType b w))).
Proof.
  intros Hb Halive. unfold Balloon3D_destroy. by rewrite Hb, Halive.
Qed.

(** [destroy] on a live balloon: everything up to the pop keeps the
    scene, the pop is played once, the chain check keeps the scene, and
    the liveness flag is cleared last. *)
Lemma destroy_live (id : nat) (b : Balloon3D.t) (w : World) :
  balloonStore w !! id = Some b →
  Balloon3D.isAlive b = true →
  ∃ w3 : World,
    sameScene w w3 ∧
    destroy id w =
      GameObject3D_destroy_balloon id (chain id (emit [EvPlay CuePop] w3)).
Proof.
  intros Hb Halive. exists (beforePop randomPowerUpType b w).
  split; [apply sameScene_beforePop | by apply destroy_live_eq].
Qed.

Lemma balloonAlive_destroyed (id : nat) (w : World) :
  balloonAlive (GameObject3D_destroy_balloon id w) id = false.
Proof.
  unfold balloonAlive, GameObject3D_destroy_balloon. world_simpl.
  rewrite lookup_alter_eq. by destruct (balloonStore w !! id).
Qed.

Lemma destroy_not_alive (id : nat) (w : World) :
  balloonAlive (destroy id w) id = false.
Proof.
  destruct (balloonStore w !! id) as [b |] eqn:Hb.
  - destruct (Balloon3D.isAlive b) eqn:Halive.
    + destruct (destroy_live id b w Hb Halive) as (w3 & _ & ->).
      apply balloonAlive_destroyed.
    + rewrite (destroy_dead id b w Hb Halive).
      unfold balloonAlive. by rewrite Hb.
  - unfold Balloon3D_destroy. rewrite Hb.
    unfold balloonAlive. by rewrite Hb.
Qed.

(** A second [destroy] changes nothing. *)
Lemma destroy_idempotent (id : nat) (w : World) :
  destroy id (destroy id w) = destroy id w.
Proof.
  pose proof (destroy_not_alive id w) as Hdead.
  unfold balloonAlive in Hdead.
  destruct (balloonStore (destroy id w) !! id) as [b |] eqn:Hb.
  - by apply (destroy_dead id b).
  - unfold Balloon3D_destroy at 1. by rewrite Hb.
Qed.

Lemma set_isAlive_dead (b : Balloon3D.t) :
  Balloon3D.isAlive b = false → Balloon3D.set_isAlive false b = b.
Proof. destruct b; simpl; by intros ->. Qed.

Lemma destroy_lookup (id : nat) (b : Balloon3D.t) (w : World) :
  balloonStore w !! id = Some b →
  balloonStore (destroy id w) !! id = Some (Balloon3D.set_isAlive false b).
Proof.
  intros Hb. destruct (Balloon3D.isAlive b) eqn:Halive.
  - destruct (destroy_live id b w Hb Halive) as (w3 & H3 & ->).
    unfold GameObject3D_destroy_balloon. world_simpl.
    rewrite lookup_alter_eq.
    destruct (sameScene_checkVortexChain id (emit [EvPlay CuePop] w3))
      as (-> & _).
    world_simpl. destruct H3 as (-> & _). by rewrite Hb.
  - rewrite (destroy_dead id b w Hb Halive), Hb.
    by rewrite set_isAlive_dead.
Qed.

Lemma withHealth_lookup (id : nat) (h : Z) (b : Balloon3D.t) (w : World) :
  balloonStore w !! id = Some b →
  balloonStore (withHealth id h w) !! id = Some (Balloon3D.set_health h b).
Proof.
  intros Hb. unfold withHealth. world_simpl.
  by rewrite lookup_alter_eq, Hb.
Qed.

(** [hit] is the decrement followed, at zero or below, by [destroy]. *)
Lemma hit_unfold (id : nat) (b : Balloon3D.t) (w : World) :
  balloonStore w !! id = Some b →
  hit id w =
    let w1 := withHealth id (Balloon3D.health b - 1) w in
    if Balloon3D.health b - 1 <=? 0 then (destroy id w1, true)
    else (w1, false).
Proof.
  intros Hb. unfold Balloon3D_hit. rewrite Hb.
  assert (set_balloonStore
            (<[id := Balloon3D.set_health (Balloon3D.health b - 1) b]>
               (balloonStore w)) w
          = withHealth id (Balloon3D.health b - 1) w) as ->.
  { unfold withHealth. f_equal. apply map_eq. intros j.
    destruct (decide (id = j)) as [<- | Hne].
    - by rewrite lookup_insert_eq, lookup_alter_eq, Hb.
    - by rewrite lookup_insert_ne, lookup_alter_ne. }
  done.
Qed.

(** What a call on a destroyed (or unknown) balloon can still do: lower
    its hit points. *)
Lemma call_dead (id : nat) (w : World) (c : BalloonCall) :
  balloonAlive w id = false →
  ∃ h : Z, calls id w c = withHealth id h w ∨ calls id w c = w.
Proof.
  intros Hdead. unfold balloonAlive in Hdead.
  destruct (balloonStore w !! id) as [b |] eqn:Hb.
  - destruct c; simpl.
    + exists (Balloon3D.health b - 1). left.
      rewrite (hit_unfold id b w Hb). cbn zeta.
      destruct (_ <=? 0); [| done]. simpl.
      eapply destroy_dead; [by apply withHealth_lookup |].
      by destruct b.
    + exists 0. right. by apply (destroy_dead id b).
  - exists 0. right. destruct c; simpl.
    + unfold Balloon3D_hit. by rewrite Hb.
    + unfold Balloon3D_destroy. by rewrite Hb.
Qed.

Lemma withHealth_dead (id : nat) (h : Z) (w : World) :
  balloonAlive w id = false → balloonAlive (withHealth id h w) id = false.
Proof.
  unfold balloonAlive, withHealth. world_simpl.
  rewrite lookup_alter_eq. by destruct (balloonStore w !! id) as [[] |].
Qed.

(** Once a balloon is destroyed no sequence of [hit] and [destroy] calls
    on it reaches the player, the power-up manager, the timers or the
    trace, and it stays destroyed. *)
Lemma calls_dead (id : nat) (cs : list BalloonCall) :
  ∀ w : World,
    balloonAlive w id = false →
    let w' := fold_left (calls id) cs w in
    player w' = player w ∧ trace w' = trace w ∧
    powerUpManager w' = powerUpManager w ∧ timers w' = timers w ∧
    balloons w' = balloons w ∧ balloonAlive w' id = false.
Proof.
  induction cs as [| c cs IH]; intros w Hdead; simpl; [done |].
  destruct (call_dead id w c Hdead) as (h & [-> | ->]).
  - destruct (IH (withHealth id h w)) as (-> & -> & -> & -> & -> & ->);
      [by apply withHealth_dead | done].
  - by apply IH.
Qed.

Lemma withHealth_withHealth (id : nat) (h h' : Z) (w : World) :
  withHealth id h' (withHealth id h w) = withHealth id h' w.
Proof.
  unfold withHealth, set_balloonStore. world_simpl. f_equal.
  apply map_eq. intros j.
  destruct (decide (id = j)) as [<- | Hne].
  - rewrite !lookup_alter_eq. by destruct (balloonStore w !! id).
  - by rewrite !lookup_alter_ne.
Qed.

Lemma withHealth_same (id : nat) (b : Balloon3D.t) (w : World) :
  balloonStore w !! id = Some b →
  withHealth id (Balloon3D.health b) w = w.
Proof.
  intros Hb. unfold withHealth.
  assert (alter (Balloon3D.set_health (Balloon3D.health b)) id
            (balloonStore w) = balloonStore w) as ->.
  { apply map_eq. intros j. destruct (decide (id = j)) as [<- | Hne].
    - rewrite lookup_alter_eq, Hb. by destruct b.
    - by rewrite lookup_alter_ne. }
  by destruct w.
Qed.

(** The effect of any sequence of [hit] and [destroy] calls on one
    balloon, as far as the player and the trace go, is that of no call or
    of one [destroy]. *)
Lemma calls_award_at_most_once (id : nat) (cs : list BalloonCall) :
  ∀ (w : World) (b : Balloon3D.t),
    balloonStore w !! id = Some b →
    let w' := fold_left (calls id) cs w in
    (player w' = player w ∧ trace w' = trace w) ∨
    (∃ h : Z,
       player w' = player (destroy id (withHealth id h w)) ∧
       trace w' = trace (destroy id (withHealth id h w))).
Proof.
  induction cs as [| c cs IH]; intros w b Hb; simpl; [by left |].
  destruct c; simpl.
  - rewrite (hit_unfold id b w Hb). cbn zeta.
    destruct (Balloon3D.health b - 1 <=? 0); simpl.
    + right. exists (Balloon3D.health b - 1).
      destruct (calls_dead id cs
                  (destroy id (withHealth id (Balloon3D.health b - 1) w)))
        as (-> & -> & _); [apply destroy_not_alive | done].
    + destruct (IH (withHealth id (Balloon3D.health b - 1) w) _
                  (withHealth_lookup id _ b w Hb)) as [H | (h & H)].
      * left. exact H.
      * right. exists h. by rewrite withHealth_withHealth in H.
  - right. exists (Balloon3D.health b).
    rewrite (withHealth_same id b w Hb).
    destruct (calls_dead id cs (destroy id w)) as (-> & -> & _);
      [apply destroy_not_alive | done].
Qed.

(** The trace of a [destroy] on a live balloon: one pop among quiet
    events. *)
Lemma destroy_live_trace (id : nat) (b : Balloon3D.t) (w : World) :
  balloonStore w !! id = Some b →
  Balloon3D.isAlive b = true →
  ∃ evs1 evs2 : list Event,
    trace (destroy id w) = trace w ++ evs1 ++ EvPlay CuePop :: evs2 ∧
    forallb quiet evs1 = true ∧ forallb quiet evs2 = true.
Proof.
  intros Hb Halive.
  destruct (destroy_live id b w Hb Halive) as (w3 & H3 & ->).
  destruct H3 as (_ & _ & _ & _ & _ & _ & _ & _ & _ & evs1 & Ht1 & Hq1).
  destruct (sameScene_checkVortexChain id (emit [EvPlay CuePop] w3))
    as (_ & _ & _ & _ & _ & _ & _ & _ & _ & evs2 & Ht2 & Hq2).
  exists evs1, evs2. split; [| done].
  unfold GameObject3D_destroy_balloon. world_simpl.
  rewrite Ht2. world_simpl. rewrite Ht1.
  by rewrite <- !(assoc_L (++)).
Qed.

(** C1.  A hit takes exactly one hit point.  A hit that brings a live
    balloon to zero destroys it, and the pop fires once; a hit that
    leaves hit points does not reach the player.  A second [destroy] is
    a no-op, and whatever sequence of [hit] and [destroy] calls is made
    on one balloon, the player and the trace end up as after no call or
    as after a single [destroy]: score, statistics and combo are awarded
    at most once. *)
Theorem balloon_hit_decrements_destroy_once (w : World) (id : nat)
    (b : Balloon3D.t) :
  balloonStore w !! id = Some b →
  (∃ b' : Balloon3D.t,
     balloonStore (hit id w).1 !! id = Some b' ∧
     Balloon3D.health b' = Balloon3D.health b - 1) ∧
  (Balloon3D.isAlive b = true → Balloon3D.health b ≤ 1 →
     (hit id w).2 = true ∧ balloonAlive (hit id w).1 id = false ∧
     ∃ evs1 evs2 : list Event,
       trace (hit id w).1 = trace w ++ evs1 ++ EvPlay CuePop :: evs2 ∧
       forallb quiet evs1 = true ∧ forallb quiet evs2 = true) ∧
  (Balloon3D.isAlive b = true → 1 < Balloon3D.health b →
     (hit id w).2 = false ∧ balloonAlive (hit id w).1 id = true ∧
     player (hit id w).1 = player w ∧ trace (hit id w).1 = trace w) ∧
  destroy id (destroy id w) = destroy id w ∧
  (∀ cs : list BalloonCall,
     let w' := fold_left (calls id) cs w in
     (player w' = player w ∧ trace w' = trace w) ∨
     (∃ h : Z,
        player w' = player (destroy id (withHealth id h w)) ∧
        trace w' = trace (destroy id (withHealth id h w)))).
Proof.
  intros Hb.
  pose proof (withHealth_lookup id (Balloon3D.health b - 1) b w Hb) as Hb1.
  rewrite (hit_unfold id b w Hb). cbn zeta.
  split; [| split; [| split; [| split]]].
  - destruct (Balloon3D.health b - 1 <=? 0); cbn [fst snd].
    + rewrite (destroy_lookup id _ _ Hb1). by eexists.
    + rewrite Hb1. by eexists.
  - intros Halive Hh.
    destruct (Z.leb_spec (Balloon3D.health b - 1) 0); [| lia]. cbn [fst snd].
    split; [done |]. split; [apply destroy_not_alive |].
    apply (destroy_live_trace id _ _ Hb1). by destruct b.
  - intros Halive Hh.
    destruct (Z.leb_spec (Balloon3D.health b - 1) 0); [lia |]. cbn [fst snd].
    repeat split. unfold balloonAlive. rewrite Hb1. by destruct b.
  - apply destroy_idempotent.
  - intros cs. by apply (calls_award_at_most_once id cs w b).
Qed.

(** C6 (as amended).  A hit on a destroyed balloon changes its hit
    points, which go down by one, and nothing else: the liveness flag,
    every other field of the balloon, the player, the power-up manager,
    the timers and the trace stay as they were. *)
Theorem hit_on_destroyed_only_decrements (w : World) (id : nat)
    (b : Balloon3D.t) :
  balloonStore w !! id = Some b →
  Balloon3D.isAlive b = false →
  (hit id w).1 = withHealth id (Balloon3D.health b - 1) w ∧
  balloonStore (hit id w).1 !! id =
    Some (Balloon3D.set_health (Balloon3D.health b - 1) b) ∧
  player (hit id w).1 = player w ∧
  powerUpManager (hit id w).1 = powerUpManager w ∧
  timers (hit id w).1 = timers w ∧
  trace (hit id w).1 = trace w ∧
  balloonAlive (hit id w).1 id = false.
Proof.
  intros Hb Hdead.
  pose proof (withHealth_lookup id (Balloon3D.health b - 1) b w Hb) as Hb1.
  assert ((hit id w).1 = withHealth id (Balloon3D.health b - 1) w) as ->.
  { rewrite (hit_unfold id b w Hb). cbn zeta.
    destruct (_ <=? 0); [| done]. cbn [fst snd].
    apply (destroy_dead id _ _ Hb1). by destruct b. }
  repeat split; try done.
  apply withHealth_dead. unfold balloonAlive. by rewrite Hb.
Qed.

End BalloonFacts.

Lemma balloon_hit_decrements_destroy_once_witness :
  let w := addBalloon 7 (balloonAt (-50) true 1 50 normal) initialWorld in
  let w' := (Balloon3D_hit alwaysShield delay100 7 w).1 in
  (Balloon3D.health <$> balloonStore w' !! 7%nat) = Some 0 ∧
  balloonAlive w' 7 = false ∧
  (score <$> player w') = Some 75.
Proof.
  pose proof (balloon_hit_decrements_destroy_once alwaysShield delay100
                (addBalloon 7 (balloonAt (-50) true 1 50 normal) initialWorld)
                7 (balloonAt (-50) true 1 50 normal) eq_refl)
    as ((b' & Hb' & Hh) & Hkill & _).
  destruct (Hkill eq_refl ltac:(simpl; lia)) as (_ & Hdead & _).
  split; [reflexivity | split; [exact Hdead | reflexivity]].
Defined.

Lemma hit_on_destroyed_only_decrements_witness :
  let w := addBalloon 7 (balloonAt 21 false 1 50 normal) initialWorld in
  let w' := (Balloon3D_hit alwaysShield delay100 7 w).1 in
  player w' = player w ∧ trace w' = trace w ∧ balloonAlive w' 7 = false.
Proof.
  pose proof (hit_on_destroyed_only_decrements alwaysShield delay100
                (addBalloon 7 (balloonAt 21 false 1 50 normal) initialWorld)
                7 (balloonAt 21 false 1 50 normal) eq_refl eq_refl)
    as (_ & _ & Hp & _ & _ & Ht & Hd).
  repeat split; assumption.
Defined.

(** C6, as stated, fails: a balloon that was destroyed at the near
    boundary with its one hit point left has 0 hit points after a further
    hit. *)
Lemma hit_on_destroyed_counterexample :
  let w := addBalloon 7 (balloonAt 21 false 1 50 normal) initialWorld in
  let w' := (Balloon3D_hit alwaysShield delay100 7 w).1 in
  balloonAlive w 7 = false ∧
  (Balloon3D.health <$> balloonStore w !! 7%nat) = Some 1 ∧
  (Balloon3D.health <$> balloonStore w' !! 7%nat) = Some 0 ∧
  w' ≠ w.
Proof.
  repeat split; try reflexivity.
  intros H.
  apply (f_equal (fun x => Balloon3D.health <$> balloonStore x !! 7%nat)) in H.
  vm_compute in H. discriminate.
Qed.

(** ** A balloon that crosses the near boundary *)

Section MissedFacts.

Variable randomPowerUpType : nat → PowerUpType.
Variable randomDelay : nat → Q.

Abbreviation destroy' := (Balloon3D_destroy randomPowerUpType randomDelay).
Abbreviation update := (Balloon3D_update randomPowerUpType randomDelay).

Lemma nearbyBalloons_ext (id : nat) (b : Balloon3D.t) (w w' : World) :
  balloons w' = balloons w →
  (∀ j, j ≠ id → balloonStore w' !! j = balloonStore w !! j) →
  nearbyBalloons id b w' = nearbyBalloons id b w.
Proof.
  intros Hl Hs. unfold nearbyBalloons. rewrite Hl. clear Hl.
  induction (balloons w) as [| j l IH]; [done |].
  cbn [List.filter]. rewrite IH.
  destruct (Nat.eqb_spec j id) as [-> | Hne]; [done |].
  rewrite (Hs j Hne). done.
Qed.

Lemma sameTally_awardBalloon (b : Balloon3D.t) (w : World)
    (p : PlayerState) :
  player w = Some p →
  sameTally
    (set_player
       (Some (Player.addScore (Balloon3D.points b)
                (Some (Balloon3D.position b)) p).1.1) w)
    (awardBalloon b w).
Proof.
  intros Hp. unfold awardBalloon, World_addScore. rewrite Hp.
  destruct (Player.addScore _ _ p) as [[p1 fp] evs]. cbn [fst].
  set (w1 := emit evs (set_player (Some p1) w)).
  assert (sameTally (set_player (Some p1) w) w1) as H1
    by (by apply sameTally_same_player).
  destruct (Balloon3D.type b); try exact H1.
  eapply sameTally_trans; [exact H1 |].
  apply sameTally_with_player. intros q. done.
Qed.

Lemma sameTally_triggerPowerUp (b : Balloon3D.t) (w : World) :
  sameTally w (triggerPowerUp randomPowerUpType b w).
Proof.
  unfold triggerPowerUp.
  destruct (Balloon3D.type b); try apply sameTally_refl.
  destruct (powerUpManager w); [| apply sameTally_refl].
  eapply sameTally_trans; [| apply sameTally_activate].
  by apply sameTally_same_player.
Qed.

(** Up to the pop, [destroy] changes the tally of the player by the
    score event of [addScore], once. *)
Lemma sameTally_beforePop (b : Balloon3D.t) (w : World) (p : PlayerState) :
  player w = Some p →
  sameTally
    (set_player
       (Some (Player.addScore (Balloon3D.points b)
                (Some (Balloon3D.position b)) p).1.1) w)
    (beforePop randomPowerUpType b w).
Proof.
  intros Hp.
  eapply sameTally_trans; [by apply sameTally_awardBalloon |].
  unfold beforePop.
  eapply sameTally_trans; [| apply sameTally_triggerPowerUp].
  by apply sameTally_same_player.
Qed.

(** What [destroy] on a live balloon without neighbours does to the
    tally of the player: the score event of [addScore], once. *)
Lemma destroy_live_player (id : nat) (b : Balloon3D.t) (w : World)
    (p : PlayerState) :
  balloonStore w !! id = Some b →
  Balloon3D.isAlive b = true →
  player w = Some p →
  nearbyBalloons id b w = [] →
  sameTally
    (set_player
       (Some (Player.addScore (Balloon3D.points b)
                (Some (Balloon3D.position b)) p).1.1) w)
    (destroy' id w).
Proof.
  intros Hb Halive Hp Hnear.
  rewrite (destroy_live_eq _ _ id b w Hb Halive).
  pose proof (sameScene_beforePop randomPowerUpType b w)
    as (Hstore & Hlist & _).
  rewrite checkVortexChain_alone with (b := b).
  - eapply sameTally_trans; [by apply sameTally_beforePop |].
    by apply sameTally_same_player.
  - world_simpl. by rewrite Hstore.
  - rewrite <- Hnear. apply nearbyBalloons_ext; world_simpl; [done |].
    intros j _. by rewrite Hstore.
Qed.


Lemma Qfloor_scaled_ge (n : Z) (d : Q) :
  0 ≤ n → (1 <= d)%Q → n ≤ Qfloor (Double.mul (inject_Z n) d).
Proof.
  intros Hn Hd. rewrite <- (Qfloor_Z n) at 1.
  apply Qfloor_resp_le. unfold Double.mul. apply round_ge_Z.
  assert (0 <= inject_Z n)%Q as Hn'
    by (change 0%Q with (inject_Z 0); rewrite <- Zle_Qle; exact Hn).
  nra.
Qed.

End MissedFacts.


(** ** The collision pass *)

(** C2, on the code: a player projectile within reach of two live drones
    hits both in one pass of [handleCollisions] (each goes from 2 hit
    points to 1), and within reach of two live armored balloons it hits
    both (each goes from 3 to 2): the liveness of the projectile is tested
    before each of the two loops and not inside them.  Within reach of a
    drone and a balloon it hits the drone and leaves the balloon. *)
Theorem handleCollisions_projectile_hits_twice :
  let collide := handleCollisions alwaysShield delay100 in
  let droneHealth (w : World) (id : nat) :=
    EnemyDrone3D.health <$> enemyStore w !! id in
  let balloonHealth (w : World) (id : nat) :=
    Balloon3D.health <$> balloonStore w !! id in
  (projectileAlive twoDronesWorld 1 = true ∧
   droneHealth twoDronesWorld 10%nat = Some 2 ∧
   droneHealth twoDronesWorld 11%nat = Some 2 ∧
   droneHealth (collide twoDronesWorld) 10%nat = Some 1 ∧
   droneHealth (collide twoDronesWorld) 11%nat = Some 1 ∧
   projectileAlive (collide twoDronesWorld) 1 = false ∧
   trace (collide twoDronesWorld) = [EvPlay CueEnemyHit; EvPlay CueEnemyHit]) ∧
  (projectileAlive twoArmoredWorld 1 = true ∧
   balloonHealth twoArmoredWorld 20%nat = Some 3 ∧
   balloonHealth twoArmoredWorld 21%nat = Some 3 ∧
   balloonHealth (collide twoArmoredWorld) 20%nat = Some 2 ∧
   balloonHealth (collide twoArmoredWorld) 21%nat = Some 2 ∧
   projectileAlive (collide twoArmoredWorld) 1 = false) ∧
  (droneHealth (collide droneAndBalloonWorld) 10%nat = Some 1 ∧
   balloonHealth (collide droneAndBalloonWorld) 20%nat = Some 1 ∧
   balloonAlive (collide droneAndBalloonWorld) 20 = true ∧
   projectileAlive (collide droneAndBalloonWorld) 1 = false).
Proof. vm_compute. repeat split. Qed.

(** * Further properties of the code *)

(** ** MathUtils *)

(** X1.  [clamp] returns a value between the bounds when they are in
    order, returns the value itself when it lies between them, and returns
    the lower bound when the bounds are crossed. *)
Theorem clamp_within_bounds (value lo hi : Q) :
  ((lo <= hi)%Q →
     (lo <= MathUtils.clamp value lo hi)%Q ∧
     (MathUtils.clamp value lo hi <= hi)%Q) ∧
  ((lo <= value)%Q → (value <= hi)%Q → MathUtils.clamp value lo hi == value) ∧
  ((hi < lo)%Q → MathUtils.clamp value lo hi == lo).
Proof.
  unfold MathUtils.clamp.
  pose proof (Q.le_max_l lo (Qmin hi value)) as Hl.
  pose proof (Q.le_min_l hi value) as Hm.
  pose proof (Q.le_min_r hi value) as Hm'.
  split; [| split].
  - intros Hle. split; [exact Hl |].
    apply Q.max_lub; [exact Hle | exact Hm].
  - intros H1 H2. rewrite (Q.min_r hi value H2). by apply Q.max_r.
  - intros Hlt. apply Q.max_l. lra.
Qed.

Lemma clamp_within_bounds_witness :
  (0 <= MathUtils.clamp (7 # 2) 0 1)%Q ∧ (MathUtils.clamp (7 # 2) 0 1 <= 1)%Q.
Proof.
  destruct (clamp_within_bounds (7 # 2) 0 1) as (H & _).
  apply H. discriminate.
Defined.

(** A number that lies below the middle of two neighbours [f < g], the
    lower of which is a Number, rounds below [g]. *)
Lemma round_lt_mid (x f g : Q) :
  (Qabs x <= Double.maxSafe)%Q → representable f →
  (f < g)%Q → (2 * x < f + g)%Q → (Double.round x < g)%Q.
Proof.
  intros Hx Hf Hfg Hmid.
  destruct (round_safe x Hx) as [_ Hn]. specialize (Hn f Hf).
  pose proof (Qle_Qabs (Double.round x - x)) as Ha.
  destruct (Qlt_le_dec f x) as [Hlt | Hle].
  - rewrite (Qabs_neg (f - x)) in Hn by lra. lra.
  - rewrite (Qabs_pos (f - x)) in Hn by lra. lra.
Qed.

(** A draw below 1 times a positive integer [n] rounds below [n]. *)
Lemma round_draw_lt (r : Q) (n : Z) :
  (0 <= r)%Q → (r <= belowOne)%Q → 1 ≤ n → n ≤ 2 ^ 53 →
  (Double.round (r * inject_Z n) < inject_Z n)%Q.
Proof.
  intros H0 H1 Hn1 Hn2.
  set (s := Z.log2_up n). set (t := 53 - s).
  assert (0 ≤ s) as Hs0 by apply Z.log2_up_nonneg.
  assert (n ≤ 2 ^ s) as Hns.
  { destruct (Z.eq_dec n 1) as [-> | Hne]; [done |].
    apply Z.log2_up_spec. lia. }
  assert (s ≤ 53) as Hs53.
  { destruct (Z_le_gt_dec s 53) as [H | H]; [exact H |].
    destruct (Z.eq_dec n 1) as [-> | Hne]; [vm_compute in s; lia |].
    pose proof (Z.log2_up_spec n ltac:(lia)) as [Hl _]. fold s in Hl.
    assert (2 ^ 53 ≤ 2 ^ Z.pred s) by (apply Z.pow_le_mono_r; lia). lia. }
  assert (2 ^ 52 < n * 2 ^ t) as Hlow.
  { destruct (Z.eq_dec n 1) as [-> | Hne]; [vm_compute; done |].
    pose proof (Z.log2_up_spec n ltac:(lia)) as [Hl _]. fold s in Hl.
    assert (0 < s) by (apply Z.log2_up_pos; lia).
    assert (2 ^ 52 = 2 ^ Z.pred s * 2 ^ t) as ->.
    { rewrite <- Z.pow_add_r by lia. f_equal. lia. }
    apply Z.mul_lt_mono_pos_r; [apply Z.pow_pos_nonneg; lia | exact Hl]. }
  assert (n * 2 ^ t ≤ 2 ^ 53) as Hup.
  { assert (2 ^ 53 = 2 ^ s * 2 ^ t) as ->.
    { rewrite <- Z.pow_add_r by lia. f_equal. lia. }
    apply Z.mul_le_mono_nonneg_r; [apply Z.pow_nonneg; lia | exact Hns]. }
  assert (0 < inject_Z (2 ^ t))%Q as Hp
    by (apply inject_Z_pos, Z.pow_pos_nonneg; lia).
  set (f := (inject_Z (n * 2 ^ t - 1) / inject_Z (2 ^ t))%Q).
  assert (f == inject_Z n - / inject_Z (2 ^ t))%Q as Ef.
  { unfold f. replace (n * 2 ^ t - 1) with (n * 2 ^ t + - (1)) by lia.
    rewrite inject_Z_plus, inject_Z_mult, inject_Z_opp.
    change (inject_Z 1) with 1%Q. field. lra. }
  assert (1 <= inject_Z n)%Q as Hq1
    by (change 1%Q with (inject_Z 1); rewrite <- Zle_Qle; exact Hn1).
  assert (inject_Z n <= inject_Z (2 ^ 53))%Q as Hq2
    by (rewrite <- Zle_Qle; exact Hn2).
  assert (0 < / inject_Z (2 ^ t))%Q as Hinv by (by apply Qinv_lt_0_compat).
  apply (round_lt_mid _ f).
  - unfold belowOne in H1. rewrite Qabs_pos by nra.
    unfold Double.maxSafe. nra.
  - exists (n * 2 ^ t - 1), (- t). split; [lia |]. split; [lia |].
    unfold f, Qdiv. rewrite Qpower_opp, pow2_Z by lia. reflexivity.
  - lra.
  - rewrite Ef.
    assert (inject_Z (2 ^ 52) < inject_Z (n * 2 ^ t))%Q as Hl'
      by (rewrite <- Zlt_Qlt; exact Hlow).
    rewrite inject_Z_mult in Hl'.
    assert (/ inject_Z (2 ^ t) * inject_Z (2 ^ t) == 1)%Q as Ei
      by (field; lra).
    change (inject_Z (2 ^ 52)) with (4503599627370496 # 1)%Q in Hl'.
    unfold belowOne in H1.
    assert (/ inject_Z (2 ^ t) < inject_Z n * (1 # 4503599627370496))%Q as Hd.
    { set (i := (/ inject_Z (2 ^ t))%Q) in *.
      set (p := inject_Z (2 ^ t)) in *.
      apply Qnot_le_lt. intros Hc.
      assert (i * p >= inject_Z n * (1 # 4503599627370496) * p)%Q
        by (apply Qmult_le_compat_r; lra).
      lra. }
    assert (r * inject_Z n <= belowOne * inject_Z n)%Q as Hm
      by (apply Qmult_le_compat_r; [exact H1 | lra]).
    unfold belowOne in Hm. lra.
Qed.

(** X2.  [lerp] on binary64 Numbers: at factor 0 it returns the start; for
    an ordered start and end and a factor that is not negative the result
    is not below the start; at factor 1 the result need not be the end, and
    can lie above it. *)
Theorem lerp_interpolates (start end_ factor : Q) :
  representable start →
  MathUtils.lerp start end_ 0 == start ∧
  ((start <= end_)%Q → (0 <= factor)%Q →
     (start <= MathUtils.lerp start end_ factor)%Q) ∧
  (let a := (2411035995745543 # 70368744177664)%Q in
   let b := (7603188099862387 # 35184372088832)%Q in
   Double.round a == a ∧ Double.round b == b ∧
   (b < MathUtils.lerp a b 1)%Q).
Proof.
  intros Hrep. unfold MathUtils.lerp, Double.add, Double.mul, Double.sub.
  split; [| split].
  - rewrite Qmult_0_r, round_0, Qplus_0_r. by apply round_exact.
  - intros H1 H2. rewrite <- (round_exact start Hrep) at 1.
    apply round_monotone.
    assert (0 <= Double.round (end_ - start))%Q as H3
      by (apply round_nonneg; lra).
    assert (0 <= Double.round (Double.round (end_ - start) * factor))%Q as H4
      by (apply round_nonneg; nra).
    lra.
  - vm_compute. done.
Qed.

Lemma lerp_interpolates_witness :
  MathUtils.lerp 2 10 0 == 2 ∧
  (2 <= MathUtils.lerp 2 10 (1 # 4))%Q.
Proof.
  destruct (lerp_interpolates 2 10 (1 # 4)) as (H0 & H & _).
  - apply (representable_Z 2). vm_compute. discriminate.
  - split; [exact H0 | apply H; discriminate].
Defined.

(** X3.  For a draw [r] of [Math.random()], a Number from 0 up to the
    largest Number below 1, [random(min, max)] is not below a [min] that is
    a Number, and [randomInt(min, max)] is an integer from [min] to [max],
    both ends included, for up to 2^53 integers.  [random] can return
    [max] itself: with the largest draw that V8 makes, [random(0.1, 0.4)]
    is 0.4. *)
Theorem random_in_range (r : Q) :
  (0 <= r)%Q → (r <= belowOne)%Q →
  (∀ lo hi : Q, representable lo → (lo <= hi)%Q →
     (lo <= MathUtils.random r lo hi)%Q) ∧
  (∀ lo hi : Z, lo ≤ hi → hi - lo < 2 ^ 53 →
     lo ≤ MathUtils.randomInt r lo hi ∧ MathUtils.randomInt r lo hi ≤ hi) ∧
  MathUtils.random (4503599627370495 # 4503599627370496)
    (Double.round (1 # 10)) (Double.round (4 # 10))
    == Double.round (4 # 10).
Proof.
  intros H0 H1. split; [| split].
  - intros lo hi Hrep Hle.
    unfold MathUtils.random, Double.add, Double.mul, Double.sub.
    rewrite <- (round_exact lo Hrep) at 1. apply round_monotone.
    assert (0 <= Double.round (hi - lo))%Q as H3
      by (apply round_nonneg; lra).
    assert (0 <= Double.round (r * Double.round (hi - lo)))%Q as H4
      by (apply round_nonneg; nra).
    lra.
  - intros lo hi Hle Hsz. unfold MathUtils.randomInt, Double.mul.
    set (n := hi - lo + 1).
    assert (1 <= inject_Z n)%Q as Hn.
    { change 1%Q with (inject_Z 1). rewrite <- Zle_Qle. lia. }
    assert (0 ≤ Qfloor (Double.round (r * inject_Z n))) as Hlow.
    { change 0 with (Qfloor (inject_Z 0)). apply Qfloor_resp_le.
      apply round_ge_Z. change (inject_Z 0) with 0%Q. nra. }
    assert (Qfloor (Double.round (r * inject_Z n)) < n) as Hup.
    { rewrite Zlt_Qlt.
      eapply Qle_lt_trans; [apply Qfloor_le |].
      apply round_draw_lt; [exact H0 | exact H1 | lia | lia]. }
    lia.
  - vm_compute. done.
Qed.

Lemma random_in_range_witness :
  0 ≤ MathUtils.randomInt (99 # 100) 0 4 ∧ MathUtils.randomInt (99 # 100) 0 4 ≤ 4.
Proof.
  destruct (random_in_range (99 # 100)) as (_ & H & _);
    [discriminate | discriminate |].
  apply H; [lia | reflexivity].
Defined.

(** ** The game controller *)

Lemma Qmax_between (lo x : Q) :
  (lo <= 1)%Q → (x <= 1)%Q → (lo <= Qmax lo x)%Q ∧ (Qmax lo x <= 1)%Q.
Proof.
  intros H1 H2. split; [apply Q.le_max_l | by apply Q.max_lub].
Qed.

Lemma multiplier_antitone (lo step : Q) (a b : Z) :
  (0 <= step)%Q → a ≤ b →
  (Qmax lo (1 - inject_Z (b - 1) * step)
     <= Qmax lo (1 - inject_Z (a - 1) * step))%Q.
Proof.
  intros Hs Hab. apply Q.max_le_compat_l.
  assert (inject_Z (a - 1) <= inject_Z (b - 1))%Q
    by (rewrite <- Zle_Qle; lia).
  nra.
Qed.

Lemma multiplier_le_1 (lo step : Q) (a : Z) :
  (lo <= 1)%Q → (0 <= step)%Q → 1 ≤ a →
  (lo <= Qmax lo (1 - inject_Z (a - 1) * step))%Q ∧
  (Qmax lo (1 - inject_Z (a - 1) * step) <= 1)%Q.
Proof.
  intros Hlo Hs Ha. apply Qmax_between; [exact Hlo |].
  assert (inject_Z 0 <= inject_Z (a - 1))%Q by (rewrite <- Zle_Qle; lia).
  change (inject_Z 0) with 0%Q in *. nra.
Qed.

Lemma scaled_between (base a b la lb : Q) :
  (0 <= base)%Q → (0 <= la)%Q → (0 <= lb)%Q →
  (la <= a)%Q → (a <= 1)%Q → (lb <= b)%Q → (b <= 1)%Q →
  (la * lb * base <= base * a * b)%Q ∧ (base * a * b <= base)%Q.
Proof.
  intros Hb Hla Hlb Ha Ha1 Hb0 Hb1.
  assert (la * lb <= a * b)%Q as H1 by nra.
  assert (a * b <= 1)%Q as H2 by nra.
  assert (0 <= a * b)%Q as H3 by nra.
  assert (base * a * b == a * b * base)%Q as E by ring.
  rewrite E. split.
  - apply Qmult_le_compat_r; [exact H1 | exact Hb].
  - rewrite <- (Qmult_1_l base) at 2.
    apply Qmult_le_compat_r; [exact H2 | exact Hb].
Qed.

(** X4.  From level 1 and wave 1 on, the interval between two balloons is
    between 15% of the base rate and the base rate, and it does not grow
    when the level or the wave goes up; the interval between two enemies
    is between 20% of its base rate and the base rate. *)
Theorem spawn_rates_bounded (baseRate : Q) (level wave : Z) :
  (0 <= baseRate)%Q → 1 ≤ level → 1 ≤ wave →
  ((3 # 20) * baseRate <= calculateBalloonSpawnRate baseRate level wave)%Q ∧
  (calculateBalloonSpawnRate baseRate level wave <= baseRate)%Q ∧
  (∀ level' wave' : Z, level ≤ level' → wave ≤ wave' →
     (calculateBalloonSpawnRate baseRate level' wave'
        <= calculateBalloonSpawnRate baseRate level wave)%Q) ∧
  ((1 # 5) * baseRate <= calculateEnemySpawnRate baseRate level wave)%Q ∧
  (calculateEnemySpawnRate baseRate level wave <= baseRate)%Q.
Proof.
  intros Hb Hl Hw.
  unfold calculateBalloonSpawnRate, calculateEnemySpawnRate.
  destruct (multiplier_le_1 (1 # 2) (1 # 10) level) as [La Ua]; try done.
  destruct (multiplier_le_1 (3 # 10) (1 # 20) wave) as [Lb Ub]; try done.
  destruct (multiplier_le_1 (2 # 5) (3 # 20) level) as [Lc Uc]; try done.
  destruct (multiplier_le_1 (1 # 2) (1 # 10) wave) as [Ld Ud]; try done.
  cbn zeta.
  set (a := Qmax (1 # 2) (1 - inject_Z (level - 1) * (1 # 10))) in *.
  set (b := Qmax (3 # 10) (1 - inject_Z (wave - 1) * (1 # 20))) in *.
  set (c := Qmax (2 # 5) (1 - inject_Z (level - 1) * (3 # 20))) in *.
  set (d := Qmax (1 # 2) (1 - inject_Z (wave - 1) * (1 # 10))) in *.
  destruct (scaled_between baseRate a b (1 # 2) (3 # 10)) as [B1 B2];
    try done.
  destruct (scaled_between baseRate c d (2 # 5) (1 # 2)) as [E1 E2];
    try done.
  split; [nra |]. split; [exact B2 |]. split; [| split; [nra | exact E2]].
  intros level' wave' Hl' Hw'.
  pose proof (multiplier_antitone (1 # 2) (1 # 10) level level'
                ltac:(discriminate) Hl') as Ha'.
  pose proof (multiplier_antitone (3 # 10) (1 # 20) wave wave'
                ltac:(discriminate) Hw') as Hb'.
  destruct (multiplier_le_1 (1 # 2) (1 # 10) level') as [La' _];
    [done | done | lia |].
  destruct (multiplier_le_1 (3 # 10) (1 # 20) wave') as [Lb' _];
    [done | done | lia |].
  fold a in Ha'. fold b in Hb'.
  set (a' := Qmax (1 # 2) (1 - inject_Z (level' - 1) * (1 # 10))) in *.
  set (b' := Qmax (3 # 10) (1 - inject_Z (wave' - 1) * (1 # 20))) in *.
  assert (a' * b' <= a * b)%Q as Hab.
  { apply Qle_trans with (a * b')%Q.
    - apply Qmult_le_compat_r; [exact Ha' | lra].
    - rewrite !(Qmult_comm a). apply Qmult_le_compat_r; [exact Hb' | lra]. }
  assert (baseRate * a' * b' == a' * b' * baseRate)%Q as E' by ring.
  assert (baseRate * a * b == a * b * baseRate)%Q as E by ring.
  rewrite E, E'.
  apply Qmult_le_compat_r; [exact Hab | exact Hb].
Qed.

Lemma spawn_rates_bounded_witness :
  (150 <= calculateBalloonSpawnRate 1000 9 30)%Q ∧
  (calculateBalloonSpawnRate 1000 9 30 <= 1000)%Q.
Proof.
  destruct (spawn_rates_bounded 1000 9 30) as (H1 & H2 & _);
    [discriminate | lia | lia |].
  split; [| exact H2].
  eapply Qle_trans; [| exact H1]. discriminate.
Defined.

Lemma frameDeltaTime_bounds (currentTime lastFrame : Z) :
  lastFrame ≤ currentTime →
  (0 <= frameDeltaTime currentTime lastFrame)%Q ∧
  (frameDeltaTime currentTime lastFrame <= 1 # 30)%Q ∧
  (frameDeltaTime currentTime lastFrame
     <= inject_Z (currentTime - lastFrame) / 1000)%Q.
Proof.
  intros Hle. unfold frameDeltaTime.
  assert (0 <= inject_Z (currentTime - lastFrame) / 1000)%Q as H0.
  { apply Qle_shift_div_l; [reflexivity |]. rewrite Qmult_0_l.
    change 0%Q with (inject_Z 0). rewrite <- Zle_Qle. lia. }
  split; [apply Q.min_glb; [exact H0 | discriminate] |].
  split; [apply Q.le_min_r | apply Q.le_min_l].
Qed.

Lemma gameLoop_clock (s : Loop) (t : Z) :
  lastFrameTime (gameLoop s t) = t ∧
  simulatedTime (gameLoop s t)
    == simulatedTime s + frameDeltaTime t (lastFrameTime s).
Proof.
  unfold gameLoop.
  destruct (GameFlow.update t (flow s) (loopPlayer s)) as [[g pl] evs].
  cbn [lastFrameTime simulatedTime]. split; [done | apply Qred_correct].
Qed.

(** X5.  Over frames whose times do not run backwards, the simulated
    time handed to the game never decreases, never grows by more than the
    wall-clock time that has passed since the last frame before them, and
    never by more than 1/30 s a frame. *)
Theorem simulated_time_behind_wall_clock (times : list Z) :
  ∀ s : Loop,
    ascending (lastFrameTime s) times →
    let s' := fold_left gameLoop times s in
    (simulatedTime s <= simulatedTime s')%Q ∧
    (simulatedTime s'
       <= simulatedTime s
          + inject_Z (lastFrameTime s' - lastFrameTime s) / 1000)%Q ∧
    (simulatedTime s'
       <= simulatedTime s + inject_Z (Z.of_nat (length times)) / 30)%Q.
Proof.
  induction times as [| t times IH]; intros s Hasc; cbn [fold_left length].
  - cbn zeta. rewrite Z.sub_diag. unfold Qdiv.
    change (inject_Z 0) with 0%Q. change (inject_Z (Z.of_nat 0)) with 0%Q.
    split; [apply Qle_refl |]. split; lra.
  - destruct Hasc as [Hle Hasc].
    destruct (gameLoop_clock s t) as [Hlast Hsim].
    destruct (frameDeltaTime_bounds t (lastFrameTime s) Hle)
      as (Hd0 & Hd1 & Hd2).
    rewrite <- Hlast in Hasc.
    destruct (IH (gameLoop s t) Hasc) as (I1 & I2 & I3).
    cbn zeta in *. rewrite Hsim in I1, I2, I3. rewrite Hlast in I2.
    set (s' := fold_left gameLoop times (gameLoop s t)) in *.
    set (d := frameDeltaTime t (lastFrameTime s)) in *.
    assert (inject_Z (lastFrameTime s' - lastFrameTime s) / 1000
            == inject_Z (lastFrameTime s' - t) / 1000
               + inject_Z (t - lastFrameTime s) / 1000)%Q as E1.
    { pose proof (inject_Z_plus (lastFrameTime s' - t) (t - lastFrameTime s))
        as Hp.
      replace (lastFrameTime s' - t + (t - lastFrameTime s))
        with (lastFrameTime s' - lastFrameTime s) in Hp by lia.
      rewrite Hp. unfold Qdiv. ring. }
    assert (inject_Z (Z.of_nat (S (length times))) / 30
            == inject_Z (Z.of_nat (length times)) / 30 + (1 # 30))%Q as E2.
    { rewrite Nat2Z.inj_succ. unfold Z.succ.
      rewrite (inject_Z_plus (Z.of_nat (length times)) 1).
      change (inject_Z 1) with 1%Q. field. }
    rewrite E1, E2. split; [lra |]. split; lra.
Qed.

Lemma simulated_time_behind_wall_clock_witness :
  let s' := fold_left gameLoop [10; 500; 510] firstGame in
  (simulatedTime s' <= inject_Z (510 - 0) / 1000)%Q ∧
  (simulatedTime s' <= inject_Z 3 / 30)%Q.
Proof.
  destruct (simulated_time_behind_wall_clock [10; 500; 510] firstGame)
    as (_ & H2 & H3).
  - vm_compute. repeat split; discriminate.
  - split.
    + eapply Qle_trans; [exact H2 |]. vm_compute. discriminate.
    + eapply Qle_trans; [exact H3 |]. vm_compute. discriminate.
Defined.

(** ** The object pool, continued *)

Section PoolMore.

Context {T : Type}.
Variable createFn : nat → T.
Variable resetFn : T → T.

Abbreviation Pool' := (ObjectPool.t T).
Abbreviation release' := (ObjectPool.release T resetFn).
Abbreviation acquire' := (ObjectPool.acquire T createFn).
Abbreviation releaseAll' := (ObjectPool.releaseAll T resetFn).
Abbreviation after' := (ObjectPool.after T createFn resetFn).

Lemma populate1_accounted (n : nat) (p : Pool') :
  pool_accounted n p → pool_accounted (S n) (ObjectPool.populate1 T createFn p).
Proof.
  intros (Hc & Hn & Ho). unfold pool_accounted, ObjectPool.populate1.
  cbn [ObjectPool.pool ObjectPool.active ObjectPool.created
       ObjectPool.objects].
  rewrite length_app. cbn [length]. split; [lia |]. split; [lia |].
  intros x Hx. destruct (decide (ObjectPool.created T p = x)) as [<- | Hne].
  - rewrite lookup_insert_eq. by eexists.
  - rewrite lookup_insert_ne by done. apply Ho. lia.
Qed.

Lemma new_accounted (n : nat) : pool_accounted n (ObjectPool.new T createFn n).
Proof.
  unfold ObjectPool.new. induction n as [| n IH]; simpl.
  - split; [done |]. split; [done |]. intros x Hx. simpl in Hx. lia.
  - by apply populate1_accounted.
Qed.

Lemma acquire_accounted (n : nat) (p : Pool') :
  pool_accounted n p → pool_accounted n (acquire' p).2.
Proof.
  intros (Hc & Hn & Ho). unfold pool_accounted, ObjectPool.acquire.
  destruct (last (ObjectPool.pool T p)) as [obj |] eqn:Hlast;
    cbn [snd ObjectPool.pool ObjectPool.active ObjectPool.created
         ObjectPool.objects].
  - apply last_Some in Hlast as [l' Hl']. rewrite Hl' in *.
    rewrite removelast_last. rewrite !length_app in *. cbn [length] in *.
    split; [lia |]. split; [lia | exact Ho].
  - rewrite length_app. cbn [length]. split; [lia |]. split; [lia |].
    intros x Hx. destruct (decide (ObjectPool.created T p = x)) as [<- | Hne].
    + rewrite lookup_insert_eq. by eexists.
    + rewrite lookup_insert_ne by done. apply Ho. lia.
Qed.

Lemma release_accounted (n obj : nat) (p : Pool') :
  pool_accounted n p → pool_accounted n (release' obj p).
Proof.
  intros (Hc & Hn & Ho). unfold pool_accounted, ObjectPool.release.
  destruct (indexOf obj (ObjectPool.active T p)) as [i |] eqn:Hi; [| done].
  cbn [ObjectPool.pool ObjectPool.active ObjectPool.created
       ObjectPool.objects].
  apply indexOf_Some in Hi.
  assert (i < length (ObjectPool.active T p))%nat
    by (eapply lookup_lt_Some; exact Hi).
  rewrite length_app, length_delete by (by eexists). cbn [length].
  split; [lia |]. split; [lia |].
  intros x Hx. destruct (decide (obj = x)) as [<- | Hne].
  - rewrite lookup_alter_eq. destruct (Ho obj Hx) as [o ->]. by eexists.
  - rewrite lookup_alter_ne by done. by apply Ho.
Qed.

Lemma releaseAll_loop_accounted (n k : nat) :
  ∀ p : Pool',
    pool_accounted n p →
    pool_accounted n (ObjectPool.releaseAll_loop T resetFn k p).
Proof.
  induction k as [| k IH]; intros p Hp; simpl; [done |].
  destruct (ObjectPool.active T p); [done |].
  by apply IH, release_accounted.
Qed.

(** X6.  In every pool reached from the constructor the free list and
    the active list together hold exactly the objects created so far, at
    least the initial size, each reference denotes an object, and a new
    pool has all of its [initialSize] objects free. *)
Theorem pool_counts_objects (initialSize : nat)
    (history : list ObjectPool.Call) :
  let p := after' initialSize history in
  (ObjectPool.getPoolCount T p + ObjectPool.getActiveCount T p
   = ObjectPool.created T p)%nat ∧
  (initialSize ≤ ObjectPool.created T p)%nat ∧
  (∀ x : nat, x ∈ ObjectPool.pool T p ++ ObjectPool.active T p →
     is_Some (ObjectPool.objects T p !! x)) ∧
  ObjectPool.getPoolCount T (after' initialSize []) = initialSize ∧
  ObjectPool.getActiveCount T (after' initialSize []) = O.
Proof.
  assert (∀ h p, pool_accounted initialSize p →
            pool_accounted initialSize
              (fold_left (ObjectPool.call T createFn resetFn) h p)) as Hfold.
  { induction h as [| c h IH]; intros p Hp; simpl; [done |].
    apply IH. destruct c; simpl.
    - by apply acquire_accounted.
    - by apply release_accounted.
    - by apply releaseAll_loop_accounted. }
  pose proof (Hfold history _ (new_accounted initialSize)) as (Hc & Hn & Ho).
  destruct (after_wf createFn resetFn initialSize history) as [_ Hlt].
  pose proof (new_accounted initialSize) as (Hc0 & _ & _).
  destruct (new_wf createFn initialSize) as [_ Hlt0].
  cbn zeta. unfold ObjectPool.getPoolCount, ObjectPool.getActiveCount.
  split; [exact Hc |]. split; [exact Hn |]. split.
  - intros x Hx. apply Ho. rewrite Forall_forall in Hlt. by apply Hlt.
  - unfold ObjectPool.after. cbn [fold_left].
    assert (ObjectPool.active T (ObjectPool.new T createFn initialSize) = [])
      as Hact.
    { unfold ObjectPool.new. clear. induction initialSize as [| n IH];
        [done | simpl; exact IH]. }
    assert (ObjectPool.created T (ObjectPool.new T createFn initialSize)
            = initialSize) as Hcr.
    { unfold ObjectPool.new. clear. induction initialSize as [| n IH];
        [done | simpl; by rewrite IH]. }
    rewrite Hact in *. cbn [length] in *. split; [lia | done].
Qed.

(** X7.  In a pool reached from the constructor [acquire] hands out an
    object that is not active yet and appends it to the active list, which
    stays free of duplicates; with an empty free list it constructs a new
    object instead of failing. *)
Theorem acquire_never_aliases (initialSize : nat)
    (history : list ObjectPool.Call) :
  let p := after' initialSize history in
  let obj := (acquire' p).1 in
  let p' := (acquire' p).2 in
  (obj ∉ ObjectPool.active T p) ∧
  ObjectPool.active T p' = ObjectPool.active T p ++ [obj] ∧
  NoDup (ObjectPool.active T p') ∧
  is_Some (ObjectPool.objects T p' !! obj) ∧
  (ObjectPool.pool T p = [] →
     obj = ObjectPool.created T p ∧
     ObjectPool.objects T p' !! obj = Some (createFn obj) ∧
     ObjectPool.created T p' = S (ObjectPool.created T p)).
Proof.
  intros p obj p'.
  pose proof (after_wf createFn resetFn initialSize history) as Hwf.
  fold p in Hwf.
  pose proof (acquire_wf createFn p Hwf) as [Hnd' _]. fold p' in Hnd'.
  destruct Hwf as [Hnd Hlt].
  assert (pool_accounted initialSize p') as (_ & _ & Ho').
  { subst p'. apply acquire_accounted.
    assert (∀ h q, pool_accounted initialSize q →
              pool_accounted initialSize
                (fold_left (ObjectPool.call T createFn resetFn) h q)) as Hfold.
    { induction h as [| c h IH]; intros q Hq; simpl; [done |].
      apply IH. destruct c; simpl.
      - by apply acquire_accounted.
      - by apply release_accounted.
      - by apply releaseAll_loop_accounted. }
    apply Hfold, new_accounted. }
  subst obj p'. unfold ObjectPool.acquire in *.
  destruct (last (ObjectPool.pool T p)) as [o |] eqn:Hlast;
    cbn [fst snd ObjectPool.pool ObjectPool.active ObjectPool.created
         ObjectPool.objects] in *.
  - apply last_Some in Hlast as [l' Hl'].
    split.
    { rewrite Hl' in Hnd. apply NoDup_app in Hnd as (_ & Hdis & _).
      apply Hdis. apply elem_of_app. right. apply list_elem_of_singleton.
      done. }
    split; [done |].
    split; [by apply NoDup_app in Hnd' as (_ & _ & ?) |].
    split.
    { apply Ho'. rewrite Forall_forall in Hlt. apply Hlt.
      rewrite Hl'. apply elem_of_app. left. apply elem_of_app. right.
      by apply list_elem_of_singleton. }
    intros Hempty. rewrite Hempty in Hl'. by destruct l'.
  - split.
    { intros Hin. rewrite Forall_forall in Hlt.
      assert (ObjectPool.created T p < ObjectPool.created T p)%nat; [| lia].
      apply Hlt. apply elem_of_app. by right. }
    split; [done |].
    split; [by apply NoDup_app in Hnd' as (_ & _ & ?) |].
    split; [rewrite lookup_insert_eq; by eexists |].
    intros _. split; [done |]. split; [apply lookup_insert_eq | done].
Qed.

(** X8.  Releasing an active object and acquiring next returns that same
    object, reset once: the free list is used last in, first out. *)
Theorem release_then_acquire_reuses (p : Pool') (obj : nat) :
  obj ∈ ObjectPool.active T p →
  let r :=
    ObjectPool.acquire T createFn (ObjectPool.release T resetFn obj p) in
  r.1 = obj ∧
  ObjectPool.pool T r.2 = ObjectPool.pool T p ∧
  ObjectPool.active T r.2 ≡ₚ ObjectPool.active T p ∧
  ObjectPool.objects T r.2 !! obj
    = resetFn <$> ObjectPool.objects T p !! obj ∧
  ObjectPool.created T r.2 = ObjectPool.created T p.
Proof.
  intros Hin. cbn zeta. unfold ObjectPool.release.
  destruct (indexOf obj (ObjectPool.active T p)) as [i |] eqn:Hi.
  - apply indexOf_Some in Hi. unfold ObjectPool.acquire.
    cbn [ObjectPool.pool ObjectPool.active ObjectPool.created
         ObjectPool.objects].
    rewrite last_snoc.
    cbn [fst snd ObjectPool.pool ObjectPool.active ObjectPool.created
         ObjectPool.objects].
    rewrite removelast_last.
    split; [done |]. split; [done |]. split.
    + rewrite <- Permutation_cons_append. symmetry.
      by apply delete_Permutation.
    + split; [apply lookup_alter_eq | done].
  - apply indexOf_None in Hi. done.
Qed.

Lemma releaseAll_loop_spec (k : nat) :
  ∀ p : Pool',
    (length (ObjectPool.active T p) ≤ k)%nat →
    let p' := ObjectPool.releaseAll_loop T resetFn k p in
    ObjectPool.active T p' = [] ∧
    ObjectPool.pool T p' = ObjectPool.pool T p ++ ObjectPool.active T p ∧
    ObjectPool.created T p' = ObjectPool.created T p ∧
    (∀ x, x ∉ ObjectPool.active T p →
       ObjectPool.objects T p' !! x = ObjectPool.objects T p !! x) ∧
    (NoDup (ObjectPool.active T p) →
     ∀ x, x ∈ ObjectPool.active T p →
       ObjectPool.objects T p' !! x = resetFn <$> ObjectPool.objects T p !! x).
Proof.
  induction k as [| k IH]; intros p Hlen; cbn [ObjectPool.releaseAll_loop].
  - destruct (ObjectPool.active T p) as [| a l] eqn:Hact;
      [| simpl in Hlen; lia].
    cbn zeta. rewrite ?Hact, app_nil_r. repeat split; try done.
    intros _ x Hx. by apply elem_of_nil in Hx.
  - destruct (ObjectPool.active T p) as [| a l] eqn:Hact.
    + cbn zeta. rewrite ?Hact, app_nil_r. repeat split; try done.
      intros _ x Hx. by apply elem_of_nil in Hx.
    + set (p1 := release' a p).
      assert (ObjectPool.active T p1 = l ∧
              ObjectPool.pool T p1 = ObjectPool.pool T p ++ [a] ∧
              ObjectPool.created T p1 = ObjectPool.created T p ∧
              ObjectPool.objects T p1 = alter resetFn a (ObjectPool.objects T p))
        as (Ha1 & Hp1 & Hc1 & Ho1).
      { subst p1. unfold ObjectPool.release. rewrite Hact. simpl.
        rewrite Nat.eqb_refl. simpl. done. }
      destruct (IH p1) as (I1 & I2 & I3 & I4 & I5);
        [rewrite Ha1; simpl in Hlen; lia |].
      cbn zeta in *. rewrite Ha1, Hp1, Hc1, Ho1 in *.
      split; [exact I1 |].
      split; [by rewrite I2, <- (assoc_L (++)) |].
      split; [exact I3 |]. split.
      * intros x Hx. apply not_elem_of_cons in Hx as [Hxa Hxl].
        rewrite (I4 x Hxl). by rewrite lookup_alter_ne.
      * intros Hnd x Hx. apply NoDup_cons in Hnd as [Hal Hnd].
        apply elem_of_cons in Hx as [-> | Hx].
        -- rewrite (I4 a Hal). apply lookup_alter_eq.
        -- rewrite (I5 Hnd x Hx). rewrite lookup_alter_ne; [done |].
           intros ->. done.
Qed.

(** X9.  [releaseAll] ends with an empty active list; the free list has
    gained the active objects in their order; objects that were not active
    are untouched, and in a pool without duplicates each active object has
    been reset exactly once. *)
Theorem releaseAll_drains_active (p : Pool') :
  let p' := ObjectPool.releaseAll T resetFn p in
  ObjectPool.active T p' = [] ∧
  ObjectPool.pool T p' = ObjectPool.pool T p ++ ObjectPool.active T p ∧
  ObjectPool.created T p' = ObjectPool.created T p ∧
  (∀ x, x ∉ ObjectPool.active T p →
     ObjectPool.objects T p' !! x = ObjectPool.objects T p !! x) ∧
  (NoDup (ObjectPool.active T p) →
   ∀ x, x ∈ ObjectPool.active T p →
     ObjectPool.objects T p' !! x = resetFn <$> ObjectPool.objects T p !! x).
Proof. apply releaseAll_loop_spec. done. Qed.

End PoolMore.

Lemma release_then_acquire_reuses_witness :
  let p := (ObjectPool.acquire bool (fun _ => true)
              (ObjectPool.acquire bool (fun _ => true)
                 (ObjectPool.new bool (fun _ => true) 3)).2).2 in
  ObjectPool.active bool p = [2%nat; 1%nat] ∧
  (ObjectPool.acquire bool (fun _ => true)
     (ObjectPool.release bool negb 2 p)).1 = 2%nat.
Proof.
  split; [reflexivity |].
  apply (release_then_acquire_reuses (fun _ => true) negb).
  vm_compute. apply elem_of_cons. by left.
Defined.

Lemma releaseAll_drains_active_witness :
  let p := (ObjectPool.acquire bool (fun _ => true)
              (ObjectPool.acquire bool (fun _ => true)
                 (ObjectPool.new bool (fun _ => true) 3)).2).2 in
  let p' := ObjectPool.releaseAll bool negb p in
  ObjectPool.active bool p' = [] ∧
  ObjectPool.pool bool p' = [0%nat; 2%nat; 1%nat] ∧
  ObjectPool.objects bool p' !! 2%nat = Some false.
Proof.
  destruct (releaseAll_drains_active negb
              (ObjectPool.acquire bool (fun _ => true)
                 (ObjectPool.acquire bool (fun _ => true)
                    (ObjectPool.new bool (fun _ => true) 3)).2).2)
    as (H1 & H2 & _ & _ & H5).
  split; [exact H1 |]. split; [exact H2 |].
  rewrite H5; [reflexivity | |].
  - vm_compute. apply (bool_decide_unpack _). reflexivity.
  - vm_compute. apply elem_of_cons. by left.
Defined.

(** ** The player state, continued *)

Lemma addScore_combo (points : Z) (position : option Vector3)
    (p : PlayerState) :
  let r := Player.addScore points position p in
  currentCombo (stats r.1.1) = currentCombo (stats p) + 1 ∧
  maxCombo (stats r.1.1)
    = Z.max (maxCombo (stats p)) (currentCombo (stats p) + 1) ∧
  health r.1.1 = health p ∧ shields r.1.1 = shields p ∧
  maxHealth r.1.1 = maxHealth p ∧ maxShields r.1.1 = maxShields p.
Proof.
  pose proof (applyDepthBonus_spec points position p)
    as (_ & _ & Hc & Hm & _).
  assert (let q := (Player.applyDepthBonus points position p).1.1 in
          health q = health p ∧ shields q = shields p ∧
          maxHealth q = maxHealth p ∧ maxShields q = maxShields p) as Hq.
  { unfold Player.applyDepthBonus. destruct position as [pos |]; [| done].
    destruct (Qeq_bool _ _); [done |]. by destruct (negb _). }
  unfold Player.addScore.
  destruct (Player.applyDepthBonus points position p) as [[p1 fp] evs].
  player_simpl. cbn zeta in Hq. cbn [fst] in Hq.
  rewrite Hc, Hm. destruct Hq as (? & ? & ? & ?). done.
Qed.

(** X10.  In every state the program reaches from the constructor the
    current combo is not negative and the maximal combo is at least the
    current combo: [reset] and [breakCombo] only lower the current combo
    and [addScore] raises both. *)
Theorem combo_never_exceeds_max (history : list PlayerCall) :
  let p := fold_left playerCall history Player.new in
  0 ≤ currentCombo (stats p) ∧ currentCombo (stats p) ≤ maxCombo (stats p).
Proof.
  cbn zeta.
  assert (∀ h p,
            0 ≤ currentCombo (stats p) ≤ maxCombo (stats p) →
            0 ≤ currentCombo (stats (fold_left playerCall h p))
              ≤ maxCombo (stats (fold_left playerCall h p))) as Hfold.
  { induction h as [| c h IH]; intros p Hp; simpl; [exact Hp |].
    apply IH. destruct c; cbn [playerCall]; try (cbn; lia).
    - destruct (addScore_combo points position p) as (-> & -> & _). lia.
    - unfold Player.addMissed. destruct (isShielded p); [exact Hp |].
      destruct (_ <=? _); player_simpl; lia.
    - unfold Player.takeDamage. destruct (isShielded p); [exact Hp |].
      destruct (_ <=? _); player_simpl; lia. }
  apply Hfold. cbn. lia.
Qed.

Lemma playerCall_health (p : PlayerState) (c : PlayerCall) :
  nonnegAmount c →
  maxHealth p = 100 ∧ maxShields p = 100 ∧
  0 ≤ health p ≤ 100 ∧ 0 ≤ shields p ≤ 100 →
  let q := playerCall p c in
  maxHealth q = 100 ∧ maxShields q = 100 ∧
  0 ≤ health q ≤ 100 ∧ 0 ≤ shields q ≤ 100.
Proof.
  intros Hc Hp. destruct c; cbn [playerCall nonnegAmount] in *;
    try (cbn; lia).
  - destruct (addScore_combo points position p)
      as (_ & _ & -> & -> & -> & ->). exact Hp.
  - unfold Player.addMissed. destruct (isShielded p); [exact Hp |].
    destruct (_ <=? _); player_simpl; lia.
  - unfold Player.takeDamage. destruct (isShielded p); [exact Hp |].
    destruct (_ <=? _); player_simpl; lia.
Qed.

(** X11.  As long as damage and healing amounts are not negative, the
    health and the shields of the player stay between 0 and 100 in every
    state reached from the constructor. *)
Theorem health_and_shields_stay_in_range (history : list PlayerCall) :
  Forall nonnegAmount history →
  let p := fold_left playerCall history Player.new in
  0 ≤ health p ∧ health p ≤ maxHealth p ∧ maxHealth p = 100 ∧
  0 ≤ shields p ∧ shields p ≤ maxShields p ∧ maxShields p = 100.
Proof.
  intros Hall. cbn zeta.
  assert (∀ h p, Forall nonnegAmount h →
            maxHealth p = 100 ∧ maxShields p = 100 ∧
            0 ≤ health p ≤ 100 ∧ 0 ≤ shields p ≤ 100 →
            let q := fold_left playerCall h p in
            maxHealth q = 100 ∧ maxShields q = 100 ∧
            0 ≤ health q ≤ 100 ∧ 0 ≤ shields q ≤ 100) as Hfold.
  { induction h as [| c h IH]; intros p Hh Hp; simpl; [exact Hp |].
    apply Forall_cons in Hh as [Hc Hh].
    apply IH; [exact Hh |]. by apply playerCall_health. }
  destruct (Hfold history Player.new Hall) as (H1 & H2 & H3 & H4);
    [cbn; lia |].
  cbn zeta in *. lia.
Qed.

Lemma health_and_shields_stay_in_range_witness :
  let p := fold_left playerCall [PTakeDamage 10; PHeal 500; PTakeDamage 250]
             Player.new in
  0 ≤ health p ∧ health p ≤ maxHealth p.
Proof.
  destruct (health_and_shields_stay_in_range
              [PTakeDamage 10; PHeal 500; PTakeDamage 250])
    as (H1 & H2 & _).
  - repeat constructor; cbn; lia.
  - split; [exact H1 | exact H2].
Defined.

Lemma addMissed_unshielded (p : PlayerState) :
  isShielded p = false →
  let q := (Player.addMissed p).1 in
  missed q = missed p + 1 ∧ currentCombo (stats q) = 0 ∧
  isShielded q = false ∧ MAX_MISSED q = MAX_MISSED p ∧
  score q = score p ∧ health q = health p ∧
  (Player.addMissed p).2 = (MAX_MISSED p <=? missed p + 1).
Proof.
  intros Hsh. unfold Player.addMissed. rewrite Hsh. player_simpl.
  destruct (MAX_MISSED p <=? missed p + 1); player_simpl; done.
Qed.

(** X12.  Without a shield, [n] misses in a row raise the missed count
    by [n] and leave the score and the health alone; the next miss signals
    game over exactly when the count then reaches [MAX_MISSED], and every
    miss after that signals it again. *)
Theorem misses_accumulate_to_game_over (n : nat) (p : PlayerState) :
  isShielded p = false →
  let q := missedTimes n p in
  missed q = missed p + Z.of_nat n ∧
  score q = score p ∧ health q = health p ∧
  isShielded q = false ∧
  (Player.addMissed q).2 = (MAX_MISSED p <=? missed p + Z.of_nat n + 1).
Proof.
  intros Hsh. cbn zeta.
  assert (missed (missedTimes n p) = missed p + Z.of_nat n ∧
          score (missedTimes n p) = score p ∧
          health (missedTimes n p) = health p ∧
          isShielded (missedTimes n p) = false ∧
          MAX_MISSED (missedTimes n p) = MAX_MISSED p)
    as (Hm & Hs & Hh & Hsh' & Hmax).
  { induction n as [| n IH]; [cbn; repeat split; try done; lia |].
    destruct IH as (Hm & Hs & Hh & Hsh' & Hmax).
    change (missedTimes (S n) p)
      with (Player.addMissed (missedTimes n p)).1.
    destruct (addMissed_unshielded _ Hsh')
      as (E1 & _ & E2 & E3 & E4 & E5 & _).
    cbn zeta in *. rewrite E1, E2, E3, E4, E5.
    repeat split; try done. lia. }
  destruct (addMissed_unshielded _ Hsh') as (_ & _ & _ & _ & _ & _ & ->).
  rewrite Hm, Hmax. done.
Qed.

Lemma misses_accumulate_to_game_over_witness :
  (Player.addMissed (missedTimes 18 Player.new)).2 = false ∧
  (Player.addMissed (missedTimes 19 Player.new)).2 = true ∧
  (Player.addMissed (missedTimes 20 Player.new)).2 = true.
Proof.
  destruct (misses_accumulate_to_game_over 18 Player.new eq_refl)
    as (_ & _ & _ & _ & H18).
  destruct (misses_accumulate_to_game_over 19 Player.new eq_refl)
    as (_ & _ & _ & _ & H19).
  destruct (misses_accumulate_to_game_over 20 Player.new eq_refl)
    as (_ & _ & _ & _ & H20).
  split; [exact H18 | split; [exact H19 | exact H20]].
Defined.

Lemma takeDamage_unshielded (amount : Z) (p : PlayerState) :
  isShielded p = false →
  let q := (Player.takeDamage amount p).1 in
  health q = Z.max 0 (health p - amount) ∧
  shields q = Z.max 0 (shields p - amount) ∧
  currentCombo (stats q) = 0 ∧ isShielded q = false ∧
  missed q = missed p ∧ score q = score p ∧
  (Player.takeDamage amount p).2 = (Z.max 0 (health p - amount) <=? 0).
Proof.
  intros Hsh. unfold Player.takeDamage. rewrite Hsh. player_simpl.
  destruct (Z.max 0 (health p - amount) <=? 0); player_simpl; done.
Qed.

(** X13.  Without a shield, [n] hits of a non-negative [amount] leave
    [max(0, health - n * amount)] health and the same for the shields,
    never touch the score or the missed count, and the next hit signals
    game over exactly when [health <= (n + 1) * amount]. *)
Theorem damage_accumulates_to_game_over (amount : Z) (n : nat)
    (p : PlayerState) :
  isShielded p = false → 0 ≤ amount → 0 ≤ health p → 0 ≤ shields p →
  let q := damagedTimes amount n p in
  health q = Z.max 0 (health p - Z.of_nat n * amount) ∧
  shields q = Z.max 0 (shields p - Z.of_nat n * amount) ∧
  score q = score p ∧ missed q = missed p ∧
  (Player.takeDamage amount q).2
    = (health p <=? (Z.of_nat n + 1) * amount).
Proof.
  intros Hsh Ha Hh0 Hs0. cbn zeta.
  assert (health (damagedTimes amount n p)
            = Z.max 0 (health p - Z.of_nat n * amount) ∧
          shields (damagedTimes amount n p)
            = Z.max 0 (shields p - Z.of_nat n * amount) ∧
          score (damagedTimes amount n p) = score p ∧
          missed (damagedTimes amount n p) = missed p ∧
          isShielded (damagedTimes amount n p) = false)
    as (Hh & Hs & Hsc & Hm & Hsh').
  { induction n as [| n IH]; [cbn; repeat split; try done; lia |].
    destruct IH as (Hh & Hs & Hsc & Hm & Hsh').
    change (damagedTimes amount (S n) p)
      with (Player.takeDamage amount (damagedTimes amount n p)).1.
    destruct (takeDamage_unshielded amount _ Hsh')
      as (E1 & E2 & _ & E3 & E4 & E5 & _).
    cbn zeta in *. rewrite E1, E2, E3, E4, E5, Hh, Hs.
    repeat split; try done; nia. }
  destruct (takeDamage_unshielded amount _ Hsh')
    as (_ & _ & _ & _ & _ & _ & ->).
  rewrite Hh. repeat split; try done.
  destruct (Z.leb_spec (Z.max 0 (Z.max 0 (health p - Z.of_nat n * amount)
                                  - amount)) 0);
    destruct (Z.leb_spec (health p) ((Z.of_nat n + 1) * amount));
    try done; nia.
Qed.

Lemma damage_accumulates_to_game_over_witness :
  (Player.takeDamage 10 (damagedTimes 10 8 Player.new)).2 = false ∧
  (Player.takeDamage 10 (damagedTimes 10 9 Player.new)).2 = true.
Proof.
  destruct (damage_accumulates_to_game_over 10 8 Player.new eq_refl)
    as (_ & _ & _ & _ & H8); [lia | cbn; lia | cbn; lia |].
  destruct (damage_accumulates_to_game_over 10 9 Player.new eq_refl)
    as (_ & _ & _ & _ & H9); [lia | cbn; lia | cbn; lia |].
  split; [exact H8 | exact H9].
Defined.

Lemma depthMultiplierAt_ge_1 (position : option Vector3) :
  (1 <= depthMultiplierAt position)%Q.
Proof.
  destruct position as [pos |]; simpl; [| discriminate].
  apply getDepthBonus_lower. reflexivity.
Qed.

Lemma comboMultiplierAt_ge_1 (c : Z) : 0 ≤ c → (1 <= comboMultiplierAt c)%Q.
Proof.
  intros Hc. unfold comboMultiplierAt, Double.add, Double.mul.
  apply (round_ge_Z 1).
  assert (0 <= Double.round (inject_Z c * Double.round (1 # 10)))%Q as H.
  { apply round_nonneg.
    assert (0 <= Double.round (1 # 10))%Q by (by apply round_nonneg).
    assert (inject_Z 0 <= inject_Z c)%Q by (by rewrite <- Zle_Qle).
    change (inject_Z 0) with 0%Q in *. nra. }
  change (inject_Z 1) with 1%Q. lra.
Qed.

(** X14.  A score event with non-negative base points on a player whose
    combo is not negative adds at least the base points: neither the depth
    bonus nor the combo multiplier can lower an award. *)
Theorem addScore_awards_at_least_points (points : Z)
    (position : option Vector3) (p : PlayerState) :
  0 ≤ points → 0 ≤ currentCombo (stats p) →
  let r := Player.addScore points position p in
  points ≤ r.1.2 ∧ score r.1.1 = score p + r.1.2 ∧ score p ≤ score r.1.1.
Proof.
  intros Hpts Hcombo.
  destruct (addScore_spec points position p) as (Hret & Hscore & _).
  cbn zeta in *.
  set (n1 := Qfloor (Double.mul (inject_Z points)
                       (depthMultiplierAt position))) in *.
  assert (points ≤ n1) as H1
    by (apply Qfloor_scaled_ge; [exact Hpts | apply depthMultiplierAt_ge_1]).
  assert (n1 ≤ Qfloor (Double.mul (inject_Z n1)
                         (comboMultiplierAt (currentCombo (stats p)))))
    as H2
    by (apply Qfloor_scaled_ge; [lia | by apply comboMultiplierAt_ge_1]).
  rewrite Hscore, Hret. lia.
Qed.

Lemma addScore_awards_at_least_points_witness :
  50 ≤ (Player.addScore 50 (Some (mkVector3 0 0 (-80))) (playerWithCombo 4)).1.2.
Proof.
  destruct (addScore_awards_at_least_points 50 (Some (mkVector3 0 0 (-80)))
              (playerWithCombo 4)) as (H & _); [lia | cbn; lia |].
  exact H.
Defined.

(** Above a Number [m * 2^e] with a full significand the next Number is
    [(m + 1) * 2^e]. *)
Lemma representable_gap (m e : Z) (h : Q) :
  2 ^ 52 ≤ m → representable h →
  (inject_Z m * 2 ^ e < h)%Q → (inject_Z (m + 1) * 2 ^ e <= h)%Q.
Proof.
  intros Hm (k & j & Hk & _ & E) Hlt. rewrite E in *.
  pose proof (pow2_pos e) as He.
  destruct (Z_le_gt_dec e j) as [Hej | Hej].
  - assert (2 ^ j == inject_Z (2 ^ (j - e)) * 2 ^ e)%Q as Ej.
    { rewrite <- pow2_Z by lia. rewrite <- Qpower_plus by discriminate.
      by replace (j - e + e) with j by lia. }
    rewrite Ej, Qmult_assoc, <- inject_Z_mult in *.
    apply Qmult_lt_r in Hlt; [| exact He].
    apply Qmult_le_r; [exact He |].
    rewrite <- Zlt_Qlt in Hlt. rewrite <- Zle_Qle. lia.
  - exfalso.
    assert (inject_Z k <= inject_Z (2 ^ 53))%Q as Hk'
      by (rewrite <- Zle_Qle; lia).
    assert (inject_Z (2 ^ 52) <= inject_Z m)%Q as Hm'
      by (rewrite <- Zle_Qle; lia).
    assert (2 ^ j <= 2 ^ (e - 1))%Q as Hj by (apply pow2_le; lia).
    assert (2 ^ e == 2 * 2 ^ (e - 1))%Q as Ee.
    { change 2%Q with (2 ^ 1)%Q at 2.
      rewrite <- Qpower_plus by discriminate.
      by replace (1 + (e - 1)) with e by lia. }
    pose proof (pow2_pos j) as Hj0. pose proof (pow2_pos (e - 1)) as He0.
    change (inject_Z (2 ^ 53)) with 9007199254740992%Q in Hk'.
    change (inject_Z (2 ^ 52)) with 4503599627370496%Q in Hm'.
    rewrite Ee in Hlt.
    set (a := inject_Z k) in *. set (b := inject_Z m) in *.
    set (u := (2 ^ j)%Q) in *. set (v := (2 ^ (e - 1))%Q) in *.
    assert (a * u <= 9007199254740992 * v)%Q.
    { destruct (Qlt_le_dec a 0) as [Hneg | Hpos]; [nra |].
      apply Qle_trans with (9007199254740992 * u)%Q; [| nra].
      apply Qmult_le_compat_r; lra. }
    nra.
Qed.

(** A number below the middle of [m * 2^e] and its successor rounds to
    [m * 2^e] at most. *)
Lemma round_le_below (x : Q) (m e : Z) :
  (Qabs x <= Double.maxSafe)%Q → 2 ^ 52 ≤ m → m ≤ 2 ^ 53 → -1074 ≤ e →
  (2 * x < inject_Z (2 * m + 1) * 2 ^ e)%Q →
  (Double.round x <= inject_Z m * 2 ^ e)%Q.
Proof.
  intros Hx Hm1 Hm2 He Hmid.
  pose proof (pow2_pos e) as Hp.
  assert (representable (inject_Z m * 2 ^ e)) as Hf
    by (exists m, e; split; [lia |]; split; [lia | reflexivity]).
  assert (inject_Z (2 * m + 1) == inject_Z m + inject_Z (m + 1))%Q as E
    by (replace (2 * m + 1) with (m + (m + 1)) by lia;
        rewrite inject_Z_plus; reflexivity).
  assert (inject_Z (m + 1) == inject_Z m + 1)%Q as E1
    by (rewrite inject_Z_plus; reflexivity).
  assert (Double.round x < inject_Z (m + 1) * 2 ^ e)%Q as Hlt.
  { rewrite E, E1 in Hmid. rewrite E1. set (u := (2 ^ e)%Q) in *.
    apply (round_lt_mid x (inject_Z m * u));
      [exact Hx | exact Hf | lra | lra]. }
  apply Qnot_lt_le. intros Hgt.
  destruct (round_safe x Hx) as [Hr _].
  pose proof (representable_gap m e _ Hm1 Hr Hgt). lra.
Qed.

(** The depth at which the multiplier first exceeds 1.5: the quotient
    [|z| / 200] has to round above 0.25 by more than half a unit in the
    last place of 1.5. *)
Lemma getDepthBonus_above_half (z : Q) :
  Qle_bool (MathUtils.getDepthBonus z MathUtils.defaultMaxDepth) (3 # 2)
  = negb (Qle_bool depthBonusThreshold (Qabs z)).
Proof.
  destruct (Qle_bool depthBonusThreshold (Qabs z)) eqn:Ht; cbn [negb].
  - apply Qle_bool_iff in Ht.
    destruct (Qle_bool _ (3 # 2)) eqn:Hd; [| done].
    apply Qle_bool_iff in Hd. exfalso.
    assert (Qabs depthBonusThreshold <= Qabs z)%Q as Habs
      by (rewrite (Qabs_pos depthBonusThreshold); [exact Ht | discriminate]).
    pose proof (getDepthBonus_monotone MathUtils.defaultMaxDepth eq_refl
                  _ _ Habs) as Hm.
    assert (3 # 2 < MathUtils.getDepthBonus depthBonusThreshold
                      MathUtils.defaultMaxDepth)%Q as Hc
      by (vm_compute; reflexivity).
    lra.
  - assert (Qabs z < depthBonusThreshold)%Q as Hlt.
    { apply Qnot_le_lt. intros H. apply Qle_bool_iff in H. congruence. }
    clear Ht. apply Qle_bool_iff.
    pose proof (Qabs_nonneg z) as Hz. set (a := Qabs z) in *.
    unfold depthBonusThreshold in Hlt.
    unfold MathUtils.getDepthBonus, MathUtils.defaultMaxDepth,
      Double.add, Double.mul, Double.div.
    fold a.
    set (f := (inject_Z (2 ^ 52 + 1) * 2 ^ (-54))%Q).
    assert (Double.round (a / 200) <= f)%Q as Hy.
    { apply round_le_below; [| lia | lia | lia |].
      - rewrite Qabs_pos; [| apply Qle_shift_div_l; lra].
        apply Qle_shift_div_r; [reflexivity |].
        unfold Double.maxSafe.
        change (inject_Z (2 ^ 53)) with 9007199254740992%Q. lra.
      - change (inject_Z (2 * (2 ^ 52 + 1) + 1) * 2 ^ (-54))%Q
          with (9007199254740995 # 18014398509481984)%Q.
        assert (a / 200 == a * (1 # 200))%Q as -> by (field; discriminate).
        lra. }
    assert (Double.round (Double.round (a / 200) * 2)
            <= Double.round (f * 2))%Q as H2.
    { apply round_monotone. lra. }
    assert (Double.round (f * 2) == 4503599627370497 # 9007199254740992)%Q
      as E2 by (vm_compute; reflexivity).
    rewrite E2 in H2.
    assert (Double.round (1 + (4503599627370497 # 9007199254740992))
            == 3 # 2)%Q as E3 by (vm_compute; reflexivity).
    rewrite <- E3. apply round_monotone.
    pose proof (Q.le_min_l (Double.round (Double.round (a / 200) * 2)) 3).
    lra.
Qed.

(** X15.  A score event at a position counts as a depth bonus exactly
    when the multiplier, computed in binary64, exceeds 1.5, which is from
    the depth 50 + 75 * 2^-52 on: then the bonus counter goes up by one,
    the points the depth added to the floored product are accumulated and
    the bonus sound plays; below that depth none of the three happens.  A
    50-point target 82 deep earns 90 and records 40. *)
Theorem depth_bonus_tracked_beyond_50 (points : Z) (pos : Vector3)
    (p : PlayerState) :
  let r := Player.addScore points (Some pos) p in
  let gained := (Player.applyDepthBonus points (Some pos) p).1.2 - points in
  ((depthBonusThreshold <= Qabs (vz pos))%Q →
     depthBonusesEarned (stats r.1.1) = depthBonusesEarned (stats p) + 1 ∧
     totalDepthBonusEarned r.1.1 = totalDepthBonusEarned p + gained ∧
     r.2 = [EvPlay CueDepthBonus]) ∧
  ((Qabs (vz pos) < depthBonusThreshold)%Q →
     depthBonusesEarned (stats r.1.1) = depthBonusesEarned (stats p) ∧
     totalDepthBonusEarned r.1.1 = totalDepthBonusEarned p ∧
     r.2 = []) ∧
  (Player.applyDepthBonus 50 (Some (mkVector3 0 0 (-82))) p).1.2 = 90.
Proof.
  cbn zeta. split; [| split]; [| | vm_compute; reflexivity].
  - intros Ht. apply Qle_bool_iff in Ht.
    unfold Player.addScore, Player.applyDepthBonus.
    rewrite getDepthBonus_above_half, Ht.
    destruct (Qeq_bool (vz pos) 0) eqn:Hz0.
    + apply Qeq_bool_eq in Hz0. exfalso.
      assert (Qabs (vz pos) == 0)%Q as Habs by (rewrite Hz0; reflexivity).
      apply Qle_bool_iff in Ht. unfold depthBonusThreshold in Ht. lra.
    + cbn [negb]. player_simpl. done.
  - intros Ht.
    assert (Qle_bool depthBonusThreshold (Qabs (vz pos)) = false) as Hf.
    { destruct (Qle_bool _ _) eqn:E; [| done].
      apply Qle_bool_iff in E. lra. }
    unfold Player.addScore, Player.applyDepthBonus.
    rewrite getDepthBonus_above_half, Hf.
    destruct (Qeq_bool (vz pos) 0); cbn [negb]; player_simpl; done.
Qed.

Lemma depth_bonus_tracked_beyond_50_witness :
  let r := Player.addScore 50 (Some (mkVector3 0 0 (-82))) Player.new in
  depthBonusesEarned (stats r.1.1) = 1 ∧ totalDepthBonusEarned r.1.1 = 40.
Proof.
  destruct (depth_bonus_tracked_beyond_50 50 (mkVector3 0 0 (-82)) Player.new)
    as (H & _).
  destruct (H ltac:(discriminate)) as (H1 & H2 & _).
  split; [exact H1 | exact H2].
Defined.

(** One vortex chain: the counters, the bonus returned and the score
    event it makes. *)
Lemma addVortexChain_bonus (p : PlayerState) :
  let r := Player.addVortexChain p in
  let bonus := (vortexChainCount p + 1) * 25 in
  r.1.2 = bonus ∧
  vortexChainCount r.1.1 = vortexChainCount p + 1 ∧
  vortexChainsTriggered (stats r.1.1) = vortexChainsTriggered (stats p) + 1 ∧
  score r.1.1
    = score p
      + Qfloor (Double.mul (inject_Z bonus)
                  (comboMultiplierAt (currentCombo (stats p)))) ∧
  currentCombo (stats r.1.1) = currentCombo (stats p) + 1 ∧
  missed r.1.1 = missed p ∧ health r.1.1 = health p.
Proof.
  cbn zeta. unfold Player.addVortexChain, Player.addScore,
    Player.applyDepthBonus, Player.comboMultiplier.
  player_simpl. repeat split.
Qed.

Lemma addScore_chain_counters (points : Z) (position : option Vector3)
    (p : PlayerState) :
  let p' := (Player.addScore points position p).1.1 in
  vortexChainCount p' = vortexChainCount p ∧
  vortexChainsTriggered (stats p') = vortexChainsTriggered (stats p).
Proof.
  unfold Player.addScore, Player.applyDepthBonus.
  destruct position as [pos |]; player_simpl; [| done].
  destruct (Qeq_bool _ _); player_simpl; [done |].
  destruct (negb _); player_simpl; done.
Qed.

Lemma playerCall_chain_counters (p : PlayerState) (c : PlayerCall) (n : Z) :
  vortexChainCount p = n ∧ vortexChainsTriggered (stats p) = n →
  vortexChainCount (playerCall p c) = countChain n c ∧
  vortexChainsTriggered (stats (playerCall p c)) = countChain n c.
Proof.
  intros [H1 H2]. destruct c; cbn [playerCall countChain];
    try (cbn; done).
  - destruct (addScore_chain_counters points position p) as [-> ->]. done.
  - unfold Player.addMissed. destruct (isShielded p); [done |].
    destruct (_ <=? _); player_simpl; done.
  - unfold Player.takeDamage. destruct (isShielded p); [done |].
    destruct (_ <=? _); player_simpl; done.
  - destruct (addVortexChain_bonus p) as (_ & -> & -> & _). lia.
Qed.

(** X16.  The chain counter is written by [addVortexChain] and [reset]
    only: in every state reached from the constructor it equals the number
    of vortex chains since the last reset, so does the chain statistic,
    and the next chain returns a bonus of 25 times that number plus
    one. *)
Theorem chain_bonus_counts_chains_since_reset (history : list PlayerCall) :
  let p := fold_left playerCall history Player.new in
  vortexChainCount p = chainsSinceReset history ∧
  vortexChainsTriggered (stats p) = chainsSinceReset history ∧
  (Player.addVortexChain p).1.2 = 25 * (chainsSinceReset history + 1) ∧
  0 ≤ chainsSinceReset history.
Proof.
  cbn zeta. unfold chainsSinceReset.
  assert (∀ h p n,
            0 ≤ n →
            vortexChainCount p = n ∧ vortexChainsTriggered (stats p) = n →
            vortexChainCount (fold_left playerCall h p)
              = fold_left countChain h n ∧
            vortexChainsTriggered (stats (fold_left playerCall h p))
              = fold_left countChain h n ∧
            0 ≤ fold_left countChain h n) as Hfold.
  { induction h as [| c h IH]; intros p n Hn Hp; cbn [fold_left].
    - destruct Hp. done.
    - apply IH; [destruct c; cbn [countChain]; lia |].
      by apply playerCall_chain_counters. }
  destruct (Hfold history Player.new 0) as (H1 & H2 & H3); [lia | done |].
  split; [exact H1 |]. split; [exact H2 |]. split; [| exact H3].
  destruct (addVortexChain_bonus (fold_left playerCall history Player.new))
    as (-> & _).
  rewrite H1. lia.
Qed.

(** ** The power-up manager *)

(** Split a world into its fields and decide the player and the manager. *)
Ltac world_cases w :=
  destruct w as [pl pm bs es ps bl el prl tm tr nw dr];
  destruct pl as [pl |]; destruct pm as [[[act |] et] |].

Lemma deactivate_view (w : World) :
  activeOf (PowerUpManager_deactivate w) = (fun _ => None) <$> activeOf w ∧
  shieldOf (PowerUpManager_deactivate w)
    = match activeOf w with
      | Some (Some SHIELD) => (fun _ => false) <$> shieldOf w
      | _ => shieldOf w
      end.
Proof. world_cases w; try destruct act; split; reflexivity. Qed.

Lemma activate_view (t : PowerUpType) (w : World) :
  activeOf (PowerUpManager_activate t w) = (fun _ => Some t) <$> activeOf w ∧
  shieldOf (PowerUpManager_activate t w)
    = match activeOf w with
      | None => shieldOf w
      | Some a =>
          match t, a with
          | SHIELD, _ => (fun _ => true) <$> shieldOf w
          | _, Some SHIELD => (fun _ => false) <$> shieldOf w
          | _, _ => shieldOf w
          end
      end.
Proof. world_cases w; try destruct act; destruct t; split; reflexivity. Qed.

Lemma shieldConsistent_view (w : World) :
  shieldConsistent w ↔
  ∀ s a, shieldOf w = Some s → activeOf w = Some a →
         (s = true ↔ a = Some SHIELD).
Proof.
  unfold shieldConsistent, shieldOf, activeOf. split.
  - intros H s a Hs Ha.
    destruct (player w) as [p |]; [| discriminate].
    destruct (powerUpManager w) as [m |]; [| discriminate].
    cbn in Hs, Ha. inversion Hs; inversion Ha; subst. by apply H.
  - intros H p m Hp Hm. apply H; by rewrite ?Hp, ?Hm.
Qed.

Lemma deactivate_consistent (w : World) :
  shieldConsistent w → shieldConsistent (PowerUpManager_deactivate w).
Proof.
  rewrite !shieldConsistent_view. intros H s a Hs Ha.
  destruct (deactivate_view w) as [Ea Es]. rewrite Ea in Ha. rewrite Es in Hs.
  destruct (activeOf w) as [a0 |]; [| discriminate].
  cbn in Ha. inversion Ha; subst a.
  destruct (shieldOf w) as [s0 |] eqn:Hs0.
  - specialize (H s0 a0 eq_refl eq_refl).
    destruct a0 as [[] |]; cbn in Hs; inversion Hs; subst s;
      split; try discriminate; intros ->;
      destruct H as [H _]; specialize (H eq_refl); discriminate.
  - destruct a0 as [[] |]; discriminate.
Qed.

Lemma activate_consistent (t : PowerUpType) (w : World) :
  shieldConsistent w → shieldConsistent (PowerUpManager_activate t w).
Proof.
  rewrite !shieldConsistent_view. intros H s a Hs Ha.
  destruct (activate_view t w) as [Ea Es]. rewrite Ea in Ha. rewrite Es in Hs.
  destruct (activeOf w) as [a0 |]; [| discriminate].
  cbn in Ha. inversion Ha; subst a.
  destruct (shieldOf w) as [s0 |] eqn:Hs0.
  - specialize (H s0 a0 eq_refl eq_refl).
    destruct t, a0 as [[] |]; cbn in Hs; inversion Hs; subst s;
      split; try discriminate; try done; intros ->;
      destruct H as [H _]; specialize (H eq_refl); discriminate.
  - destruct t, a0 as [[] |]; discriminate.
Qed.

(** X17.  If the shield flag of the player agrees with the active
    power-up, it still does after [activate], after [deactivate] and after
    the expiry check of [update]: a shield is never left on by a power-up
    that has ended or has been replaced. *)
Theorem shield_flag_follows_power_up (w : World) (t : PowerUpType) :
  shieldConsistent w →
  shieldConsistent (PowerUpManager_activate t w) ∧
  shieldConsistent (PowerUpManager_deactivate w) ∧
  shieldConsistent (PowerUpManager_update w).
Proof.
  intros H. split; [by apply activate_consistent |].
  split; [by apply deactivate_consistent |].
  unfold PowerUpManager_update.
  destruct (powerUpManager w) as [m |]; [| exact H].
  destruct (activePowerUp m); [| exact H].
  destruct (_ <=? 0); [by apply deactivate_consistent | exact H].
Qed.

Lemma shield_flag_follows_power_up_witness :
  let w := PowerUpManager_activate SHIELD initialWorld in
  shieldOf w = Some true ∧
  shieldConsistent (PowerUpManager_activate ENERGY_BEAM w) ∧
  shieldOf (PowerUpManager_activate ENERGY_BEAM w) = Some false.
Proof.
  assert (shieldConsistent initialWorld) as H0.
  { intros p m Hp Hm. inversion Hp; inversion Hm; subst. cbn.
    split; discriminate. }
  destruct (shield_flag_follows_power_up initialWorld SHIELD H0)
    as (H1 & _).
  destruct (shield_flag_follows_power_up
              (PowerUpManager_activate SHIELD initialWorld) ENERGY_BEAM H1)
    as (H2 & _).
  split; [reflexivity | split; [exact H2 | reflexivity]].
Defined.

Lemma activate_manager (t : PowerUpType) (w : World) :
  is_Some (powerUpManager w) →
  powerUpManager (PowerUpManager_activate t w)
    = Some (mkPowerUpManager (Some t) (now w + duration t)) ∧
  now (PowerUpManager_activate t w) = now w ∧
  (powerUpsCollected ∘ stats <$> player (PowerUpManager_activate t w))
    = (Z.succ ∘ powerUpsCollected ∘ stats <$> player w).
Proof.
  intros [m Hm].
  world_cases w; try discriminate; try destruct act; destruct t;
    repeat split.
Qed.

(** X18.  A power-up that is activated at time [T] and checked by
    [update] at time [T'] is still the active one when [T'] is before
    [T + duration] and is gone otherwise, whatever was active before;
    right after activation the remaining time is the whole duration, and
    the activation counts as one collected power-up. *)
Theorem power_up_lives_for_its_duration (w : World) (t : PowerUpType)
    (T' : Z) :
  is_Some (powerUpManager w) →
  let w1 := PowerUpManager_activate t w in
  let w2 := PowerUpManager_update (set_now T' w1) in
  powerUpManager w1 = Some (mkPowerUpManager (Some t) (now w + duration t)) ∧
  (getRemainingTime (now w1) <$> powerUpManager w1) = Some (duration t) ∧
  (powerUpsCollected ∘ stats <$> player w1)
    = (Z.succ ∘ powerUpsCollected ∘ stats <$> player w) ∧
  activeOf w2 = Some (if T' <? now w + duration t then Some t else None).
Proof.
  intros Hm. destruct (activate_manager t w Hm) as (Hm1 & Hnow & Hcol).
  cbn zeta. set (w1 := PowerUpManager_activate t w) in *.
  assert (0 < duration t) as Hd by (destruct t; reflexivity).
  split; [exact Hm1 |]. split.
  { rewrite Hm1, Hnow. unfold getRemainingTime.
    cbn [fmap option_fmap option_map activePowerUp endTime].
    f_equal. lia. }
  split; [exact Hcol |].
  unfold PowerUpManager_update.
  assert (powerUpManager (set_now T' w1) = powerUpManager w1) as E
    by reflexivity.
  rewrite E, Hm1. cbn [activePowerUp endTime].
  assert (now (set_now T' w1) = T') as -> by reflexivity.
  destruct (Z.leb_spec (now w + duration t - T') 0);
    destruct (Z.ltb_spec T' (now w + duration t)); try lia.
  - destruct (deactivate_view (set_now T' w1)) as [-> _].
    unfold activeOf. by rewrite E, Hm1.
  - unfold activeOf. by rewrite E, Hm1.
Qed.

Lemma power_up_lives_for_its_duration_witness :
  activeOf (PowerUpManager_update
              (set_now 9999 (PowerUpManager_activate SHIELD initialWorld)))
    = Some (Some SHIELD) ∧
  activeOf (PowerUpManager_update
              (set_now 10000 (PowerUpManager_activate SHIELD initialWorld)))
    = Some None.
Proof.
  destruct (power_up_lives_for_its_duration initialWorld SHIELD 9999)
    as (_ & _ & _ & H1); [by eexists |].
  destruct (power_up_lives_for_its_duration initialWorld SHIELD 10000)
    as (_ & _ & _ & H2); [by eexists |].
  split; [exact H1 | exact H2].
Defined.

(** ** Enemy drones *)

Lemma enemy_destroy_dead (id : nat) (w : World) :
  enemyAlive w id = false → EnemyDrone3D_destroy id w = w.
Proof.
  unfold enemyAlive, EnemyDrone3D_destroy.
  destruct (enemyStore w !! id) as [e |]; [| done]. by intros ->.
Qed.

Lemma addScore_other_counters (points : Z) (position : option Vector3)
    (p : PlayerState) :
  let p' := (Player.addScore points position p).1.1 in
  enemiesDestroyed (stats p') = enemiesDestroyed (stats p) ∧
  balloonsPopped (stats p') = balloonsPopped (stats p) ∧
  powerUpsCollected (stats p') = powerUpsCollected (stats p) ∧
  health p' = health p ∧ shields p' = shields p.
Proof.
  unfold Player.addScore, Player.applyDepthBonus.
  destruct position as [pos |]; player_simpl; [| done].
  destruct (Qeq_bool _ _); player_simpl; [done |].
  destruct (negb _); player_simpl; done.
Qed.

Lemma enemy_destroy_live_store (id : nat) (w : World) (e : EnemyDrone3D.t) :
  enemyStore w !! id = Some e → EnemyDrone3D.isAlive e = true →
  enemyStore (EnemyDrone3D_destroy id w)
    = alter (EnemyDrone3D.set_isAlive false) id (enemyStore w).
Proof.
  intros He Halive. unfold EnemyDrone3D_destroy. rewrite He, Halive.
  cbn [negb]. unfold GameObject3D_destroy_enemy. world_simpl.
  f_equal.
  destruct (player w); [| done].
  pose proof (sameScene_addScore (EnemyDrone3D.points e)
                (Some (EnemyDrone3D.position e)) w) as (_ & _ & H1 & _).
  pose proof (sameScene_with_player incr_enemiesDestroyed
                (World_addScore (EnemyDrone3D.points e)
                   (Some (EnemyDrone3D.position e)) w)) as (_ & _ & H2 & _).
  by rewrite H2, H1.
Qed.

Lemma enemy_destroy_not_alive (id : nat) (w : World) :
  enemyAlive (EnemyDrone3D_destroy id w) id = false.
Proof.
  destruct (enemyAlive w id) eqn:Halive.
  - unfold enemyAlive in Halive.
    destruct (enemyStore w !! id) as [e |] eqn:He; [| done].
    unfold enemyAlive.
    rewrite (enemy_destroy_live_store id w e He Halive), lookup_alter_eq, He.
    done.
  - by rewrite enemy_destroy_dead.
Qed.


(** X19.  [EnemyDrone3D.hit] takes one hit point; [destroy] on a live
    drone counts one destroyed enemy, scores its points once (with depth
    bonus and combo) and clears its liveness flag; on a destroyed drone it
    does nothing, so a second [destroy] changes nothing. *)
Theorem enemy_destroy_counts_once (w : World) (id : nat)
    (e : EnemyDrone3D.t) :
  enemyStore w !! id = Some e →
  (EnemyDrone3D.health <$> enemyStore (EnemyDrone3D_hit id w).1 !! id)
    = Some (EnemyDrone3D.health e - 1) ∧
  EnemyDrone3D_destroy id (EnemyDrone3D_destroy id w)
    = EnemyDrone3D_destroy id w ∧
  enemyAlive (EnemyDrone3D_destroy id w) id = false ∧
  (EnemyDrone3D.isAlive e = false → EnemyDrone3D_destroy id w = w) ∧
  (EnemyDrone3D.isAlive e = true →
   ∀ p : PlayerState, player w = Some p →
     let award :=
       (Player.addScore (EnemyDrone3D.points e)
          (Some (EnemyDrone3D.position e)) p).1.2 in
     ∃ p' : PlayerState,
       player (EnemyDrone3D_destroy id w) = Some p' ∧
       enemiesDestroyed (stats p') = enemiesDestroyed (stats p) + 1 ∧
       score p' = score p + award ∧
       currentCombo (stats p') = currentCombo (stats p) + 1).
Proof.
  intros He.
  split.
  { unfold EnemyDrone3D_hit. rewrite He.
    set (e' := EnemyDrone3D.set_health (EnemyDrone3D.health e - 1) e).
    set (w1 := set_enemyStore (<[id := e']> (enemyStore w)) w).
    assert (enemyStore w1 !! id = Some e') as He1
      by (subst w1; world_simpl; apply lookup_insert_eq).
    destruct (EnemyDrone3D.health e' <=? 0); cbn [fst].
    - destruct (EnemyDrone3D.isAlive e') eqn:Halive.
      + rewrite (enemy_destroy_live_store id w1 e' He1 Halive).
        by rewrite lookup_alter_eq, He1.
      + rewrite enemy_destroy_dead; [by rewrite He1 |].
        unfold enemyAlive. by rewrite He1.
    - world_simpl. by rewrite He1. }
  split.
  { apply enemy_destroy_dead, enemy_destroy_not_alive. }
  split; [apply enemy_destroy_not_alive |].
  split.
  { intros Hdead. apply enemy_destroy_dead. unfold enemyAlive.
    by rewrite He. }
  intros Halive p Hp award.
  unfold EnemyDrone3D_destroy. rewrite He, Halive, Hp. cbn [negb].
  unfold World_addScore. rewrite Hp.
  destruct (addScore_spec (EnemyDrone3D.points e)
              (Some (EnemyDrone3D.position e)) p) as (_ & Hs & Hc & _).
  destruct (addScore_other_counters (EnemyDrone3D.points e)
              (Some (EnemyDrone3D.position e)) p) as (Hd & _).
  subst award.
  destruct (Player.addScore (EnemyDrone3D.points e)
              (Some (EnemyDrone3D.position e)) p) as [[p1 fp] evs].
  cbn [fst snd] in *.
  unfold with_player, GameObject3D_destroy_enemy. world_simpl.
  eexists. split; [reflexivity |]. player_simpl.
  unfold incr_enemiesDestroyed. player_simpl. rewrite Hs, Hc, Hd. done.
Qed.

Lemma enemy_destroy_counts_once_witness :
  let w := twoDronesWorld in
  (EnemyDrone3D.health <$> enemyStore (EnemyDrone3D_hit 10 w).1 !! 10%nat)
    = Some 1 ∧
  enemyAlive (EnemyDrone3D_destroy 10 w) 10 = false.
Proof.
  destruct (enemy_destroy_counts_once twoDronesWorld 10
              (droneAt (mkVector3 1 0 0)) eq_refl) as (H1 & _ & H3 & _).
  split; [exact H1 | exact H3].
Defined.

(** ** Balloons after their destruction, and chain reactions *)

Section ChainFacts.

Variable randomPowerUpType : nat → PowerUpType.
Variable randomDelay : nat → Q.

Abbreviation destroyB := (Balloon3D_destroy randomPowerUpType randomDelay).
Abbreviation hitB := (Balloon3D_hit randomPowerUpType randomDelay).
Abbreviation updateB := (Balloon3D_update randomPowerUpType randomDelay).
Abbreviation chainB := (checkVortexChain randomDelay).
Abbreviation fire := (runTimer randomPowerUpType randomDelay).

Lemma onMissed_player (w : World) :
  player (Balloon3D_onMissed w)
    = (fun p => (Player.addMissed p).1) <$> player w ∧
  balloonStore (Balloon3D_onMissed w) = balloonStore w.
Proof.
  destruct w as [pl ? ? ? ? ? ? ? ? ? ? ?].
  unfold Balloon3D_onMissed, emit. world_simpl.
  destruct pl as [p |]; [| done].
  cbn [fmap option_fmap option_map].
  destruct (Player.addMissed p) as [p' gameOver].
  destruct gameOver; done.
Qed.

(** The update of a destroyed balloon beyond the near boundary: the
    kinematics advance and [onMissed] runs; both [destroy] calls return at
    once. *)
Lemma update_destroyed_past_boundary (dt : Q) (id : nat) (w : World)
    (b : Balloon3D.t) :
  balloonStore w !! id = Some b →
  Balloon3D.isAlive b = false →
  (20 < vz (Balloon3D.position b) + vz (Balloon3D.velocity b) * dt)%Q →
  updateB dt id w
    = Balloon3D_onMissed
        (set_balloonStore
           (<[id := Balloon3D.set_kinematics
                      (Vector3_addScaled (Balloon3D.position b)
                         (Balloon3D.velocity b) dt)
                      (Balloon3D.age b + dt)%Q b]> (balloonStore w)) w).
Proof.
  intros Hb Hdead Hz. unfold Balloon3D_update. rewrite Hb.
  set (b' := Balloon3D.set_kinematics _ _ b).
  set (w1 := set_balloonStore (<[id := b']> (balloonStore w)) w).
  assert (balloonStore w1 !! id = Some b') as Hb1
    by (subst w1; world_simpl; apply lookup_insert_eq).
  assert (Balloon3D.isAlive b' = false) as Hdead'
    by (subst b'; destruct b; exact Hdead).
  assert ((if expired (Balloon3D.age b + dt) (Balloon3D.maxAge b')
           then destroyB id w1 else w1) = w1) as ->.
  { destruct (expired _ _); [| done].
    exact (destroy_dead randomPowerUpType randomDelay id b' w1 Hb1 Hdead'). }
  assert (Qle_bool (vz (Vector3_addScaled (Balloon3D.position b)
                          (Balloon3D.velocity b) dt)) 20 = false) as ->.
  { apply not_true_is_false. intros H. apply Qle_bool_iff in H.
    cbn [Vector3_addScaled vz] in H. lra. }
  cbn [negb].
  apply (destroy_dead randomPowerUpType randomDelay id b'); [| exact Hdead'].
  destruct (onMissed_player w1) as (_ & ->). exact Hb1.
Qed.

Lemma updates_destroyed_past_boundary (dt : Q) (id : nat) (n : nat)
    (w : World) (b : Balloon3D.t) (p : PlayerState) :
  balloonStore w !! id = Some b →
  Balloon3D.isAlive b = false →
  player w = Some p →
  isShielded p = false →
  (0 <= dt)%Q →
  (0 <= vz (Balloon3D.velocity b))%Q →
  (20 < vz (Balloon3D.position b))%Q →
  ∃ (b' : Balloon3D.t) (p' : PlayerState),
    balloonStore (Nat.iter n (updateB dt id) w) !! id = Some b' ∧
    Balloon3D.isAlive b' = false ∧
    Balloon3D.velocity b' = Balloon3D.velocity b ∧
    (20 < vz (Balloon3D.position b'))%Q ∧
    player (Nat.iter n (updateB dt id) w) = Some p' ∧
    isShielded p' = false ∧
    missed p' = missed p + Z.of_nat n ∧
    score p' = score p.
Proof.
  intros Hb Hdead Hp Hsh Hdt Hv Hz.
  induction n as [| n IH].
  - exists b, p. cbn [Nat.iter]. rewrite Z.add_0_r. done.
  - destruct IH as (b1 & p1 & Hb1 & Hd1 & Hv1 & Hz1 & Hp1 & Hs1 & Hm1 & Hsc1).
    rewrite Nat.iter_succ.
    assert (20 < vz (Balloon3D.position b1)
                 + vz (Balloon3D.velocity b1) * dt)%Q as Hz2.
    { rewrite Hv1. nra. }
    rewrite (update_destroyed_past_boundary dt id _ b1 Hb1 Hd1 Hz2).
    match goal with
    | |- context [Balloon3D_onMissed ?x] =>
        destruct (onMissed_player x) as (-> & ->)
    end.
    world_simpl. rewrite Hp1, lookup_insert_eq.
    destruct (addMissed_unshielded p1 Hs1)
      as (Hm2 & _ & Hs2 & _ & Hsc2 & _).
    eexists _, _. split; [reflexivity |].
    split; [by destruct b1 |].
    split; [by destruct b1 |].
    split; [destruct b1; exact Hz2 |].
    split; [reflexivity |].
    split; [exact Hs2 |].
    split; [rewrite Hm2, Hm1; lia | by rewrite Hsc2].
Qed.

(** X20.  A destroyed balloon that lies beyond the near boundary and is
    still updated (it stays in the scene's array until the next cleanup)
    raises the missed count by one on every update, without touching the
    score: [n] updates of an unshielded player's scene add [n] misses. *)
Theorem destroyed_balloon_misses_every_frame (dt : Q) (id : nat) (n : nat)
    (w : World) (b : Balloon3D.t) (p : PlayerState) :
  balloonStore w !! id = Some b →
  Balloon3D.isAlive b = false →
  player w = Some p →
  isShielded p = false →
  (0 <= dt)%Q →
  (0 <= vz (Balloon3D.velocity b))%Q →
  (20 < vz (Balloon3D.position b))%Q →
  ∃ p' : PlayerState,
    player (Nat.iter n (updateB dt id) w) = Some p' ∧
    missed p' = missed p + Z.of_nat n ∧
    score p' = score p ∧
    balloonAlive (Nat.iter n (updateB dt id) w) id = false.
Proof.
  intros Hb Hdead Hp Hsh Hdt Hv Hz.
  destruct (updates_destroyed_past_boundary dt id n w b p
              Hb Hdead Hp Hsh Hdt Hv Hz)
    as (b' & p' & Hb' & Hd' & _ & _ & Hp' & _ & Hm & Hs).
  exists p'. unfold balloonAlive. rewrite Hb'. done.
Qed.



Lemma runTimer_dead (t : Timer) (w : World) :
  balloonAlive w (timerTarget t) = false → fire t w = w.
Proof. intros H. unfold runTimer. by rewrite H. Qed.

Lemma runTimer_pops (t : Timer) (w : World) :
  (∀ b, balloonStore w !! timerTarget t = Some b → Balloon3D.health b <= 1) →
  balloonAlive (fire t w) (timerTarget t) = false.
Proof.
  intros Hh. unfold runTimer.
  destruct (balloonAlive w (timerTarget t)) eqn:Halive; [| exact Halive].
  unfold balloonAlive in Halive.
  destruct (balloonStore w !! timerTarget t) as [b |] eqn:Hb; [| done].
  rewrite (hit_unfold randomPowerUpType randomDelay _ b w Hb). cbn zeta.
  specialize (Hh b eq_refl).
  destruct (Z.leb_spec (Balloon3D.health b - 1) 0) as [_ | Hgt]; [| lia].
  cbn [fst]. apply destroy_not_alive.
Qed.

(** X22.  The callback of a chain-reaction timer tests [isAlive] when it
    fires.  On a destroyed target it does nothing; and when several timers
    aim at one balloon with a single hit point left, the first to fire
    pops it and all later ones leave the world as it is. *)
Theorem late_chain_hits_are_dropped (t : Timer) (w : World) (n : nat) :
  (∀ b, balloonStore w !! timerTarget t = Some b → Balloon3D.health b <= 1) →
  Nat.iter (S n) (fire t) w = fire t w ∧
  balloonAlive (fire t w) (timerTarget t) = false ∧
  (balloonAlive w (timerTarget t) = false → fire t w = w).
Proof.
  intros Hh. split; [| split; [by apply runTimer_pops | apply runTimer_dead]].
  induction n as [| n IH]; [done |].
  change (Nat.iter (S (S n)) (fire t) w)
    with (fire t (Nat.iter (S n) (fire t) w)).
  rewrite IH. apply runTimer_dead, runTimer_pops, Hh.
Qed.

End ChainFacts.

Lemma destroyed_balloon_misses_every_frame_witness :
  ∃ p' : PlayerState,
    player (Nat.iter 3 (Balloon3D_update alwaysShield delay100 (1 # 60) 7)
              pastBoundaryWorld) = Some p' ∧
    missed p' = missed Player.new + 3 ∧
    score p' = score Player.new ∧
    balloonAlive (Nat.iter 3 (Balloon3D_update alwaysShield delay100 (1 # 60) 7)
                    pastBoundaryWorld) 7 = false.
Proof.
  apply (destroyed_balloon_misses_every_frame alwaysShield delay100 (1 # 60)
           7 3 pastBoundaryWorld (balloonAt 21 false 1 50 normal) Player.new);
    try reflexivity; vm_compute; congruence.
Defined.


Lemma late_chain_hits_are_dropped_witness :
  let fire := runTimer alwaysShield delay100 (mkTimer 100 7) in
  Nat.iter 3 fire nearBoundaryWorld = fire nearBoundaryWorld ∧
  balloonAlive (fire nearBoundaryWorld) 7 = false.
Proof.
  destruct (late_chain_hits_are_dropped alwaysShield delay100
              (mkTimer 100 7) nearBoundaryWorld 2) as (H1 & H2 & _).
  - intros b Hb. vm_compute in Hb. injection Hb as <-. simpl. lia.
  - split; [exact H1 | exact H2].
Defined.

(** ** A balloon that crosses the near boundary, continued *)

Section MissedBalloon.

Variable randomPowerUpType : nat → PowerUpType.
Variable randomDelay : nat → Q.

Abbreviation destroy' := (Balloon3D_destroy randomPowerUpType randomDelay).
Abbreviation update := (Balloon3D_update randomPowerUpType randomDelay).
Abbreviation chain := (checkVortexChain randomDelay).









End MissedBalloon.



(** ** Projectiles *)



(** ** The scene's arrays *)

Lemma removeObject_absent (object : nat) (array : list nat) :
  object ∉ array → removeObject object array = array.
Proof.
  intros H. unfold removeObject. apply indexOf_None in H. by rewrite H.
Qed.

Lemma removeObject_cons (object x : nat) (array : list nat) :
  removeObject object (x :: array)
    = if Nat.eqb x object then array else x :: removeObject object array.
Proof.
  unfold removeObject. cbn [indexOf].
  destruct (Nat.eqb x object); [done |].
  destruct (indexOf object array); done.
Qed.

(** X24.  [removeObject] takes the first reference to the object out of
    the array and nothing else: the other references keep their order
    and number, an absent object leaves the array as it is, and in an
    array without repeated references the object is gone afterwards. *)
Theorem removeObject_removes_first_reference (object : nat)
    (array : list nat) :
  (object ∉ array → removeObject object array = array) ∧
  (object ∈ array →
     length (removeObject object array) + 1 = length array)%nat ∧
  List.filter (fun x => negb (Nat.eqb x object)) (removeObject object array)
    = List.filter (fun x => negb (Nat.eqb x object)) array ∧
  (NoDup array →
     removeObject object array
       = List.filter (fun x => negb (Nat.eqb x object)) array ∧
     object ∉ removeObject object array).
Proof.
  split; [apply removeObject_absent |].
  split.
  { induction array as [| x l IH]; [by intros ?%elem_of_nil |].
    intros Hin. rewrite removeObject_cons.
    destruct (Nat.eqb_spec x object) as [-> | Hne]; cbn [length]; [lia |].
    apply elem_of_cons in Hin as [-> | Hin]; [done |].
    specialize (IH Hin). lia. }
  split.
  { induction array as [| x l IH]; [done |].
    rewrite removeObject_cons.
    destruct (Nat.eqb_spec x object) as [-> | Hne].
    - cbn [List.filter]. by rewrite Nat.eqb_refl.
    - cbn [List.filter]. by rewrite IH. }
  intros Hnd.
  assert (removeObject object array
          = List.filter (fun x => negb (Nat.eqb x object)) array) as E.
  { induction Hnd as [| x l Hx Hnd IH]; [done |].
    rewrite removeObject_cons. cbn [List.filter].
    destruct (Nat.eqb_spec x object) as [-> | Hne]; cbn [negb].
    - rewrite <- (removeObject_absent object l Hx) at 1. exact IH.
    - by rewrite IH. }
  split; [exact E |].
  rewrite E. intros Hin. apply list_elem_of_In, filter_In in Hin as [_ Hin].
  by rewrite Nat.eqb_refl in Hin.
Qed.



Section CollisionFacts.

Variable randomPowerUpType : nat → PowerUpType.
Variable randomDelay : nat → Q.


End CollisionFacts.



(** ** Waves and boss waves *)




(** ** The boss *)

Lemma collideEnemy_dead (pid eid : nat) (w : World) :
  enemyAlive w eid = false → collideEnemy pid eid w = w.
Proof.
  unfold enemyAlive, collideEnemy. intros H.
  destruct (projectileStore w !! pid); [| done].
  destruct (enemyStore w !! eid) as [e |]; [| done].
  by rewrite H.
Qed.

Lemma addScore_wave (points : Z) (position : option Vector3)
    (p : PlayerState) :
  wave (Player.addScore points position p).1.1 = wave p.
Proof.
  unfold Player.addScore, Player.applyDepthBonus.
  destruct position as [pos |]; player_simpl; [| done].
  destruct (Qeq_bool _ _); player_simpl; [done |].
  destruct (negb _); player_simpl; done.
Qed.

(** [spawnBoss] on a world with a player: the boss is destroyed by its
    own spawn. *)
Lemma spawnBoss_spec (id : nat) (speed x1 y1 x2 y2 : Q) (w : World)
    (p : PlayerState) :
  enemyStore w !! id = None →
  player w = Some p →
  let w' := spawnBoss id speed x1 y1 x2 y2 w in
  let r := Player.addScore 500 (Some (mkVector3 x1 y1 (-80))) p in
  player w' = Some (incr_enemiesDestroyed r.1.1) ∧
  enemies w' = enemies w ++ [id] ∧
  enemyAlive w' id = false ∧
  (∀ id' : nat, id' ≠ id → enemyStore w' !! id' = enemyStore w !! id') ∧
  trace w' = trace w ++ r.2 ++ [EvParticles 25; EvPlay CueEnemyExplosion].
Proof.
  intros Hfresh Hp. cbn zeta. unfold spawnBoss, EnemyDrone3D_destroy.
  cbn [enemyStore set_enemyStore]. rewrite lookup_insert_eq.
  cbn [EnemyDrone3D.isAlive negb player set_enemyStore]. rewrite Hp.
  unfold World_addScore, with_player, GameObject3D_destroy_enemy.
  cbn [player set_enemyStore]. rewrite Hp.
  cbn [EnemyDrone3D.points EnemyDrone3D.position].
  destruct (Player.addScore 500 (Some (mkVector3 x1 y1 (-80))) p)
    as [[p1 fp] evs].
  unfold enemyAlive. world_simpl.
  split; [done |]. split; [done |]. split; [| split].
  - rewrite !lookup_alter_eq, lookup_insert_eq. done.
  - intros id' Hne.
    rewrite !lookup_alter_ne, lookup_insert_ne by done. done.
  - by rewrite <- app_assoc.
Qed.

(** X28.  [spawnBoss] calls [destroy()] on the boss it has just built,
    to replace the mesh; [EnemyDrone3D.destroy] is not only a disposal:
    the player is awarded what [addScore] returns for the boss's 500
    points at [z = -80] (900 at combo 0, 3689 at combo 31) and one
    destroyed enemy, and the boss enters the enemies array with its
    liveness flag cleared, so that no projectile of a collision pass can
    hit it. *)
Theorem spawnBoss_awards_points_and_boss_is_dead (id : nat)
    (speed x1 y1 x2 y2 : Q) (w : World) (p : PlayerState) :
  enemyStore w !! id = None →
  player w = Some p →
  let w' := spawnBoss id speed x1 y1 x2 y2 w in
  let award := (Player.addScore 500 (Some (mkVector3 x1 y1 (-80))) p).1.2 in
  enemies w' = enemies w ++ [id] ∧
  enemyAlive w' id = false ∧
  (∀ pid : nat, collideEnemy pid id w' = w') ∧
  (∃ p' : PlayerState,
    player w' = Some p' ∧
    score p' = score p + award ∧
    enemiesDestroyed (stats p') = enemiesDestroyed (stats p) + 1) ∧
  (currentCombo (stats p) = 0 → award = 900) ∧
  (currentCombo (stats p) = 31 → award = 3689).
Proof.
  intros Hfresh Hp.
  destruct (spawnBoss_spec id speed x1 y1 x2 y2 w p Hfresh Hp)
    as (Hp' & Hen & Hdead & _).
  cbn zeta in *.
  destruct (addScore_spec 500 (Some (mkVector3 x1 y1 (-80))) p)
    as (Hret & Hs & _).
  destruct (addScore_other_counters 500 (Some (mkVector3 x1 y1 (-80))) p)
    as (Hk & _).
  cbn zeta in *.
  split; [exact Hen |]. split; [exact Hdead |].
  split; [intros pid; apply collideEnemy_dead, Hdead |].
  split.
  { eexists. split; [exact Hp' |]. split; [exact Hs |].
    cbn [incr_enemiesDestroyed stats enemiesDestroyed Player.set_stats].
    rewrite <- Hk. unfold incr_enemiesDestroyed. player_simpl. done. }
  rewrite Hret. split; intros ->; vm_compute; reflexivity.
Qed.

Lemma spawnBoss_awards_points_and_boss_is_dead_witness :
  let w' := spawnBoss 12 8 5 5 (-5) 3 twoDronesWorld in
  enemies w' = [10; 11; 12]%nat ∧ enemyAlive w' 12 = false ∧
  (score <$> player w') = Some 900.
Proof.
  destruct (spawnBoss_awards_points_and_boss_is_dead 12 8 5 5 (-5) 3
              twoDronesWorld Player.new eq_refl eq_refl)
    as (H1 & H2 & _ & (p' & Hp & Hs & _) & H0 & _).
  split; [exact H1 |]. split; [exact H2 |].
  cbn zeta in Hp. rewrite Hp. cbn [fmap option_fmap option_map].
  f_equal. rewrite Hs, (H0 eq_refl). reflexivity.
Defined.

(** One call of [gameFlow.update()] in a boss wave whose kills are not
    reached and whose time is not up. *)
Lemma GameFlow_update_boss (b : BossDraws) (t : Z) (g : GameFlow.t)
    (w : World) (p : PlayerState) :
  GameFlow.gameRunning g = true → GameFlow.isPaused g = false →
  player w = Some p →
  0 < wave p → Z.rem (wave p) (GameFlow.bossWaveInterval g) = 0 →
  enemiesDestroyed (stats p) < GameFlow.waveEnemiesRequired g →
  t - GameFlow.waveStartTime g ≤ GameFlow.waveDuration g →
  GameFlow_update b t g w
  = (GameFlow.mk true false (GameFlow.frameCount g + 1)
       (GameFlow.waveStartTime g) (GameFlow.waveEnemiesSpawned g)
       (GameFlow.waveEnemiesRequired g) (GameFlow.waveDuration g)
       (GameFlow.bossWaveInterval g),
     GameFlow_triggerBossWave b w).
Proof.
  intros Hrun Hpause Hp Hw Hrem Hk Ht.
  unfold GameFlow_update, GameFlow.checkWaveProgression,
    GameFlow.shouldAdvanceWave.
  rewrite Hrun, Hpause, Hp.
  cbn [negb orb GameFlow.waveDuration GameFlow.waveStartTime
       GameFlow.waveEnemiesRequired].
  destruct (Z.ltb_spec (GameFlow.waveDuration g)
              (t - GameFlow.waveStartTime g)) as [Hlt | _]; [lia |].
  destruct (Z.leb_spec (GameFlow.waveEnemiesRequired g)
              (enemiesDestroyed (stats p))) as [Hle | _]; [lia |].
  cbn [orb]. unfold GameFlow_checkLevelProgression.
  cbn [player set_player GameFlow.bossWaveInterval].
  destruct (Z.ltb_spec 0 (wave p)) as [_ | Hle]; [| lia].
  rewrite Hrem. cbn [Z.eqb andb].
  f_equal. unfold GameFlow_triggerBossWave. f_equal.
  rewrite <- Hp. by destruct w.
Qed.

Lemma triggerBossWave_spec (b : BossDraws) (w : World) (p : PlayerState) :
  enemyStore w !! bossId b = None →
  player w = Some p →
  let w' := GameFlow_triggerBossWave b w in
  (∃ p' : PlayerState,
     player w' = Some p' ∧ wave p' = wave p ∧
     enemiesDestroyed (stats p') = enemiesDestroyed (stats p) + 1 ∧
     score p' = score p
                + (Player.addScore 500
                     (Some (mkVector3 (bossX1 b) (bossY1 b) (-80))) p).1.2) ∧
  enemies w' = enemies w ++ [bossId b] ∧
  enemyAlive w' (bossId b) = false ∧
  (∀ id' : nat, id' ≠ bossId b →
     enemyStore w' !! id' = enemyStore w !! id') ∧
  ∃ evs : list Event, trace w' = trace w ++ evs ++ [EvPlay CueBossAppear].
Proof.
  intros Hfresh Hp w'.
  pose proof (spawnBoss_spec (bossId b) (bossSpeed b) (bossX1 b) (bossY1 b)
                (bossX2 b) (bossY2 b) w p Hfresh Hp) as H.
  pose proof (addScore_wave 500
                (Some (mkVector3 (bossX1 b) (bossY1 b) (-80))) p) as Hw.
  pose proof (addScore_spec 500
                (Some (mkVector3 (bossX1 b) (bossY1 b) (-80))) p) as Hs.
  pose proof (addScore_other_counters 500
                (Some (mkVector3 (bossX1 b) (bossY1 b) (-80))) p) as Hk.
  set (r := Player.addScore 500
              (Some (mkVector3 (bossX1 b) (bossY1 b) (-80))) p) in *.
  set (w1 := spawnBoss (bossId b) (bossSpeed b) (bossX1 b) (bossY1 b)
               (bossX2 b) (bossY2 b) w) in *.
  assert (w' = emit [EvPlay CueBossAppear] w1) as -> by reflexivity.
  destruct H as (Hp' & Hen & Hdead & Hstore & Htr).
  destruct Hs as (_ & Hs & _). destruct Hk as (Hk & _).
  split; [| split; [exact Hen | split; [exact Hdead | split; [exact Hstore |]]]].
  - exists (incr_enemiesDestroyed r.1.1). split; [exact Hp' |].
    split; [exact Hw |]. split; [| exact Hs].
    rewrite <- Hk. reflexivity.
  - exists (r.2 ++ [EvParticles 25; EvPlay CueEnemyExplosion]).
    change (trace (emit [EvPlay CueBossAppear] w1))
      with (trace w1 ++ [EvPlay CueBossAppear]).
    rewrite Htr, <- !app_assoc. reflexivity.
Qed.

Lemma flowRun_boss (calls : list (BossDraws * Z)) :
  ∀ (g : GameFlow.t) (w : World) (p : PlayerState),
    GameFlow.gameRunning g = true → GameFlow.isPaused g = false →
    player w = Some p →
    0 < wave p → Z.rem (wave p) (GameFlow.bossWaveInterval g) = 0 →
    enemiesDestroyed (stats p) + Z.of_nat (length calls)
      ≤ GameFlow.waveEnemiesRequired g →
    Forall (fun call => call.2 - GameFlow.waveStartTime g
                        ≤ GameFlow.waveDuration g) calls →
    NoDup (map (fun call => bossId call.1) calls) →
    Forall (fun call => enemyStore w !! bossId call.1 = None) calls →
    let r := flowRun calls g w in
    r.1 = GameFlow.mk true false
            (GameFlow.frameCount g + Z.of_nat (length calls))
            (GameFlow.waveStartTime g) (GameFlow.waveEnemiesSpawned g)
            (GameFlow.waveEnemiesRequired g) (GameFlow.waveDuration g)
            (GameFlow.bossWaveInterval g) ∧
    enemies r.2 = enemies w ++ map (fun call => bossId call.1) calls ∧
    ∃ p' : PlayerState,
      player r.2 = Some p' ∧ wave p' = wave p ∧
      enemiesDestroyed (stats p')
        = enemiesDestroyed (stats p) + Z.of_nat (length calls).
Proof.
  induction calls as [| [b t] calls IH];
    intros g w p Hrun Hpause Hp Hw Hrem Hk Htimes Hnd Hfresh.
  - cbn. rewrite app_nil_r, Z.add_0_r, <- Hrun, <- Hpause.
    split; [by destruct g |]. split; [done |].
    exists p. split; [done |]. split; [done | lia].
  - apply Forall_cons in Htimes as [Ht Htimes].
    apply Forall_cons in Hfresh as [Hb Hfresh].
    cbn [map] in Hnd. apply NoDup_cons in Hnd as [Hnotin Hnd].
    cbn [fst snd length] in *.
    unfold flowRun. cbn [fold_left fst snd].
    rewrite (GameFlow_update_boss b t g w p Hrun Hpause Hp Hw Hrem);
      [| lia | exact Ht].
    destruct (triggerBossWave_spec b w p Hb Hp)
      as ((p1 & Hp1 & Hw1 & Hk1 & _) & Hen & _ & Hstore & _).
    cbn zeta in *.
    set (g1 := GameFlow.mk true false _ _ _ _ _ _).
    set (w1 := GameFlow_triggerBossWave b w) in *.
    destruct (IH g1 w1 p1) as (Hg & Hen' & p' & Hp' & Hw' & Hk');
      try done.
    + by rewrite Hw1.
    + by rewrite Hw1.
    + rewrite Hk1. subst g1. cbn [GameFlow.waveEnemiesRequired]. lia.
    + clear -Hstore Hnotin Hfresh.
      induction Hfresh as [| call calls Hc Hf IHf]; [constructor |].
      cbn [map] in Hnotin. apply not_elem_of_cons in Hnotin as [Hne Hnotin].
      constructor; [| by apply IHf].
      rewrite Hstore by done. exact Hc.
    + cbn zeta in *. unfold flowRun in *.
      split; [| split].
      * rewrite Hg. subst g1. cbn. f_equal. lia.
      * rewrite Hen', Hen, <- app_assoc. done.
      * exists p'. split; [done |]. split; [by rewrite Hw', Hw1 | lia].
Qed.

(** X27.  [checkLevelProgression] runs in every call of [update] and
    looks only at the wave number: during a wave whose number is a
    positive multiple of the boss interval, every call spawns a boss, not
    only the call that entered the wave.  Each of these bosses is
    destroyed by its own spawn and so counts as a destroyed enemy: over
    calls within the wave duration, as many as kills are missing at most,
    the frame count, the enemies array and the kills grow by one a call
    while the wave number stays; and once the kills have reached the
    number the wave requires, the next call advances the wave. *)
Theorem boss_wave_triggers_every_frame (calls : list (BossDraws * Z))
    (g : GameFlow.t) (w : World) (p : PlayerState) :
  GameFlow.gameRunning g = true →
  GameFlow.isPaused g = false →
  player w = Some p →
  0 < wave p →
  Z.rem (wave p) (GameFlow.bossWaveInterval g) = 0 →
  enemiesDestroyed (stats p) + Z.of_nat (length calls)
    ≤ GameFlow.waveEnemiesRequired g →
  Forall (fun call => call.2 - GameFlow.waveStartTime g
                      ≤ GameFlow.waveDuration g) calls →
  NoDup (map (fun call => bossId call.1) calls) →
  Forall (fun call => enemyStore w !! bossId call.1 = None) calls →
  let r := flowRun calls g w in
  GameFlow.frameCount r.1
    = GameFlow.frameCount g + Z.of_nat (length calls) ∧
  enemies r.2 = enemies w ++ map (fun call => bossId call.1) calls ∧
  (∃ p' : PlayerState,
     player r.2 = Some p' ∧ wave p' = wave p ∧
     enemiesDestroyed (stats p')
       = enemiesDestroyed (stats p) + Z.of_nat (length calls)) ∧
  (enemiesDestroyed (stats p) + Z.of_nat (length calls)
     = GameFlow.waveEnemiesRequired g →
   Z.rem (wave p + 1) (GameFlow.bossWaveInterval g) ≠ 0 →
   ∀ (b : BossDraws) (t : Z),
     (wave <$> player (GameFlow_update b t r.1 r.2).2) = Some (wave p + 1)).
Proof.
  intros Hrun Hpause Hp Hw Hrem Hk Htimes Hnd Hfresh.
  destruct (flowRun_boss calls g w p Hrun Hpause Hp Hw Hrem Hk Htimes Hnd
              Hfresh) as (Hg & Hen & p' & Hp' & Hw' & Hk').
  cbn zeta in *.
  destruct (flowRun calls g w) as [g' w']. cbn [fst snd] in *.
  split; [by rewrite Hg |]. split; [exact Hen |].
  split; [by exists p' |].
  intros Hfull Hrem' b t.
  unfold GameFlow_update, GameFlow.checkWaveProgression,
    GameFlow.shouldAdvanceWave, GameFlow.advanceWave.
  rewrite Hg, Hp'.
  cbn [negb orb GameFlow.gameRunning GameFlow.isPaused
       GameFlow.waveEnemiesRequired GameFlow.waveDuration
       GameFlow.waveStartTime GameFlow.bossWaveInterval
       GameFlow.frameCount GameFlow.waveEnemiesSpawned].
  destruct (Z.leb_spec (GameFlow.waveEnemiesRequired g)
              (enemiesDestroyed (stats p'))) as [_ | Hlt]; [| lia].
  rewrite orb_true_r.
  unfold GameFlow_checkLevelProgression.
  cbn [player set_player wave Player.setWave GameFlow.bossWaveInterval].
  rewrite Hw'.
  destruct (Z.eqb_spec (Z.rem (wave p + 1) (GameFlow.bossWaveInterval g)) 0);
    [done |].
  rewrite andb_false_r. reflexivity.
Qed.

Lemma boss_wave_triggers_every_frame_witness :
  let g := GameFlow.start 0 GameFlow.new in
  let w := set_player (Some (Player.setWave 5 Player.new)) initialWorld in
  let calls :=
    map (fun k => (mkBossDraws k 8 5 5 (-5) 3, 16 * Z.of_nat k)) (seq 1 10) in
  length (enemies (flowRun calls g w).2) = 10%nat ∧
  ((fun p => enemiesDestroyed (stats p)) <$> player (flowRun calls g w).2)
    = Some 10 ∧
  (wave <$> player (flowRun calls g w).2) = Some 5 ∧
  (wave <$> player
     (GameFlow_update (mkBossDraws 11 8 5 5 (-5) 3) 176
        (flowRun calls g w).1 (flowRun calls g w).2).2) = Some 6.
Proof.
  intros g w calls.
  assert (Forall (fun call : BossDraws * Z =>
                    call.2 - GameFlow.waveStartTime g
                    ≤ GameFlow.waveDuration g) calls) as Htimes
    by (repeat constructor; vm_compute; discriminate).
  assert (NoDup (map (fun call : BossDraws * Z => bossId call.1) calls))
    as Hnd by (apply (bool_decide_unpack _); vm_compute; reflexivity).
  assert (Forall (fun call : BossDraws * Z =>
                    enemyStore w !! bossId call.1 = None) calls) as Hfresh
    by (repeat constructor).
  assert (enemiesDestroyed (stats (Player.setWave 5 Player.new))
          + Z.of_nat (length calls) ≤ GameFlow.waveEnemiesRequired g) as Hk
    by (vm_compute; discriminate).
  destruct (boss_wave_triggers_every_frame calls g w
              (Player.setWave 5 Player.new)
              eq_refl eq_refl eq_refl eq_refl eq_refl Hk Htimes Hnd Hfresh)
    as (_ & Hen & (p' & Hp' & Hw' & Hk') & Hnext).
  cbn zeta in *. rewrite Hen, Hp'.
  cbn [fmap option_fmap option_map]. rewrite Hw', Hk'.
  split; [reflexivity |]. split; [reflexivity |]. split; [reflexivity |].
  apply Hnext; [reflexivity | vm_compute; discriminate].
Defined.

(** ** Taps *)




Section TapFacts.

Variable randomPowerUpType : nat → PowerUpType.
Variable randomDelay : nat → Q.




End TapFacts.


(** ** Restart *)

Lemma resetGame_view (w : World) :
  player (resetGame w) = Player.reset <$> player w ∧
  activeOf (resetGame w) = (fun _ => None) <$> activeOf w ∧
  balloons (resetGame w) = [] ∧ enemies (resetGame w) = [] ∧
  projectiles (resetGame w) = [] ∧
  timers (resetGame w) = timers w ∧
  balloonStore (resetGame w) = balloonStore w.
Proof.
  world_cases w; try destruct act; repeat split.
Qed.

Section RestartFacts.

Variable randomPowerUpType : nat → PowerUpType.
Variable randomDelay : nat → Q.

(** X30.  [resetGame] empties the arrays of the scene, resets the player
    and switches the power-up off, but cancels no timer and destroys no
    object: a chain-reaction timer pending at the restart still fires, and
    when its balloon is alive with one hit point left it is popped and
    scored in the new game: the new score is what [addScore] returns for
    the balloon's points at its position on the reset player. *)
Theorem resetGame_keeps_pending_chain_timers (t : Timer) (w : World)
    (b : Balloon3D.t) (p : PlayerState) :
  player w = Some p →
  balloonStore w !! timerTarget t = Some b →
  Balloon3D.isAlive b = true →
  Balloon3D.health b <= 1 →
  let w' := resetGame w in
  balloons w' = [] ∧ enemies w' = [] ∧ projectiles w' = [] ∧
  (score <$> player w') = Some 0 ∧
  activeOf w' = (fun _ => None) <$> activeOf w ∧
  timers w' = timers w ∧
  ∃ p' : PlayerState,
    player (runTimer randomPowerUpType randomDelay t w') = Some p' ∧
    score p'
      = (Player.addScore (Balloon3D.points b)
           (Some (Balloon3D.position b)) (Player.reset p)).1.2 ∧
    currentCombo (stats p') = 1.
Proof.
  intros Hp Hb Halive Hh w'.
  destruct (resetGame_view w) as (Hpl & Hact & Hbl & Hen & Hpr & Htm & Hst).
  fold w' in Hpl, Hact, Hbl, Hen, Hpr, Htm, Hst.
  rewrite Hp in Hpl. cbn [fmap option_fmap option_map] in Hpl.
  split; [exact Hbl |]. split; [exact Hen |]. split; [exact Hpr |].
  split; [by rewrite Hpl |]. split; [exact Hact |]. split; [exact Htm |].
  unfold runTimer, balloonAlive. rewrite Hst, Hb, Halive.
  assert (balloonStore w' !! timerTarget t = Some b) as Hb'
    by (by rewrite Hst).
  rewrite (hit_unfold randomPowerUpType randomDelay _ b w' Hb'). cbn zeta.
  destruct (Z.leb_spec (Balloon3D.health b - 1) 0) as [_ | Hgt]; [| lia].
  cbn [fst].
  set (w1 := withHealth (timerTarget t) (Balloon3D.health b - 1) w').
  set (b1 := Balloon3D.set_health (Balloon3D.health b - 1) b).
  assert (balloonStore w1 !! timerTarget t = Some b1) as Hb1
    by (by apply withHealth_lookup).
  assert (player w1 = Some (Player.reset p)) as Hp1 by exact Hpl.
  assert (nearbyBalloons (timerTarget t) b1 w1 = []) as Hnear.
  { unfold nearbyBalloons.
    assert (balloons w1 = []) as -> by exact Hbl. done. }
  assert (Balloon3D.isAlive b1 = true) as Halive1
    by (subst b1; by destruct b).
  destruct (destroy_live_player randomPowerUpType randomDelay
              (timerTarget t) b1 w1 (Player.reset p) Hb1 Halive1 Hp1 Hnear
              _ eq_refl) as (p' & Hp' & Hs & _ & Hc & _).
  exists p'. split; [exact Hp' |].
  destruct (addScore_spec (Balloon3D.points b1)
              (Some (Balloon3D.position b1)) (Player.reset p))
    as (_ & Hs2 & Hc2 & _).
  rewrite Hs, Hc, Hs2, Hc2.
  assert (Balloon3D.points b1 = Balloon3D.points b) as ->
    by (subst b1; by destruct b).
  assert (Balloon3D.position b1 = Balloon3D.position b) as ->
    by (subst b1; by destruct b).
  split; [| done].
  cbn [score Player.reset]. apply Z.add_0_l.
Qed.

End RestartFacts.

Lemma resetGame_keeps_pending_chain_timers_witness :
  let w' := resetGame pendingTimerWorld in
  balloons w' = [] ∧ timers w' = [mkTimer 100 7] ∧
  ∃ p' : PlayerState,
    player (runTimer alwaysShield delay100 (mkTimer 100 7) w') = Some p' ∧
    score p' = 59 ∧ currentCombo (stats p') = 1.
Proof.
  destruct (resetGame_keeps_pending_chain_timers alwaysShield delay100
              (mkTimer 100 7) pendingTimerWorld
              (balloonAt 19 true 1 50 normal) Player.new
              eq_refl eq_refl eq_refl)
    as (H1 & _ & _ & _ & _ & H2 & p' & Hp & Hs & Hc).
  - simpl. lia.
  - split; [exact H1 |]. split; [exact H2 |]. exists p'.
    split; [exact Hp |]. split; [| exact Hc].
    rewrite Hs. vm_compute. reflexivity.
Defined.

(** ** Sample runs of the pool and of [removeObject] *)

Lemma pool_counts_objects_witness :
  let p :=
    ObjectPool.after bool (fun _ => true) negb 1
      [ObjectPool.CallAcquire; ObjectPool.CallAcquire;
       ObjectPool.CallRelease 0] in
  (ObjectPool.getPoolCount bool p + ObjectPool.getActiveCount bool p
   = ObjectPool.created bool p)%nat ∧
  ObjectPool.created bool p = 2%nat.
Proof.
  destruct (pool_counts_objects (fun _ => true) negb 1
              [ObjectPool.CallAcquire; ObjectPool.CallAcquire;
               ObjectPool.CallRelease 0]) as (H & _).
  split; [exact H | reflexivity].
Defined.

Lemma acquire_never_aliases_witness :
  let p :=
    ObjectPool.after bool (fun _ => true) negb 1 [ObjectPool.CallAcquire] in
  (ObjectPool.acquire bool (fun _ => true) p).1 = 1%nat ∧
  ObjectPool.created bool (ObjectPool.acquire bool (fun _ => true) p).2
    = 2%nat.
Proof.
  destruct (acquire_never_aliases (fun _ => true) negb 1
              [ObjectPool.CallAcquire]) as (_ & _ & _ & _ & H).
  destruct (H eq_refl) as (H1 & _ & H3).
  split; [exact H1 | exact H3].
Defined.

Lemma removeObject_removes_first_reference_witness :
  removeObject 2 [1; 2; 3]%nat = [1; 3]%nat ∧
  2%nat ∉ removeObject 2 [1; 2; 3]%nat.
Proof.
  destruct (removeObject_removes_first_reference 2 [1; 2; 3]%nat)
    as (_ & _ & _ & H).
  destruct H as [H1 H2].
  - apply (bool_decide_unpack _). reflexivity.
  - split; [exact H1 | exact H2].
Defined.
